(** * PySpur front-end: node sidebar, schema translator and node factory

    A shallow embedding of the logic of [NodeSidebar.tsx] (schema
    translation, model constraints, upstream schema collection, config
    synchronisation) and of [utils/nodeFactory.ts], together with the
    part of the JavaScript run time these functions rely on.

    - A string is a sequence of UTF-16 code units.
    - A plain object is the list of its own properties in the order
      [Object.keys] enumerates them; defining a property follows that
      order (array indices first and ascending), and an assignment
      [o[k] = v] to the key [__proto__] reaches the setter inherited
      from [Object.prototype] instead of defining a property.  Nothing
      else of the prototype chain is modelled.
    - [JSON.parse] and [JSON.stringify] are written out.  A number is
      the exact decimal its literal denotes: the rounding of IEEE
      doubles is not modelled, and neither are the limits an engine
      puts on the depth of nesting.
    - A node configuration is a record with the fields the sidebar
      reads at the types its code assumes for them, and the remaining
      fields as a plain object.  Numbers of the configuration are only
      compared and selected, so they are exact rationals.
    - A thrown exception is a value of [completion]; [console.error] is
      a list of diagnostics; the store is the list of the actions
      dispatched to it; time is a clock in milliseconds that events
      advance.
    - Records and plain objects are values: what they hold, not which
      object they are.  Where a statement depends on that (the deep
      copy of [createNode]), objects live at addresses of a heap, and
      the function is given once more over it.
    - What the store does with an action is not modelled: its reducers
      are not in these files.  In particular a commit does not come
      back as a new [nodeConfig], and the loading effect is run where a
      statement says so; statements about several events are about
      what is dispatched, and about the working copy only where the
      store cannot have changed it in between.
    - Of the rendering, the decisions are modelled (which fields are
      shown, in which order, under which provider, with which bounds,
      values and paths), not the markup.  The width of the sidebar is
      a difference of pixel counts, an exact rational as well. *)

From Stdlib Require Import Ascii String DecimalString.
From Stdlib Require Import List NArith ZArith QArith Bool Lia.
Import ListNotations.

Set Warnings "-register-all".
Local Open Scope N_scope.

(* ================================================================== *)
(** ** JavaScript strings *)
(* ================================================================== *)

(** A JavaScript string is a finite sequence of UTF-16 code units. *)
Definition code_unit := N.
Definition jsstring := list code_unit.

(** [u "abc"] is the JavaScript string holding the characters of the
    literal; [dq] additionally turns every apostrophe into a double
    quote, so that JSON texts can be written the way the TypeScript
    source writes them, inside single quotes. *)
Definition u (s : string) : jsstring := map N_of_ascii (list_ascii_of_string s).

Definition dq (s : string) : jsstring :=
  map (fun c => if c =? 39 then 34 else c) (u s).

Fixpoint str_eqb (a b : jsstring) : bool :=
  match a, b with
  | [], [] => true
  | x :: a', y :: b' => (x =? y) && str_eqb a' b'
  | _, _ => false
  end.

(** Falsy strings: only the empty one. *)
Definition str_truthy (s : jsstring) : bool :=
  match s with [] => false | _ :: _ => true end.

(** The WhiteSpace and LineTerminator code units, which
    [String.prototype.trim] strips from both ends. *)
Definition is_js_space (c : code_unit) : bool :=
  ((9 <=? c) && (c <=? 13)) || (c =? 32) || (c =? 160) || (c =? 5760)
  || ((8192 <=? c) && (c <=? 8202)) || (c =? 8232) || (c =? 8233)
  || (c =? 8239) || (c =? 8287) || (c =? 12288) || (c =? 65279).

Fixpoint trimStart (s : jsstring) : jsstring :=
  match s with
  | [] => []
  | c :: r => if is_js_space c then trimStart r else s
  end.

Definition trimEnd (s : jsstring) : jsstring := rev (trimStart (rev s)).

Definition trim (s : jsstring) : jsstring := trimEnd (trimStart s).

Definition BACKSLASH : code_unit := 92.
Definition DQUOTE : code_unit := 34.

(** [s.replace(/\\X/g, by)]: every non-overlapping occurrence, from the
    left, of a backslash followed by the code unit [x] is replaced. *)
Fixpoint replace_escaped (x : code_unit) (by_ : jsstring) (s : jsstring) : jsstring :=
  match s with
  | [] => []
  | c :: r =>
      match r with
      | d :: r' =>
          if (c =? BACKSLASH) && (d =? x) then by_ ++ replace_escaped x by_ r'
          else c :: replace_escaped x by_ r
      | [] => [c]
      end
  end.

(** [s.replace(/\\/g, '')]. *)
Definition remove_backslashes (s : jsstring) : jsstring :=
  filter (fun c => negb (c =? BACKSLASH)) s.

(** [s.startsWith(p)]. *)
Fixpoint startsWith (p s : jsstring) : bool :=
  match p, s with
  | [], _ => true
  | x :: p', y :: s' => (x =? y) && startsWith p' s'
  | _ :: _, [] => false
  end.

(** [s.includes(p)]. *)
Fixpoint includes (p s : jsstring) : bool :=
  startsWith p s || match s with [] => false | _ :: s' => includes p s' end.

(** Decimal digits of a natural number, as [Number.prototype.toString]
    prints an integer. *)
Definition decimal (n : N) : jsstring := u (NilZero.string_of_uint (N.to_uint n)).

Definition is_digit (c : code_unit) : bool := (48 <=? c) && (c <=? 57).

Definition digits_value (ds : jsstring) : N :=
  fold_left (fun acc c => acc * 10 + (c - 48)) ds 0.

(* ================================================================== *)
(** ** JSON values and plain objects *)
(* ================================================================== *)

(** The values [JSON.parse] produces.  A number is kept as the exact
    decimal [m * 10^e] its literal denotes. *)
Inductive json : Type :=
| JNull
| JBool (b : bool)
| JNum (m e : Z)
| JStr (s : jsstring)
| JArr (l : list json)
| JObj (o : list (jsstring * json)).

(** A plain object: its own enumerable properties, in the order
    [Object.keys] lists them. *)
Definition jsobj := list (jsstring * json).

(** ToBoolean. *)
Definition truthy (v : json) : bool :=
  match v with
  | JNull => false
  | JBool b => b
  | JNum m _ => negb (m =? 0)%Z
  | JStr s => str_truthy s
  | JArr _ | JObj _ => true
  end.

(** [typeof v === 'object'] (true of [null], too). *)
Definition typeof_object (v : json) : bool :=
  match v with
  | JNull | JArr _ | JObj _ => true
  | _ => false
  end.

Fixpoint js_lookup (k : jsstring) (o : jsobj) : option json :=
  match o with
  | [] => None
  | (k', v) :: r => if str_eqb k' k then Some v else js_lookup k r
  end.

Definition has_own (k : jsstring) (o : jsobj) : bool :=
  match js_lookup k o with Some _ => true | None => false end.

Definition Object_keys (o : jsobj) : list jsstring := map fst o.

(** An array index is the canonical decimal string of an integer below
    [2^32 - 1]; such keys are enumerated first, in ascending order. *)
Definition array_index (k : jsstring) : option N :=
  if forallb is_digit k && str_truthy k then
    let n := digits_value k in
    if str_eqb (decimal n) k && (n <? 4294967295) then Some n else None
  else None.

(** [key_before a b]: an object may list key [a] somewhere before key [b]. *)
Definition key_before (a b : jsstring) : bool :=
  match array_index b with
  | None => true
  | Some nb =>
      match array_index a with
      | Some na => na <? nb
      | None => false
      end
  end.

Fixpoint js_replace (k : jsstring) (v : json) (o : jsobj) : jsobj :=
  match o with
  | [] => []
  | (k', v') :: r => if str_eqb k' k then (k', v) :: r else (k', v') :: js_replace k v r
  end.

Fixpoint js_insert (k : jsstring) (v : json) (o : jsobj) : jsobj :=
  match o with
  | [] => [(k, v)]
  | (k', v') :: r =>
      if key_before k' k then (k', v') :: js_insert k v r else (k, v) :: o
  end.

(** CreateDataProperty on a plain object: used by object literals,
    spread, and [JSON.parse]. *)
Definition js_set (k : jsstring) (v : json) (o : jsobj) : jsobj :=
  if has_own k o then js_replace k v o else js_insert k v o.

(** [o[k] = v] on a plain object whose prototype is [Object.prototype]:
    the key [__proto__] reaches the inherited setter and defines no own
    property. *)
Definition js_assign (k : jsstring) (v : json) (o : jsobj) : jsobj :=
  if str_eqb k (u "__proto__") then o else js_set k v o.

(** [Object.entries(v)] for a value that is not [null]. *)
Fixpoint indexed {A} (i : N) (l : list A) : list (jsstring * A) :=
  match l with
  | [] => []
  | x :: r => (decimal i, x) :: indexed (i + 1) r
  end.

Definition Object_entries (v : json) : jsobj :=
  match v with
  | JObj o => o
  | JArr l => indexed 0 l
  | JStr s => indexed 0 (map (fun c => JStr [c]) s)
  | _ => []
  end.

(* ================================================================== *)
(** ** JSON.stringify *)
(* ================================================================== *)

Definition hex_digit (n : N) : code_unit := if n <? 10 then 48 + n else 87 + n.

Definition hex4 (c : code_unit) : jsstring :=
  [hex_digit ((c / 4096) mod 16); hex_digit ((c / 256) mod 16);
   hex_digit ((c / 16) mod 16); hex_digit (c mod 16)].

(** The six-character escape [\uXXXX]. *)
Definition unicode_escape (c : code_unit) : jsstring := BACKSLASH :: 117 :: hex4 c.

Definition is_high_surrogate (c : code_unit) : bool := (55296 <=? c) && (c <=? 56319).
Definition is_low_surrogate (c : code_unit) : bool := (56320 <=? c) && (c <=? 57343).

(** One code unit that is not a surrogate, as QuoteJSONString writes it. *)
Definition escape_unit (c : code_unit) : jsstring :=
  if c =? 8 then [BACKSLASH; 98]
  else if c =? 9 then [BACKSLASH; 116]
  else if c =? 10 then [BACKSLASH; 110]
  else if c =? 12 then [BACKSLASH; 102]
  else if c =? 13 then [BACKSLASH; 114]
  else if c =? DQUOTE then [BACKSLASH; DQUOTE]
  else if c =? BACKSLASH then [BACKSLASH; BACKSLASH]
  else if c <? 32 then unicode_escape c
  else [c].

(** A surrogate pair is written as it is, a lone surrogate escaped. *)
Fixpoint quote_chars (s : jsstring) : jsstring :=
  match s with
  | [] => []
  | c :: r =>
      if is_high_surrogate c then
        match r with
        | d :: r' =>
            if is_low_surrogate d then c :: d :: quote_chars r'
            else unicode_escape c ++ quote_chars r
        | [] => unicode_escape c
        end
      else if is_low_surrogate c then unicode_escape c ++ quote_chars r
      else escape_unit c ++ quote_chars r
  end.

Definition QuoteJSONString (s : jsstring) : jsstring :=
  DQUOTE :: quote_chars s ++ [DQUOTE].

(** Number::toString on the decimal [m * 10^e]. *)
Fixpoint strip_trailing_zeros (rev_ds : jsstring) (e : Z) : jsstring * Z :=
  match rev_ds with
  | c :: r => if c =? 48 then strip_trailing_zeros r (e + 1)%Z else (rev rev_ds, e)
  | [] => ([], e)
  end.

Definition number_to_string (m e : Z) : jsstring :=
  if (m =? 0)%Z then u "0"
  else
    let (ds, e') := strip_trailing_zeros (rev (decimal (Z.to_N (Z.abs m)))) e in
    let k := Z.of_nat (length ds) in
    let n := (k + e')%Z in
    let body :=
      if ((k <=? n) && (n <=? 21))%Z then ds ++ repeat 48 (Z.to_nat (n - k))
      else if ((0 <? n) && (n <=? 21))%Z then
        firstn (Z.to_nat n) ds ++ 46 :: skipn (Z.to_nat n) ds
      else if ((-6 <? n) && (n <=? 0))%Z then
        48 :: 46 :: repeat 48 (Z.to_nat (- n)) ++ ds
      else
        let ex := (n - 1)%Z in
        let exs := (if (ex <? 0)%Z then 45 else 43) :: decimal (Z.to_N (Z.abs ex)) in
        match ds with
        | [] => []
        | [d] => d :: 101 :: exs
        | d :: r => d :: 46 :: r ++ 101 :: exs
        end in
    if (m <? 0)%Z then 45 :: body else body.

Definition NEWLINE : code_unit := 10.
Definition SPACE : code_unit := 32.

Definition spaces (n : nat) : jsstring := repeat SPACE n.

Fixpoint join_with (sep : jsstring) (parts : list jsstring) : jsstring :=
  match parts with
  | [] => []
  | p :: r => match r with [] => p | _ :: _ => p ++ sep ++ join_with sep r end
  end.

(** Brackets around the serialized members, as SerializeJSONObject and
    SerializeJSONArray lay them out for the gap [gap] at indentation
    [indent]. *)
Definition wrap (opening closing : code_unit) (gap indent : nat)
    (parts : list jsstring) : jsstring :=
  match parts with
  | [] => [opening; closing]
  | _ :: _ =>
      match gap with
      | O => opening :: join_with [44] parts ++ [closing]
      | S _ =>
          opening :: NEWLINE :: spaces (indent + gap)
            ++ join_with (44 :: NEWLINE :: spaces (indent + gap)) parts
            ++ NEWLINE :: spaces indent ++ [closing]
      end
  end.

Definition colon (gap : nat) : jsstring :=
  match gap with O => [58] | S _ => [58; SPACE] end.

Fixpoint serialize (gap indent : nat) (v : json) : jsstring :=
  match v with
  | JNull => u "null"
  | JBool true => u "true"
  | JBool false => u "false"
  | JNum m e => number_to_string m e
  | JStr s => QuoteJSONString s
  | JArr l => wrap 91 93 gap indent (map (serialize gap (indent + gap)) l)
  | JObj o =>
      wrap 123 125 gap indent
        (map (fun kv => QuoteJSONString (fst kv) ++ colon gap
                          ++ serialize gap (indent + gap) (snd kv)) o)
  end.

(** [JSON.stringify(v, null, space)] for a numeric [space]. *)
Definition JSON_stringify (v : json) (space : nat) : jsstring :=
  serialize (Nat.min space 10) 0 v.

(* ================================================================== *)
(** ** JSON.parse *)
(* ================================================================== *)

Inductive parse_result (A : Type) : Type :=
| Parsed (a : A) (rest : jsstring)
| SyntaxError
| OutOfFuel.
Arguments Parsed {A} a rest.
Arguments SyntaxError {A}.
Arguments OutOfFuel {A}.

Definition is_json_space (c : code_unit) : bool :=
  (c =? 32) || (c =? 9) || (c =? 10) || (c =? 13).

Fixpoint skip_ws (s : jsstring) : jsstring :=
  match s with
  | [] => []
  | c :: r => if is_json_space c then skip_ws r else s
  end.

Definition hex_value (c : code_unit) : option N :=
  if is_digit c then Some (c - 48)
  else if (97 <=? c) && (c <=? 102) then Some (c - 87)
  else if (65 <=? c) && (c <=? 70) then Some (c - 55)
  else None.

Definition hex4_value (a b c d : code_unit) : option code_unit :=
  match hex_value a, hex_value b, hex_value c, hex_value d with
  | Some x, Some y, Some z, Some w => Some (4096 * x + 256 * y + 16 * z + w)
  | _, _, _, _ => None
  end.

Definition simple_escape (c : code_unit) : option code_unit :=
  if c =? DQUOTE then Some DQUOTE
  else if c =? BACKSLASH then Some BACKSLASH
  else if c =? 47 then Some 47
  else if c =? 98 then Some 8
  else if c =? 102 then Some 12
  else if c =? 110 then Some 10
  else if c =? 114 then Some 13
  else if c =? 116 then Some 9
  else None.

(** The characters of a string literal, after its opening quote. *)
Fixpoint parse_chars (s : jsstring) : option (jsstring * jsstring) :=
  match s with
  | [] => None
  | c :: r =>
      if c =? DQUOTE then Some ([], r)
      else if c =? BACKSLASH then
        match r with
        | [] => None
        | e :: r1 =>
            if e =? 117 then
              match r1 with
              | h1 :: h2 :: h3 :: h4 :: r2 =>
                  match hex4_value h1 h2 h3 h4 with
                  | Some x =>
                      match parse_chars r2 with
                      | Some (str, rest) => Some (x :: str, rest)
                      | None => None
                      end
                  | None => None
                  end
              | _ => None
              end
            else
              match simple_escape e with
              | Some x =>
                  match parse_chars r1 with
                  | Some (str, rest) => Some (x :: str, rest)
                  | None => None
                  end
              | None => None
              end
        end
      else if c <? 32 then None
      else
        match parse_chars r with
        | Some (str, rest) => Some (c :: str, rest)
        | None => None
        end
  end.

Fixpoint span_digits (s : jsstring) : jsstring * jsstring :=
  match s with
  | [] => ([], [])
  | c :: r =>
      if is_digit c then let (ds, rest) := span_digits r in (c :: ds, rest)
      else ([], s)
  end.

(** A number literal: an optional minus sign, an integer part without
    superfluous leading zero, an optional fraction and an optional
    exponent. *)
Definition parse_fraction (s : jsstring) : option (jsstring * jsstring) :=
  match s with
  | c :: r =>
      if c =? 46 then
        let (fs, rest) := span_digits r in
        if str_truthy fs then Some (fs, rest) else None
      else Some ([], s)
  | [] => Some ([], s)
  end.

Definition parse_exponent (s : jsstring) : option (Z * jsstring) :=
  match s with
  | c :: r =>
      if (c =? 101) || (c =? 69) then
        let (neg, r1) :=
          match r with
          | d :: r' => if d =? 45 then (true, r') else if d =? 43 then (false, r') else (false, r)
          | [] => (false, r)
          end in
        let (es, rest) := span_digits r1 in
        if str_truthy es then
          let x := Z.of_N (digits_value es) in
          Some (if neg then (- x)%Z else x, rest)
        else None
      else Some (0%Z, s)
  | [] => Some (0%Z, s)
  end.

Definition parse_number (s : jsstring) : option (json * jsstring) :=
  let (neg, s1) :=
    match s with
    | c :: r => if c =? 45 then (true, r) else (false, s)
    | [] => (false, s)
    end in
  match s1 with
  | c :: r =>
      if is_digit c then
        let (int_ds, s2) := if c =? 48 then ([c], r) else span_digits s1 in
        match parse_fraction s2 with
        | Some (frac_ds, s3) =>
            match parse_exponent s3 with
            | Some (ex, s4) =>
                let m := Z.of_N (digits_value (int_ds ++ frac_ds)) in
                Some (JNum (if neg then (- m)%Z else m)
                           (ex - Z.of_nat (length frac_ds))%Z, s4)
            | None => None
            end
        | None => None
        end
      else None
  | [] => None
  end.

Definition parse_literal (s : jsstring) : option (json * jsstring) :=
  if startsWith (u "true") s then Some (JBool true, skipn 4 s)
  else if startsWith (u "false") s then Some (JBool false, skipn 5 s)
  else if startsWith (u "null") s then Some (JNull, skipn 4 s)
  else parse_number s.

(** The recursive-descent parser.  A call spends one unit of fuel, and
    of two nested calls the inner one is made on a shorter input, so
    that fuel above twice the length of the text is never used up
    (see [JSON_parse_fuel]). *)
Fixpoint parse_value (fuel : nat) (s : jsstring) {struct fuel} : parse_result json :=
  match fuel with
  | O => OutOfFuel
  | S n =>
      match skip_ws s with
      | [] => SyntaxError
      | c :: r =>
          if c =? 123 then
            match skip_ws r with
            | c' :: r' => if c' =? 125 then Parsed (JObj []) r' else parse_members n [] r
            | [] => SyntaxError
            end
          else if c =? 91 then
            match skip_ws r with
            | c' :: r' => if c' =? 93 then Parsed (JArr []) r' else parse_elements n [] r
            | [] => SyntaxError
            end
          else if c =? DQUOTE then
            match parse_chars r with
            | Some (str, rest) => Parsed (JStr str) rest
            | None => SyntaxError
            end
          else
            match parse_literal (c :: r) with
            | Some (v, rest) => Parsed v rest
            | None => SyntaxError
            end
      end
  end

with parse_members (fuel : nat) (acc : jsobj) (s : jsstring) {struct fuel}
  : parse_result json :=
  match fuel with
  | O => OutOfFuel
  | S n =>
      match skip_ws s with
      | [] => SyntaxError
      | c :: r =>
          if c =? DQUOTE then
            match parse_chars r with
            | None => SyntaxError
            | Some (k, r1) =>
                match skip_ws r1 with
                | [] => SyntaxError
                | c1 :: r2 =>
                    if c1 =? 58 then
                      match parse_value n r2 with
                      | Parsed v r3 =>
                          match skip_ws r3 with
                          | [] => SyntaxError
                          | c3 :: r4 =>
                              if c3 =? 44 then parse_members n (js_set k v acc) r4
                              else if c3 =? 125 then Parsed (JObj (js_set k v acc)) r4
                              else SyntaxError
                          end
                      | SyntaxError => SyntaxError
                      | OutOfFuel => OutOfFuel
                      end
                    else SyntaxError
                end
            end
          else SyntaxError
      end
  end

with parse_elements (fuel : nat) (acc : list json) (s : jsstring) {struct fuel}
  : parse_result json :=
  match fuel with
  | O => OutOfFuel
  | S n =>
      match parse_value n s with
      | Parsed v r1 =>
          match skip_ws r1 with
          | [] => SyntaxError
          | c :: r2 =>
              if c =? 44 then parse_elements n (acc ++ [v]) r2
              else if c =? 93 then Parsed (JArr (acc ++ [v])) r2
              else SyntaxError
          end
      | SyntaxError => SyntaxError
      | OutOfFuel => OutOfFuel
      end
  end.

(** [JSON.parse(text)]: one value, white space around it, nothing else.
    [None] stands for the SyntaxError it throws. *)
Definition JSON_parse (text : jsstring) : option json :=
  match parse_value (S (length text + length text)) text with
  | Parsed v rest => match skip_ws rest with [] => Some v | _ :: _ => None end
  | _ => None
  end.

(* ================================================================== *)
(** ** Exceptions and the console *)
(* ================================================================== *)

Inductive exn : Type := TypeError.

(** How a block of statements completes. *)
Inductive completion (A : Type) : Type :=
| Normal (a : A)
| Throw (e : exn).
Arguments Normal {A} a.
Arguments Throw {A} e.

(** One call of [console.error]. *)
Record diagnostic : Type := console_error { message : jsstring; thrown : exn }.

(** What a call leaves behind: how it completed and what it logged. *)
Record outcome (A : Type) : Type :=
  mkOutcome { result : completion A; console : list diagnostic }.
Arguments mkOutcome {A} result console.
Arguments result {A} o.
Arguments console {A} o.

(** [v.k] for the property names the translator reads, [properties] and
    [type]: names that no built-in prototype defines and that are not
    array indices.  The value is the own property of an object, or
    [undefined], written [None]; reading a property of [null] throws. *)
Definition js_get (k : jsstring) (v : json) : completion (option json) :=
  match v with
  | JNull => Throw TypeError
  | JObj o => Normal (js_lookup k o)
  | _ => Normal None
  end.

(** [k in v] for such a name; the operator throws unless [v] is an
    object. *)
Definition js_in (k : jsstring) (v : json) : completion bool :=
  match v with
  | JObj o => Normal (has_own k o)
  | JArr _ => Normal false
  | _ => Throw TypeError
  end.

(* ================================================================== *)
(** ** Schema translator (NodeSidebar.tsx, lines 75-135) *)
(* ================================================================== *)

(** The cleanup pass applied to text that [JSON.parse] rejected. *)
Definition cleaned (jsonSchema : jsstring) : jsstring :=
  trim
    (remove_backslashes
       (replace_escaped 116 []
          (replace_escaped 110 []
             (replace_escaped 93 [93]
                (replace_escaped 91 [91]
                   (replace_escaped DQUOTE [DQUOTE] jsonSchema)))))).

(** The loop over [Object.entries(parsed.properties)]. *)
Fixpoint collect_types (entries : jsobj) (schema : jsobj) : completion jsobj :=
  match entries with
  | [] => Normal schema
  | (key, value) :: rest =>
      if typeof_object value then
        match js_in (u "type") value with
        | Throw e => Throw e
        | Normal true =>
            match js_get (u "type") value with
            | Throw e => Throw e
            | Normal (Some t) => collect_types rest (js_assign key t schema)
            | Normal None => collect_types rest schema
            end
        | Normal false => collect_types rest schema
        end
      else collect_types rest schema
  end.

(** The two parse attempts of the inner [try]/[catch]. *)
Definition parse_schema_text (jsonSchema : jsstring) : option json :=
  match JSON_parse (trim jsonSchema) with
  | Some parsed => Some parsed
  | None => JSON_parse (trim (cleaned jsonSchema))
  end.

(** The body of the outer [try]. *)
Definition extract_body (jsonSchema : jsstring) : completion (option jsobj) :=
  match parse_schema_text jsonSchema with
  | None => Normal None
  | Some parsed =>
      match js_get (u "properties") parsed with
      | Throw e => Throw e
      | Normal None => Normal None
      | Normal (Some properties) =>
          if truthy properties then
            match collect_types (Object_entries properties) [] with
            | Throw e => Throw e
            | Normal schema =>
                Normal (if (0 <? length (Object_keys schema))%nat then Some schema
                        else None)
            end
          else Normal None
      end
  end.

Definition extractSchemaFromJsonSchema (jsonSchema : jsstring)
  : outcome (option jsobj) :=
  match extract_body jsonSchema with
  | Normal r => mkOutcome (Normal r) []
  | Throw error =>
      mkOutcome (Normal None)
        [console_error (u "Error parsing JSON schema:") error]
  end.

(** The loop over [Object.entries(schema)]. *)
Fixpoint build_properties (entries : jsobj) (properties : jsobj) : option jsobj :=
  match entries with
  | [] => Some properties
  | (key, type) :: rest =>
      if negb (str_truthy key) || negb (truthy type) then None
      else build_properties rest
             (js_assign key (JObj [(u "type", type)]) properties)
  end.

Definition generateJsonSchemaFromSchema (schema : option jsobj) : option jsstring :=
  match schema with
  | None => None
  | Some schema =>
      if (length (Object_keys schema) =? 0)%nat then None
      else
        match build_properties schema [] with
        | None => None
        | Some properties =>
            Some (JSON_stringify
                    (JObj [(u "type", JStr (u "object"));
                           (u "required", JArr (map JStr (Object_keys schema)));
                           (u "properties", JObj properties)])
                    2)
        end
  end.

(** The returned value of a call that completed normally. *)
Definition returned {A} (o : outcome (option A)) : option A :=
  match result o with Normal r => r | Throw _ => None end.

(** The two translations, under the names the specification gives them. *)
Definition simplify (jsonSchemaText : jsstring) : option jsobj :=
  returned (extractSchemaFromJsonSchema jsonSchemaText).

Definition expand (m : jsobj) : option jsstring :=
  generateJsonSchemaFromSchema (Some m).

(* ================================================================== *)
(** ** Store types (flowSlice, nodeTypesSlice, modelMetadataSchemas) *)
(* ================================================================== *)

(** Numbers of the configuration are compared and selected, never
    computed with: they are kept as exact rationals. *)
Definition number := Q.
Bind Scope Q_scope with number.

Definition Math_min (a b : number) : number := if Qle_bool a b then a else b.
Definition Math_max (a b : number) : number := if Qle_bool a b then b else a.

(** [x || d] on an optional number: [undefined] and [0] are falsy. *)
Definition number_or (x : option number) (d : number) : number :=
  match x with
  | Some n => if Qeq_bool n 0 then d else n
  | None => d
  end.

(** [x || d] on an optional string: [undefined] and [''] are falsy. *)
Definition string_or (x : option jsstring) (d : jsstring) : jsstring :=
  match x with
  | Some s => if str_truthy s then s else d
  | None => d
  end.

Module ModelConstraints.
Record t : Type := mk {
  min_temperature : number;
  max_temperature : number;
  max_tokens : number;
  supports_JSON_output : bool }.
End ModelConstraints.

Module LlmInfo.
(** [llm_info]: the fields the sidebar reads at a type of their own,
    and the remaining ones. *)
Record t : Type := mk {
  model : option jsstring;
  max_tokens : option number;
  temperature : option number;
  rest : jsobj }.

(** [{ ...llm_info }] of an [llm_info] that may be [undefined]. *)
Definition spread (i : option t) : t :=
  match i with
  | Some i => i
  | None => mk None None None []
  end.
End LlmInfo.

Record FlowWorkflowNodeConfig : Type := mkConfig {
  title : option jsstring;
  output_schema : option jsobj;
  output_json_schema : option jsstring;
  llm_info : option LlmInfo.t;
  other_fields : jsobj }.

Record VisualTag : Type := mkVisualTag { acronym : jsstring; color : jsstring }.

Record FlowWorkflowNodeType : Type := mkNodeType {
  name : jsstring;
  config : FlowWorkflowNodeConfig;
  visual_tag : VisualTag;
  logo : option jsstring;
  category : option jsstring;
  model_constraints : option (list (jsstring * ModelConstraints.t)) }.

(** Node types by category, in the order [for ... in] visits them. *)
Definition FlowWorkflowNodeTypesByCategory : Type :=
  list (jsstring * list FlowWorkflowNodeType).

Record Position : Type := mkPosition { x : number; y : number }.
Record Dimensions : Type := mkDimensions { width : number; height : number }.

Module NodeData.
Record t : Type := mk {
  title : jsstring;
  acronym : jsstring;
  color : jsstring;
  logo : option jsstring;
  category : option jsstring }.
End NodeData.

Module Node.
Record t : Type := mk {
  id : jsstring;
  type : jsstring;
  position : Position;
  measured : option Dimensions;
  parentId : option jsstring;
  expandParent : option bool;
  extent : option jsstring;
  data : NodeData.t;
  width : option number;
  height : option number }.
End Node.
Definition FlowWorkflowNode : Type := Node.t.

Record Edge : Type := mkEdge { source : jsstring; target : jsstring }.

(** The actions the sidebar dispatches to the store. *)
Inductive Action : Type :=
| updateNodeConfigOnly (id : jsstring) (data : FlowWorkflowNodeConfig)
| updateNodeTitle (nodeId : jsstring) (newTitle : jsstring)
| setSelectedNode (nodeId : option jsstring).

Fixpoint assoc {A} (k : jsstring) (l : list (jsstring * A)) : option A :=
  match l with
  | [] => None
  | (k', a) :: r => if str_eqb k' k then Some a else assoc k r
  end.

(* ================================================================== *)
(** ** Node factory (utils/nodeFactory.ts) *)
(* ================================================================== *)

(** The loop of [createNode] over the categories of the registry. *)
Fixpoint find_node_type (nodeTypes : FlowWorkflowNodeTypesByCategory)
    (type : jsstring) : option FlowWorkflowNodeType :=
  match nodeTypes with
  | [] => None
  | (_, types) :: rest =>
      match find (fun node => str_eqb (name node) type) types with
      | Some found => Some found
      | None => find_node_type rest type
      end
  end.

(** Among records a deep copy of a value is that value; which objects
    the copy is made of is the matter of [Heap.cloneDeep] below. *)
Definition cloneDeep {A} (a : A) : A := a.

(** [createNode] (lines 6-53) on records, for a registry whose
    categories all hold arrays. *)

Definition createNode (nodeTypes : FlowWorkflowNodeTypesByCategory)
    (type id : jsstring) (position : Position)
    (parentId : option jsstring) (dimensions : option Dimensions)
  : option (FlowWorkflowNode * FlowWorkflowNodeConfig) :=
  match find_node_type nodeTypes type with
  | None => None
  | Some nodeType =>
      let config0 := cloneDeep (config nodeType) in
      let config1 :=
        mkConfig (Some id) (output_schema config0) (output_json_schema config0)
                 (llm_info config0) (other_fields config0) in
      let has_parent :=
        match parentId with Some p => str_truthy p | None => false end in
      let extent := if has_parent then Some (u "parent") else None in
      let expandParent := if has_parent then Some true else None in
      let node :=
        Node.mk id (name nodeType) position dimensions parentId expandParent extent
          (NodeData.mk id (acronym (visual_tag nodeType)) (color (visual_tag nodeType))
             (logo nodeType) (category nodeType))
          (option_map width dimensions) (option_map height dimensions) in
      Some (node, config1)
  end.

(* ================================================================== *)
(** ** Constraint resolver and upstream schema collector *)
(* ================================================================== *)

Definition findNodeSchema (nodeType : jsstring)
    (nodeTypes : option FlowWorkflowNodeTypesByCategory)
  : option FlowWorkflowNodeType :=
  match nodeTypes with
  | None => None
  | Some nodeTypes => find_node_type nodeTypes nodeType
  end.

(** The constraints a node type declares for a model: the own entry of
    [model_constraints] under that identifier.  (Line 142 reads
    [model_constraints[modelId]], which for an identifier that names a
    property of [Object.prototype], such as [constructor], finds that
    property; such identifiers are left out here.) *)
Definition getModelConstraints (nodeSchema : option FlowWorkflowNodeType)
    (modelId : jsstring) : option ModelConstraints.t :=
  match nodeSchema with
  | None => None
  | Some nodeSchema =>
      match model_constraints nodeSchema with
      | None => None
      | Some constraints => assoc modelId constraints
      end
  end.

Definition collectIncomingSchema (nodes : list FlowWorkflowNode)
    (edges : list Edge) (allNodeConfigs : list (jsstring * FlowWorkflowNodeConfig))
    (nodeID : jsstring) : list jsstring :=
  let incomingEdges := filter (fun edge => str_eqb (target edge) nodeID) edges in
  let incomingNodes :=
    map (fun edge => find (fun n => str_eqb (Node.id n) (source edge)) nodes)
        incomingEdges in
  fold_left
    (fun acc node =>
       match node with
       | None => acc
       | Some node =>
           match assoc (Node.id node) allNodeConfigs with
           | Some config =>
               match output_schema config with
               | Some schema =>
                   let nodeTitle := string_or (title config) (Node.id node) in
                   acc ++ map (fun key => nodeTitle ++ 46 :: key) (Object_keys schema)
               | None => acc
               end
           | None => acc
           end
       end)
    incomingNodes [].

(* ================================================================== *)
(** ** Config synchroniser (the NodeSidebar component) *)
(* ================================================================== *)

(** lodash [debounce(func, wait)] with its default options (no leading
    edge, trailing edge, no [maxWait]), as lodash implements it: a call
    records its arguments and its time and starts the timer unless one
    is running; a timer that expires invokes [func] with the recorded
    arguments if [wait] milliseconds have passed since the last call,
    and otherwise starts anew for the time that remains.  [timerId] is
    the time at which the running timer is due. *)
Module Debounce.
Record t (Args : Type) : Type := mk {
  lastArgs : option Args;
  lastCallTime : option N;
  lastInvokeTime : N;
  timerId : option N }.
Arguments mk {Args} lastArgs lastCallTime lastInvokeTime timerId.
Arguments lastArgs {Args} _.
Arguments lastCallTime {Args} _.
Arguments lastInvokeTime {Args} _.
Arguments timerId {Args} _.

Definition create {Args} : t Args := mk None None 0 None.

Definition shouldInvoke {Args} (wait time : N) (d : t Args) : bool :=
  match lastCallTime d with
  | None => true
  | Some l => (wait <=? time - l) || (time <? l)
  end.

Definition remainingWait {Args} (wait time : N) (d : t Args) : N :=
  match lastCallTime d with
  | Some l => wait - (time - l)
  | None => wait
  end.

(** [invokeFunc]: the arguments [func] is applied to, and the state. *)
Definition invokeFunc {Args} (time : N) (d : t Args) : option Args * t Args :=
  (lastArgs d, mk None (lastCallTime d) time (timerId d)).

Definition leadingEdge {Args} (wait time : N) (d : t Args) : t Args :=
  mk (lastArgs d) (lastCallTime d) time (Some (time + wait)).

Definition trailingEdge {Args} (time : N) (d : t Args) : option Args * t Args :=
  let d1 := mk (lastArgs d) (lastCallTime d) (lastInvokeTime d) None in
  match lastArgs d1 with
  | Some _ => invokeFunc time d1
  | None => (None, d1)
  end.

Definition timerExpired {Args} (wait time : N) (d : t Args) : option Args * t Args :=
  if shouldInvoke wait time d then trailingEdge time d
  else (None, mk (lastArgs d) (lastCallTime d) (lastInvokeTime d)
                (Some (time + remainingWait wait time d))).

(** The debounced function, called with [args] at [time]. *)
Definition debounced {Args} (wait time : N) (args : Args) (d : t Args) : t Args :=
  let isInvoking := shouldInvoke wait time d in
  let d1 := mk (Some args) (Some time) (lastInvokeTime d) (timerId d) in
  match timerId d1 with
  | None =>
      if isInvoking then leadingEdge wait time d1
      else mk (lastArgs d1) (lastCallTime d1) (lastInvokeTime d1) (Some (time + wait))
  | Some _ => d1
  end.
End Debounce.

(** The state of one mounted sidebar and what it has sent out. *)
Record Sidebar : Type := mkSidebar {
  nodeID : jsstring;
  nodeSchema : option FlowWorkflowNodeType;
  currentNodeConfig : FlowWorkflowNodeConfig;
  showTitleError : bool;
  debouncedDispatch : Debounce.t (jsstring * FlowWorkflowNodeConfig);
  clock : N;
  dispatched : list Action;
  logged : list diagnostic }.

(** [useState(false)] for the title alert, no pending timer. *)
Definition mount (nodeID : jsstring) (nodeSchema : option FlowWorkflowNodeType)
    (nodeConfig : FlowWorkflowNodeConfig) (now : N) : Sidebar :=
  mkSidebar nodeID nodeSchema nodeConfig false Debounce.create now [] [].

Definition setCurrentNodeConfig (c : FlowWorkflowNodeConfig) (s : Sidebar) : Sidebar :=
  mkSidebar (nodeID s) (nodeSchema s) c (showTitleError s) (debouncedDispatch s)
    (clock s) (dispatched s) (logged s).

Definition setShowTitleError (b : bool) (s : Sidebar) : Sidebar :=
  mkSidebar (nodeID s) (nodeSchema s) (currentNodeConfig s) b (debouncedDispatch s)
    (clock s) (dispatched s) (logged s).

Definition dispatch (a : Action) (s : Sidebar) : Sidebar :=
  mkSidebar (nodeID s) (nodeSchema s) (currentNodeConfig s) (showTitleError s)
    (debouncedDispatch s) (clock s) (dispatched s ++ [a]) (logged s).

Definition log (ds : list diagnostic) (s : Sidebar) : Sidebar :=
  mkSidebar (nodeID s) (nodeSchema s) (currentNodeConfig s) (showTitleError s)
    (debouncedDispatch s) (clock s) (dispatched s) (logged s ++ ds).

Definition set_debounced (d : Debounce.t (jsstring * FlowWorkflowNodeConfig))
    (s : Sidebar) : Sidebar :=
  mkSidebar (nodeID s) (nodeSchema s) (currentNodeConfig s) (showTitleError s)
    d (clock s) (dispatched s) (logged s).

Definition set_clock (now : N) (s : Sidebar) : Sidebar :=
  mkSidebar (nodeID s) (nodeSchema s) (currentNodeConfig s) (showTitleError s)
    (debouncedDispatch s) now (dispatched s) (logged s).

(** The timer of the debounced dispatch, if it is due by [limit]: its
    callback runs at the time it is due. *)
Definition expire (limit : N) (s : Sidebar) : Sidebar :=
  match Debounce.timerId (debouncedDispatch s) with
  | Some due =>
      if due <=? limit then
        let s1 := set_clock (N.max (clock s) due) s in
        match Debounce.timerExpired 300 (clock s1) (debouncedDispatch s1) with
        | (Some (id, updatedModel), d) =>
            dispatch (updateNodeConfigOnly id updatedModel) (set_debounced d s1)
        | (None, d) => set_debounced d s1
        end
      else s
  | None => s
  end.

(** Time passes: the timers that become due are served in turn (the
    timer can become due at most twice without a call in between, see
    [elapse_serves_timers]) and the clock advances. *)
Definition elapse (ms : N) (s : Sidebar) : Sidebar :=
  let limit := clock s + ms in
  set_clock limit (expire limit (expire limit s)).

(** A field of the configuration together with a value for it: the
    [key] and the [value] handed to [handleInputChange].  The key is a
    property name or a dotted path into [llm_info]; [Other] stands for
    the property names, without a dot, that the record
    [FlowWorkflowNodeConfig] keeps among its [other_fields], and
    [LlmOther] for the names it keeps among the rest of [llm_info];
    a key that names a field the records hold apart, or a longer
    path, has no constructor. *)
Inductive FieldEdit : Type :=
| OutputSchema (value : jsobj)
| OutputJsonSchema (value : jsstring)
| LlmTemperature (value : number)
| LlmMaxTokens (value : number)
| LlmOther (key : jsstring) (value : json)
| Other (key : jsstring) (value : json).

Definition edit_key (e : FieldEdit) : jsstring :=
  match e with
  | OutputSchema _ => u "output_schema"
  | OutputJsonSchema _ => u "output_json_schema"
  | LlmTemperature _ => u "llm_info.temperature"
  | LlmMaxTokens _ => u "llm_info.max_tokens"
  | LlmOther key _ => u "llm_info." ++ key
  | Other key _ => key
  end.

(** The structural update both branches of [handleInputChange] perform:
    [{ ...config, [key]: value }] for a property name, lodash [set] on a
    deep clone for a dotted path. *)
Definition with_llm_info (c : FlowWorkflowNodeConfig) (i : LlmInfo.t)
  : FlowWorkflowNodeConfig :=
  mkConfig (title c) (output_schema c) (output_json_schema c) (Some i) (other_fields c).

Definition assign_field (c : FlowWorkflowNodeConfig) (e : FieldEdit)
  : FlowWorkflowNodeConfig :=
  let i := LlmInfo.spread (llm_info c) in
  match e with
  | OutputSchema value =>
      mkConfig (title c) (Some value) (output_json_schema c) (llm_info c) (other_fields c)
  | OutputJsonSchema value =>
      mkConfig (title c) (output_schema c) (Some value) (llm_info c) (other_fields c)
  | LlmTemperature value =>
      with_llm_info c
        (LlmInfo.mk (LlmInfo.model i) (LlmInfo.max_tokens i) (Some value) (LlmInfo.rest i))
  | LlmMaxTokens value =>
      with_llm_info c
        (LlmInfo.mk (LlmInfo.model i) (Some value) (LlmInfo.temperature i) (LlmInfo.rest i))
  | LlmOther key value =>
      with_llm_info c
        (LlmInfo.mk (LlmInfo.model i) (LlmInfo.max_tokens i) (LlmInfo.temperature i)
           (js_set key value (LlmInfo.rest i)))
  | Other key value =>
      mkConfig (title c) (output_schema c) (output_json_schema c) (llm_info c)
        (js_set key value (other_fields c))
  end.

Definition updateNestedModel (obj : FlowWorkflowNodeConfig) (e : FieldEdit)
  : FlowWorkflowNodeConfig :=
  assign_field (cloneDeep obj) e.

Definition handleInputChange (e : FieldEdit) (isSlider : bool) (s : Sidebar) : Sidebar :=
  let updatedModel :=
    if includes [46] (edit_key e) then updateNestedModel (currentNodeConfig s) e
    else assign_field (currentNodeConfig s) e in
  let s1 := setCurrentNodeConfig updatedModel s in
  if isSlider then
    set_debounced
      (Debounce.debounced 300 (clock s1) (nodeID s1, updatedModel)
         (debouncedDispatch s1)) s1
  else dispatch (updateNodeConfigOnly (nodeID s1) updatedModel) s1.

(** [convertToPythonVariableName] lives in [utils/variableNameUtils],
    outside the sources at hand: the handler takes it as a parameter. *)
Definition handleTitleChangeComplete
    (convertToPythonVariableName : jsstring -> jsstring)
    (value : jsstring) (s : Sidebar) : Sidebar :=
  let validTitle := convertToPythonVariableName value in
  dispatch (updateNodeTitle (nodeID s) validTitle) s.

(** The [onChange] handler of the model selector in [renderEnumSelect]
    (lines 306-335), the specification's [changeModel]. *)
Definition changeModel (selectedModelId : jsstring) (s : Sidebar) : Sidebar :=
  let modelConstraints := getModelConstraints (nodeSchema s) selectedModelId in
  let c := currentNodeConfig s in
  let i := LlmInfo.spread (llm_info c) in
  let updatedModel :=
    with_llm_info c
      match modelConstraints with
      | Some mc =>
          LlmInfo.mk (Some selectedModelId)
            (Some (Math_min
                     (number_or (LlmInfo.max_tokens i) (ModelConstraints.max_tokens mc))
                     (ModelConstraints.max_tokens mc)))
            (Some (Math_min
                     (Math_max
                        (number_or (LlmInfo.temperature i) (7 # 10)%Q)
                        (ModelConstraints.min_temperature mc))
                     (ModelConstraints.max_temperature mc)))
            (LlmInfo.rest i)
      | None =>
          LlmInfo.mk (Some selectedModelId) (LlmInfo.max_tokens i)
            (LlmInfo.temperature i) (LlmInfo.rest i)
      end in
  dispatch (updateNodeConfigOnly (nodeID s) updatedModel)
    (setCurrentNodeConfig updatedModel s).

(** [{ ...config, ...updates }] for the two schema views. *)
Definition with_schemas (c : FlowWorkflowNodeConfig) (json_schema : jsstring)
    (schema : jsobj) : FlowWorkflowNodeConfig :=
  mkConfig (title c) (Some schema) (Some json_schema) (llm_info c) (other_fields c).

(** The [onChange] handler of the JSON-schema editor (lines 576-608),
    the specification's [updateOutputJsonSchema]. *)
Definition updateOutputJsonSchema (value : jsstring) (s : Sidebar) : Sidebar :=
  if negb (str_truthy (trim value)) then
    handleInputChange (OutputJsonSchema value) false s
  else
    let call := extractSchemaFromJsonSchema value in
    let s0 := log (console call) s in
    match result call with
    | Throw _ => s0
    | Normal (Some simpleSchema) =>
        let updated := with_schemas (currentNodeConfig s0) value simpleSchema in
        dispatch (updateNodeConfigOnly (nodeID s0) updated)
          (setCurrentNodeConfig updated s0)
    | Normal None => handleInputChange (OutputJsonSchema value) false s0
    end.

(** The [onChange] handler of the schema editor (lines 493-525), the
    specification's [updateOutputSchema]. *)
Definition updateOutputSchema (newValue : jsobj) (s : Sidebar) : Sidebar :=
  if (length (Object_keys newValue) =? 0)%nat then
    handleInputChange (OutputSchema newValue) false s
  else
    match generateJsonSchemaFromSchema (Some newValue) with
    | Some jsonSchema =>
        let updated := with_schemas (currentNodeConfig s) jsonSchema newValue in
        dispatch (updateNodeConfigOnly (nodeID s) updated)
          (setCurrentNodeConfig updated s)
    | None => handleInputChange (OutputSchema newValue) false s
    end.

(** What can happen to a mounted sidebar. *)
Inductive Event : Type :=
| InputChange (e : FieldEdit) (isSlider : bool)
| TitleChangeComplete (value : jsstring)
| TitleAlertClosed
| ModelSelected (selectedModelId : jsstring)
| OutputSchemaEdited (newValue : jsobj)
| OutputJsonSchemaEdited (value : jsstring)
| CloseClicked
| Elapsed (ms : N).

Section Run.
Variable convertToPythonVariableName : jsstring -> jsstring.

Definition handle (ev : Event) (s : Sidebar) : Sidebar :=
  match ev with
  | InputChange e isSlider => handleInputChange e isSlider s
  | TitleChangeComplete value =>
      handleTitleChangeComplete convertToPythonVariableName value s
  | TitleAlertClosed => setShowTitleError false s
  | ModelSelected selectedModelId => changeModel selectedModelId s
  | OutputSchemaEdited newValue => updateOutputSchema newValue s
  | OutputJsonSchemaEdited value => updateOutputJsonSchema value s
  | CloseClicked => dispatch (setSelectedNode None) s
  | Elapsed ms => elapse ms s
  end.

Definition run (evs : list Event) (s : Sidebar) : Sidebar :=
  fold_left (fun s ev => handle ev s) evs s.
End Run.

(** A drag of a slider: edits of the fields of one node, each made
    [gap] milliseconds after the one before. *)
Fixpoint slider_drag (edits : list (N * FieldEdit)) : list Event :=
  match edits with
  | [] => []
  | (gap, e) :: rest => Elapsed gap :: InputChange e true :: slider_drag rest
  end.

(** The working configuration once all the edits have been applied. *)
Definition apply_edits (c : FlowWorkflowNodeConfig) (edits : list (N * FieldEdit))
  : FlowWorkflowNodeConfig :=
  fold_left (fun c ge => assign_field c (snd ge)) edits c.

(** The value the configuration holds at the field an edit addresses. *)
Definition holds (c : FlowWorkflowNodeConfig) (e : FieldEdit) : Prop :=
  match e with
  | OutputSchema value => output_schema c = Some value
  | OutputJsonSchema value => output_json_schema c = Some value
  | LlmTemperature value =>
      LlmInfo.temperature (LlmInfo.spread (llm_info c)) = Some value
  | LlmMaxTokens value =>
      LlmInfo.max_tokens (LlmInfo.spread (llm_info c)) = Some value
  | LlmOther key value =>
      js_lookup key (LlmInfo.rest (LlmInfo.spread (llm_info c))) = Some value
  | Other key value => js_lookup key (other_fields c) = Some value
  end.

(* ================================================================== *)
(** ** The collector as a listing, and the specification's reading *)
(* ================================================================== *)

(** The fields one incoming edge contributes, as the code yields them:
    those of the committed [output_schema] of its source node in the
    order the object enumerates them, each under the title of the
    source where that is a string that is not empty, and under its id
    otherwise. *)
Definition upstream_fields_of_edge (nodes : list FlowWorkflowNode)
    (configs : list (jsstring * FlowWorkflowNodeConfig)) (edge : Edge)
  : list jsstring :=
  match find (fun n => str_eqb (Node.id n) (source edge)) nodes with
  | None => []
  | Some src =>
      match assoc (Node.id src) configs with
      | None => []
      | Some committed =>
          match output_schema committed with
          | None => []
          | Some schema =>
              let namespace :=
                match title committed with
                | Some t => if str_truthy t then t else Node.id src
                | None => Node.id src
                end in
              map (fun fieldName => namespace ++ u "." ++ fieldName) (map fst schema)
          end
      end
  end.

Definition collectUpstreamFields (nodeId : jsstring) (nodes : list FlowWorkflowNode)
    (edges : list Edge) (configs : list (jsstring * FlowWorkflowNodeConfig))
  : list jsstring :=
  flat_map (upstream_fields_of_edge nodes configs)
    (filter (fun edge => str_eqb (target edge) nodeId) edges).

(** The object a configuration holds for fields written down in a
    given order (in an object literal, or in the JSON text of a
    response): each is defined in turn. *)
Definition declare (fields : list (jsstring * json)) : jsobj :=
  fold_left (fun o kv => js_set (fst kv) (snd kv) o) fields [].

(** A configuration as it was written down: its title, if it has one,
    and the fields of its output schema in the order of their
    declaration; and the configuration the store then holds. *)
Record Declared : Type := mkDeclared {
  declared_title : option jsstring;
  declared_fields : option (list (jsstring * json)) }.

Definition stored_config (d : Declared) : FlowWorkflowNodeConfig :=
  mkConfig (declared_title d) (option_map declare (declared_fields d)) None None [].

Definition stored_configs (declared : list (jsstring * Declared))
  : list (jsstring * FlowWorkflowNodeConfig) :=
  map (fun entry => (fst entry, stored_config (snd entry))) declared.

(** The collector in the words of the specification: the namespace is
    the title of the source if present and its id otherwise, the fields
    come in the order of their declaration. *)
Definition declared_fields_of_edge (nodes : list FlowWorkflowNode)
    (declared : list (jsstring * Declared)) (edge : Edge) : list jsstring :=
  match find (fun n => str_eqb (Node.id n) (source edge)) nodes with
  | None => []
  | Some src =>
      match assoc (Node.id src) declared with
      | None => []
      | Some d =>
          match declared_fields d with
          | None => []
          | Some fields =>
              let namespace :=
                match declared_title d with
                | Some t => t
                | None => Node.id src
                end in
              map (fun fieldName => namespace ++ u "." ++ fieldName) (map fst fields)
          end
      end
  end.

Definition collectUpstreamFields_as_specified (nodeId : jsstring)
    (nodes : list FlowWorkflowNode) (edges : list Edge)
    (declared : list (jsstring * Declared)) : list jsstring :=
  flat_map (declared_fields_of_edge nodes declared)
    (filter (fun edge => str_eqb (target edge) nodeId) edges).

(** Where the two readings agree: the title, if present, is not empty,
    and the declared field names are distinct and none of them is an
    array index. *)
Definition declared_as_enumerated (d : Declared) : Prop :=
  (forall t, declared_title d = Some t -> t <> [])
  /\ (forall fields, declared_fields d = Some fields ->
        NoDup (map fst fields)
        /\ forall k, In k (map fst fields) -> array_index k = None).

(** A parsed document has a property with a [type] entry: it is an
    object whose [properties] list at least one object with a [type]
    member. *)
Definition has_typed_property (parsed : json) : bool :=
  match parsed with
  | JObj o =>
      match js_lookup (u "properties") o with
      | Some properties =>
          existsb
            (fun kv => match snd kv with
                       | JObj p => has_own (u "type") p
                       | _ => false
                       end)
            (Object_entries properties)
      | None => false
      end
  | _ => false
  end.

(* ================================================================== *)
(** ** Well-formed objects and documents *)
(* ================================================================== *)

(** The order in which an object enumerates its own keys: no key
    twice, array indices first and ascending, the other keys after
    them (in the order of their creation). *)
Fixpoint ordered_keys (ks : list jsstring) : bool :=
  match ks with
  | [] => true
  | k :: r =>
      negb (existsb (fun k' => str_eqb k' k) r)
      && forallb (key_before k) r
      && ordered_keys r
  end.

Definition own_property_order (o : jsobj) : bool := ordered_keys (Object_keys o).

(** Values built from strings, booleans, [null], arrays and objects in
    their own property order. *)
Fixpoint plain (v : json) : bool :=
  match v with
  | JNum _ _ => false
  | JArr l => forallb plain l
  | JObj o => own_property_order o && forallb (fun kv => plain (snd kv)) o
  | _ => true
  end.

(** A bound on the fuel the parser uses on the text of a value. *)
Fixpoint size (v : json) : nat :=
  match v with
  | JArr l => S (fold_right (fun x n => S (size x + n)) O l)
  | JObj o => S (fold_right (fun kv n => S (size (snd kv) + n)) O o)
  | _ => 1
  end.

(** The white space SerializeJSONObject puts before a member or a
    closing bracket at indentation [indent]. *)
Definition pad (gap indent : nat) : jsstring :=
  match gap with
  | O => []
  | S _ => NEWLINE :: spaces indent
  end.

(** The JSON-schema document [generateJsonSchemaFromSchema] builds for
    the field names [keys] and the property descriptions [properties]. *)
Definition schema_document (keys : list jsstring) (properties : jsobj) : json :=
  JObj [(u "type", JStr (u "object"));
        (u "required", JArr (map JStr keys));
        (u "properties", JObj properties)].

(** The description [{ type }] of each field of a simple schema. *)
Definition described (m : jsobj) : jsobj :=
  map (fun kv => (fst kv, JObj [(u "type", snd kv)])) m.

(** An opening bracket and the line break after it. *)
Definition NEWLINE_after (opening : code_unit) : jsstring := [opening; NEWLINE].

(** Modelled from the spec: [convertToPythonVariableName] of
    [utils/variableNameUtils], which is not among the sources; the
    specification describes it as the substitution of an underscore for
    each white-space character of the title. *)
Definition underscore_for_whitespace (value : jsstring) : jsstring :=
  map (fun c => if is_js_space c then 95 else c) value.

(* ================================================================== *)
(** ** Sample data *)
(* ================================================================== *)

Definition empty_config : FlowWorkflowNodeConfig := mkConfig None None None None [].

Definition sample_constraints : ModelConstraints.t :=
  ModelConstraints.mk 0 1 4096 true.

Definition sample_node_type : FlowWorkflowNodeType :=
  mkNodeType (u "SingleLLMCallNode") empty_config
    (mkVisualTag (u "LLM") (u "#C7CEEA")) None (Some (u "AI"))
    (Some [(u "gpt-4o", ModelConstraints.mk 0 2 16384 true);
           (u "claude-3-haiku", sample_constraints)]).

Definition sample_registry : FlowWorkflowNodeTypesByCategory :=
  [(u "Input", []); (u "AI", [sample_node_type])].

Definition config_with_llm (max_tokens temperature : option number)
  : FlowWorkflowNodeConfig :=
  mkConfig (Some (u "llm_1")) None None
    (Some (LlmInfo.mk (Some (u "gpt-4o")) max_tokens temperature [])) [].

Definition sample_sidebar (c : FlowWorkflowNodeConfig) : Sidebar :=
  mount (u "llm_1") (Some sample_node_type) c 0.

Definition plain_node (id : jsstring) : FlowWorkflowNode :=
  Node.mk id (u "SingleLLMCallNode") (mkPosition 0 0) None None None None
    (NodeData.mk id (u "LLM") (u "#C7CEEA") None None) None None.

Definition titled_config (t : jsstring) (schema : jsobj) : FlowWorkflowNodeConfig :=
  mkConfig (Some t) (Some schema) None None [].

(** The configuration the handlers commit last, if any. *)
Definition last_commit (s : Sidebar) : option FlowWorkflowNodeConfig :=
  match rev (dispatched s) with
  | updateNodeConfigOnly _ data :: _ => Some data
  | _ => None
  end.

(* ================================================================== *)
(** ** Further parts of the sidebar *)
(* ================================================================== *)

Definition setNodeSchema (schema : option FlowWorkflowNodeType) (s : Sidebar) : Sidebar :=
  mkSidebar (nodeID s) schema (currentNodeConfig s) (showTitleError s)
    (debouncedDispatch s) (clock s) (dispatched s) (logged s).

(** [nodeConfig || {}]. *)
Definition config_or_empty (nodeConfig : option FlowWorkflowNodeConfig)
  : FlowWorkflowNodeConfig :=
  match nodeConfig with
  | Some c => c
  | None => empty_config
  end.

(** The configuration the effect of lines 199-218 seeds the working
    copy with: the committed one, and for the two LLM node types a
    model, [gpt-4o] unless one is set. *)
Definition initialConfig (node : FlowWorkflowNode)
    (nodeConfig : option FlowWorkflowNodeConfig) : FlowWorkflowNodeConfig :=
  let initialConfig := config_or_empty nodeConfig in
  if str_eqb (Node.type node) (u "LLMNode")
     || str_eqb (Node.type node) (u "SingleLLMCallNode")
  then
    let i := LlmInfo.spread (llm_info initialConfig) in
    with_llm_info initialConfig
      (LlmInfo.mk (Some (string_or (LlmInfo.model i) (u "gpt-4o")))
         (LlmInfo.max_tokens i) (LlmInfo.temperature i) (LlmInfo.rest i))
  else initialConfig.

(** The effect itself, run when the node, the node types or the
    committed configuration change.  (The name of the node type, which
    it stores as well, only serves to build the paths of the fields.) *)
Definition selectNode (node : option FlowWorkflowNode)
    (nodeTypes : option FlowWorkflowNodeTypesByCategory)
    (nodeConfig : option FlowWorkflowNodeConfig) (s : Sidebar) : Sidebar :=
  match node with
  | Some node =>
      setCurrentNodeConfig (initialConfig node nodeConfig)
        (setNodeSchema
           (findNodeSchema (string_or (Some (Node.type node)) (u "ExampleNode")) nodeTypes)
           s)
  | None => s
  end.

(** [initializeOutputJsonSchema] (lines 402-422) and the effect that
    calls it once the sidebar is mounted (lines 424-428).  The effect
    belongs to the first rendering: the [nodeConfig] and the
    [currentNodeConfig] it reads are the ones of that rendering, the
    latter being the initial state [nodeConfig || {}]; the update
    [prev => ...] it hands to [setCurrentNodeConfig] applies to the
    working copy as the effects before it have left it. *)
Definition with_output_json_schema (c : FlowWorkflowNodeConfig) (jsonSchema : jsstring)
  : FlowWorkflowNodeConfig :=
  mkConfig (title c) (output_schema c) (Some jsonSchema) (llm_info c) (other_fields c).

Definition initializeOutputJsonSchema
    (nodeConfig rendered : FlowWorkflowNodeConfig) (s : Sidebar) : Sidebar :=
  match generateJsonSchemaFromSchema (output_schema nodeConfig) with
  | Some jsonSchema =>
      if str_truthy jsonSchema then
        dispatch
          (updateNodeConfigOnly (nodeID s) (with_output_json_schema rendered jsonSchema))
          (setCurrentNodeConfig
             (with_output_json_schema (currentNodeConfig s) jsonSchema) s)
      else s
  | None => s
  end.

(** The committed configuration is [undefined] for a node the store
    holds no configuration for: reading its [output_schema] throws. *)
Definition onMount (nodeConfig : option FlowWorkflowNodeConfig) (s : Sidebar)
  : completion Sidebar :=
  let rendered := config_or_empty nodeConfig in
  match nodeConfig with
  | None => Throw TypeError
  | Some nodeConfig =>
      match output_schema nodeConfig with
      | Some _ =>
          if negb (str_truthy (string_or (output_json_schema rendered) []))
          then Normal (initializeOutputJsonSchema nodeConfig rendered s)
          else Normal s
      | None => Normal s
      end
  end.

(** The effects of the first rendering, in the order the component
    declares them: the loading effect, then the one above. *)
Definition mountEffects (node : option FlowWorkflowNode)
    (nodeTypes : option FlowWorkflowNodeTypesByCategory)
    (nodeConfig : option FlowWorkflowNodeConfig) (s : Sidebar)
  : completion Sidebar :=
  onMount nodeConfig (selectNode node nodeTypes nodeConfig s).

(** [config.few_shot_examples || []]: the examples are kept among the
    other fields of the configuration, as an array or [null] (the type
    the store gives the field; no other value is modelled). *)
Definition few_shot_examples (c : FlowWorkflowNodeConfig) : list json :=
  match js_lookup (u "few_shot_examples") (other_fields c) with
  | Some (JArr examples) => examples
  | _ => []
  end.

(** [array.splice(index, 1)] for an index that is not negative. *)
Definition splice1 {A} (index : nat) (l : list A) : list A :=
  firstn index l ++ skipn (S index) l.

Definition empty_example : json :=
  JObj [(u "input", JStr []); (u "output", JStr [])].

(** [handleAddNewExample]: the new state, and the index handed to
    [setFewShotIndex]. *)
Definition handleAddNewExample (s : Sidebar) : Sidebar * nat :=
  let updatedExamples := few_shot_examples (currentNodeConfig s) ++ [empty_example] in
  (handleInputChange (Other (u "few_shot_examples") (JArr updatedExamples)) false s,
   (length updatedExamples - 1)%nat).

Definition handleDeleteExample (index : nat) (s : Sidebar) : Sidebar :=
  let updatedExamples := splice1 index (few_shot_examples (currentNodeConfig s)) in
  handleInputChange (Other (u "few_shot_examples") (JArr updatedExamples)) false s.




(** [s.replace(pattern, by)] for a string pattern: its first occurrence. *)
Fixpoint replaceFirst (pattern by_ s : jsstring) : jsstring :=
  if startsWith pattern s then by_ ++ skipn (length pattern) s
  else match s with
       | [] => []
       | c :: r => c :: replaceFirst pattern by_ r
       end.

(** The grouping of the models by provider in [renderEnumSelect]
    (lines 270-295). *)
Record ModelOption : Type := mkModelOption { option_id : jsstring; option_name : jsstring }.

Record ModelsByProvider : Type := mkModelsByProvider {
  OpenAI : list ModelOption;
  Anthropic : list ModelOption;
  Google : list ModelOption;
  Deepseek : list ModelOption;
  Ollama : list ModelOption }.

Definition push_model (g : ModelsByProvider) (modelId : jsstring) : ModelsByProvider :=
  if startsWith (u "ollama/") modelId then
    mkModelsByProvider (OpenAI g) (Anthropic g) (Google g) (Deepseek g)
      (Ollama g ++ [mkModelOption modelId (replaceFirst (u "ollama/") [] modelId)])
  else if startsWith (u "claude") modelId then
    mkModelsByProvider (OpenAI g) (Anthropic g ++ [mkModelOption modelId modelId])
      (Google g) (Deepseek g) (Ollama g)
  else if startsWith (u "gemini") modelId then
    mkModelsByProvider (OpenAI g) (Anthropic g)
      (Google g ++ [mkModelOption modelId modelId]) (Deepseek g) (Ollama g)
  else if startsWith (u "deepseek") modelId then
    mkModelsByProvider (OpenAI g) (Anthropic g) (Google g)
      (Deepseek g ++ [mkModelOption modelId modelId]) (Ollama g)
  else
    mkModelsByProvider (OpenAI g ++ [mkModelOption modelId modelId]) (Anthropic g)
      (Google g) (Deepseek g) (Ollama g).

Definition modelsByProvider (enumValues : list jsstring) : ModelsByProvider :=
  fold_left push_model enumValues (mkModelsByProvider [] [] [] [] []).

(** The sections of the selector: the providers that have models, in
    the order of the object's keys. *)
Definition provider_sections (g : ModelsByProvider)
  : list (jsstring * list ModelOption) :=
  filter (fun section => (0 <? length (snd section))%nat)
    [(u "OpenAI", OpenAI g); (u "Anthropic", Anthropic g); (u "Google", Google g);
     (u "Deepseek", Deepseek g); (u "Ollama", Ollama g)].

(** The model of the working configuration, where it is a string that
    is not empty. *)
Definition current_model (s : Sidebar) : option jsstring :=
  match LlmInfo.model (LlmInfo.spread (llm_info (currentNodeConfig s))) with
  | Some model => if str_truthy model then Some model else None
  | None => None
  end.

(** Whether [renderField] renders the field [api_base]
    (lines 436-440). *)
Definition shows_api_base (s : Sidebar) : bool :=
  match current_model s with
  | Some modelValue => startsWith (u "ollama/") modelValue
  | None => false
  end.

(** Whether [renderUrlVariableConfig] renders the file input
    (line 964), the variable it shows as selected (line 986) and its
    [onChange] handler (lines 987-990). *)
Definition shows_url_variables (s : Sidebar) : bool :=
  match current_model s with
  | Some model => startsWith (u "gemini") model
  | None => false
  end.

Definition selected_url_variable (c : FlowWorkflowNodeConfig) : json :=
  match js_lookup (u "url_variables") (other_fields c) with
  | Some (JObj url_variables) =>
      match js_lookup (u "file") url_variables with
      | Some file => if truthy file then file else JStr []
      | None => JStr []
      end
  | _ => JStr []
  end.

Definition changeUrlVariable (value : jsstring) (s : Sidebar) : Sidebar :=
  let updatedUrlVars :=
    if str_truthy value then JObj [(u "file", JStr value)] else JObj [] in
  handleInputChange (Other (u "url_variables") updatedUrlVars) false s.

(** The path of a field, [fullPath] in [renderField] (line 432). *)
Definition fullPath (parentPath key : jsstring) : jsstring :=
  (if str_truthy parentPath then parentPath ++ [46] else []) ++ key.

(** [s.endsWith(p)]. *)
Definition endsWith (p s : jsstring) : bool := startsWith (rev p) (rev s).

(** The metadata of a field, as far as the number case of
    [renderField] reads it. *)
Module FieldMetadata.
Record t : Type := mk {
  title : option jsstring;
  type : option jsstring;
  minimum : option number;
  maximum : option number }.
End FieldMetadata.

(** [value < bound] and [value > bound] for a value that may be
    [undefined], for which both are false. *)
Definition below (value : option number) (bound : number) : bool :=
  match value with
  | Some v => negb (Qle_bool bound v)
  | None => false
  end.

Definition above (value : option number) (bound : number) : bool :=
  match value with
  | Some v => negb (Qle_bool v bound)
  | None => false
  end.

(** The constraints of the model the working configuration selects
    (lines 746-747). *)
Definition current_constraints (s : Sidebar) : option ModelConstraints.t :=
  match current_model s with
  | Some currentModel => getModelConstraints (nodeSchema s) currentModel
  | None => None
  end.

(** The bounds of a number field and the value shown for it
    (lines 749-765), for a value that is a number or [undefined]. *)
Definition slider_range (key fullPath : jsstring)
    (fieldMetadata : option FieldMetadata.t)
    (modelConstraints : option ModelConstraints.t) (value : option number)
  : number * number * option number :=
  let min :=
    match fieldMetadata with
    | Some m => match FieldMetadata.minimum m with Some x => x | None => 0%Q end
    | None => 0%Q
    end in
  let max :=
    match fieldMetadata with
    | Some m => match FieldMetadata.maximum m with Some x => x | None => 100%Q end
    | None => 100%Q
    end in
  match modelConstraints with
  | Some mc =>
      if str_eqb key (u "temperature") || endsWith (u ".temperature") fullPath then
        let min := ModelConstraints.min_temperature mc in
        let max := ModelConstraints.max_temperature mc in
        let value := if below value min then Some min else value in
        let value := if above value max then Some max else value in
        (min, max, value)
      else if str_eqb key (u "max_tokens") || endsWith (u ".max_tokens") fullPath then
        let max := ModelConstraints.max_tokens mc in
        (min, max, if above value max then Some max else value)
      else (min, max, value)
  | None => (min, max, value)
  end.

(** [s.split('.')]. *)
Fixpoint split_dot (s : jsstring) : list jsstring :=
  match s with
  | [] => [[]]
  | c :: r =>
      if c =? 46 then [] :: split_dot r
      else match split_dot r with
           | h :: t => (c :: h) :: t
           | [] => [[c]]
           end
  end.

(** [parts.join('.')]. *)
Definition join_dot (parts : list jsstring) : jsstring := join_with [46] parts.

(** [array.slice(-2)]. *)
Definition last_two {A} (l : list A) : list A := skipn (length l - 2) l.

(** The path a slider hands to [handleInputChange] (lines 783-787);
    [None] stands for [undefined]. *)
Definition finalPath (parentPath key : jsstring) : option jsstring :=
  let path := if str_truthy parentPath then parentPath ++ 46 :: key else key in
  let lastTwoDots := last_two (split_dot path) in
  match lastTwoDots with
  | first :: rest =>
      if str_eqb first (u "config") then nth_error lastTwoDots 1
      else Some (join_dot lastTwoDots)
  | [] => Some []
  end.

(** Resizing the sidebar (lines 931-960): the width kept by the
    component, and the widths handed to [setSidebarWidth]. *)
Module Resize.
Record t : Type := mk { width : number; isResizing : bool; stored : list number }.

Definition handleMouseDown (r : t) : t := mk (width r) true (stored r).

Definition handleMouseMove (innerWidth clientX : number) (r : t) : t :=
  if negb (isResizing r) then r
  else
    let newWidth := (innerWidth - clientX)%Q in
    let constrainedWidth := Math_min (Math_max newWidth 300) 800 in
    if Qeq_bool constrainedWidth (width r) then r
    else mk constrainedWidth (isResizing r) (stored r).

Definition handleMouseUp (r : t) : t :=
  if isResizing r then mk (width r) false (stored r ++ [width r]) else r.

Inductive event : Type :=
| MouseDown
| MouseMove (innerWidth clientX : number)
| MouseUp.

Definition handle (ev : event) (r : t) : t :=
  match ev with
  | MouseDown => handleMouseDown r
  | MouseMove innerWidth clientX => handleMouseMove innerWidth clientX r
  | MouseUp => handleMouseUp r
  end.

Definition run (evs : list event) (r : t) : t := fold_left (fun r ev => handle ev r) evs r.
End Resize.

(* ================================================================== *)
(** ** Objects and references: [createNode] once more *)
(* ================================================================== *)

(** What [cloneDeep] does cannot be seen in a value: a copy of an
    object holds what the object holds.  It shows where objects have
    an identity.  Here they live at addresses, a value is a primitive
    or the address of an object, and an object once allocated stays
    where it is. *)
Module Heap.
Definition address := nat.

Inductive value : Type :=
| Null
| Bool (b : bool)
| Num (m e : Z)
| Str (s : jsstring)
| Ref (a : address).

Inductive object : Type :=
| Object (properties : list (jsstring * value))
| Array (elements : list value).

(** The objects there are, each at the address that is its position. *)
Definition t := list object.


(** A new object. *)
Definition alloc (o : object) (h : t) : value * t := (Ref (length h), h ++ [o]).

Fixpoint all {A} (l : list (option A)) : option (list A) :=
  match l with
  | [] => Some []
  | Some x :: r => option_map (cons x) (all r)
  | None :: _ => None
  end.

(** The document a value stands for, given the documents [known] of
    the objects allocated so far; there is none for a reference to an
    object that is not among them. *)
Definition value_in (known : list (option json)) (v : value) : option json :=
  match v with
  | Null => Some JNull
  | Bool b => Some (JBool b)
  | Num m e => Some (JNum m e)
  | Str s => Some (JStr s)
  | Ref a =>
      match nth_error known a with
      | Some document => document
      | None => None
      end
  end.

Definition object_in (known : list (option json)) (o : object) : option json :=
  match o with
  | Object properties =>
      option_map JObj
        (all (map (fun kv => option_map (pair (fst kv)) (value_in known (snd kv)))
                  properties))
  | Array elements => option_map JArr (all (map (value_in known) elements))
  end.

(** What each object holds, address by address.  An object holds a
    document when its members refer to objects allocated before it
    that hold one: data as a parser or literals build it, without
    cycles. *)
Definition contents (h : t) : list (option json) :=
  fold_left (fun known o => known ++ [object_in known o]) h [].

(** What one sees reading a value, where it is such data. *)
Definition read (h : t) (v : value) : option json := value_in (contents h) v.

(** Allocating a document: its parts first, one after the other, then
    the object that holds them. *)
Definition store_each {A B} (store : json -> t -> value * t)
    (part : A -> json) (member : A -> value -> B) (l : list A) (h : t)
  : list B * t :=
  fold_left
    (fun acc x =>
       let stored := store (part x) (snd acc) in
       (fst acc ++ [member x (fst stored)], snd stored))
    l ([], h).

Fixpoint store (j : json) (h : t) : value * t :=
  match j with
  | JNull => (Null, h)
  | JBool b => (Bool b, h)
  | JNum m e => (Num m e, h)
  | JStr s => (Str s, h)
  | JArr l =>
      let stored := store_each store (fun x => x) (fun _ v => v) l h in
      alloc (Array (fst stored)) (snd stored)
  | JObj o =>
      let stored := store_each store snd (fun kx v => (fst kx, v)) o h in
      alloc (Object (fst stored)) (snd stored)
  end.

(** lodash [cloneDeep]: a primitive is returned as it is; an object is
    gone through, and for each object met a new one is allocated that
    holds the copies of its members.  Data with cycles is left out
    ([None]).  Where one object is met twice lodash makes one copy of
    it and this makes two, which reading cannot tell apart. *)
Definition cloneDeep (v : value) (h : t) : option (value * t) :=
  match v with
  | Ref _ => option_map (fun document => store document h) (read h v)
  | _ => Some (v, h)
  end.

(** The own enumerable properties of a value, as a spread reads them. *)
Definition own_properties (h : t) (v : value) : list (jsstring * value) :=
  match v with
  | Ref a =>
      match nth_error h a with
      | Some (Object properties) => properties
      | Some (Array elements) => indexed 0 elements
      | None => []
      end
  | Str s => indexed 0 (map (fun c => Str [c]) s)
  | _ => []
  end.

(** CreateDataProperty on a list of properties: [js_set], for members
    that are values. *)
Fixpoint replace (k : jsstring) (v : value) (ps : list (jsstring * value))
  : list (jsstring * value) :=
  match ps with
  | [] => []
  | (k', v') :: r => if str_eqb k' k then (k', v) :: r else (k', v') :: replace k v r
  end.

Fixpoint insert (k : jsstring) (v : value) (ps : list (jsstring * value))
  : list (jsstring * value) :=
  match ps with
  | [] => [(k, v)]
  | (k', v') :: r => if key_before k' k then (k', v') :: insert k v r else (k, v) :: ps
  end.

Definition define (k : jsstring) (v : value) (ps : list (jsstring * value))
  : list (jsstring * value) :=
  if existsb (fun kv => str_eqb (fst kv) k) ps then replace k v ps else insert k v ps.

End Heap.

(** The registry where its objects have addresses: a node type with
    the fields its type declares and the place of its default
    configuration.  A category may hold [null] in place of the array
    of its node types ([None]): the sidebar's [findNodeSchema] allows
    for it (line 52), and [createNode] calls [find] on whatever the
    category holds. *)
Module InHeap.
Record NodeType : Type := mk {
  name : jsstring;
  config : Heap.value;
  visual_tag : VisualTag;
  logo : option jsstring;
  category : option jsstring;
  model_constraints : option (list (jsstring * ModelConstraints.t)) }.

Definition Registry : Type := list (jsstring * option (list NodeType)).

(** The loop of [createNode] over the categories. *)
Fixpoint find_node_type (nodeTypes : Registry) (type : jsstring)
  : completion (option NodeType) :=
  match nodeTypes with
  | [] => Normal None
  | (_, None) :: _ => Throw TypeError
  | (_, Some types) :: rest =>
      match find (fun node => str_eqb (name node) type) types with
      | Some found => Normal (Some found)
      | None => find_node_type rest type
      end
  end.

(** [createNode] (nodeFactory.ts, lines 6-53): how it completes, and
    the objects there are when it has.  The function is given the
    registry and no handle on the store: it has nothing to dispatch
    to, and what it could change are the objects it is given.  There
    is no result ([None]) where the default configuration is not data
    that [Heap.cloneDeep] covers. *)
Definition createNode (nodeTypes : Registry) (type id : jsstring)
    (position : Position) (parentId : option jsstring)
    (dimensions : option Dimensions) (h : Heap.t)
  : option (completion (option (FlowWorkflowNode * Heap.value)) * Heap.t) :=
  match find_node_type nodeTypes type with
  | Throw e => Some (Throw e, h)
  | Normal None => Some (Normal None, h)
  | Normal (Some nodeType) =>
      match Heap.cloneDeep (config nodeType) h with
      | None => None
      | Some (cloned, h) =>
          let allocated :=
            Heap.alloc
              (Heap.Object
                 (Heap.define (u "title") (Heap.Str id) (Heap.own_properties h cloned)))
              h in
          let has_parent :=
            match parentId with Some p => str_truthy p | None => false end in
          let extent := if has_parent then Some (u "parent") else None in
          let expandParent := if has_parent then Some true else None in
          let node :=
            Node.mk id (name nodeType) position dimensions parentId expandParent extent
              (NodeData.mk id (acronym (visual_tag nodeType)) (color (visual_tag nodeType))
                 (logo nodeType) (category nodeType))
              (option_map width dimensions) (option_map height dimensions) in
          Some (Normal (Some (node, fst allocated)), snd allocated)
      end
  end.

End InHeap.

















(* ================================================================== *)
(** ** Notions used in the proofs *)
(* ================================================================== *)

(** The result of [parse_chars] with one more code unit in front. *)
Definition cons_parsed (c : code_unit) (p : option (jsstring * jsstring))
  : option (jsstring * jsstring) :=
  match p with
  | Some (str, rest) => Some (c :: str, rest)
  | None => None
  end.

(** The text of a value starts with a character that is neither white
    space nor a closing bracket. *)
Definition opens_value (t : jsstring) : Prop :=
  exists c t', t = c :: t' /\ is_json_space c = false
               /\ (c =? 93) = false /\ (c =? 125) = false.

(** What the parser is to make of the text of a value. *)
Definition reads_back (v : json) : Prop :=
  plain v = true ->
  forall gap indent fuel rest, (size v <= fuel)%nat ->
  parse_value fuel (serialize gap indent v ++ rest) = Parsed v rest.

(** The call ended on its own account, and what it left of the input
    is shorter than the input. *)
Definition bounded (res : parse_result json) (s : jsstring) : Prop :=
  res <> OutOfFuel
  /\ forall v r, res = Parsed v r -> (length r < length s)%nat.

(** A sidebar whose last edit came from a slider, at time [l], and
    has not rested for 300 ms since: the debounced dispatch holds the
    working configuration and its timer is running. *)
Definition waiting (l : N) (s : Sidebar) : Prop :=
  Debounce.lastArgs (debouncedDispatch s) = Some (nodeID s, currentNodeConfig s)
  /\ Debounce.lastCallTime (debouncedDispatch s) = Some l
  /\ l <= clock s < l + 300
  /\ exists due, Debounce.timerId (debouncedDispatch s) = Some due
                 /\ clock s < due <= l + 300.

(** A mapping an object can hold as it is, whose names are not empty
    and whose types are strings that are not empty. *)
Definition schema_mapping (m : jsobj) : Prop :=
  m <> [] /\ own_property_order m = true /\ has_own (u "__proto__") m = false
  /\ forall k v, In (k, v) m -> k <> [] /\ exists s, v = JStr s /\ s <> [].

(** A commit of [data] for the node [id] is buffered in the debounced
    dispatch since the call at [l], and its timer has not run out. *)
Definition pending (l : N) (id : jsstring) (data : FlowWorkflowNodeConfig)
    (s : Sidebar) : Prop :=
  Debounce.lastArgs (debouncedDispatch s) = Some (id, data)
  /\ Debounce.lastCallTime (debouncedDispatch s) = Some l
  /\ l <= clock s < l + 300
  /\ exists due, Debounce.timerId (debouncedDispatch s) = Some due
                 /\ clock s < due <= l + 300.


(** The provider a model identifier is listed under, and the entry
    it is listed as. *)
Definition provider_of (modelId : jsstring) : jsstring :=
  if startsWith (u "ollama/") modelId then u "Ollama"
  else if startsWith (u "claude") modelId then u "Anthropic"
  else if startsWith (u "gemini") modelId then u "Google"
  else if startsWith (u "deepseek") modelId then u "Deepseek"
  else u "OpenAI".

Definition listed_as (modelId : jsstring) : ModelOption :=
  mkModelOption modelId
    (if startsWith (u "ollama/") modelId then skipn 7 modelId else modelId).

Definition listed_under (provider : jsstring) (enumValues : list jsstring)
  : list ModelOption :=
  map listed_as (filter (fun modelId => str_eqb (provider_of modelId) provider) enumValues).

(** A string of white space, as [trim] understands it. *)
Definition blank (s : jsstring) : bool := forallb is_js_space s.

(** A string without a backslash. *)
Definition no_backslash (s : jsstring) : bool :=
  forallb (fun c => negb (c =? BACKSLASH)) s.

(** A text in which every double quote has been escaped, as it reads
    inside a string literal that was not decoded. *)
Definition escape_quotes (s : jsstring) : jsstring :=
  flat_map (fun c => if c =? DQUOTE then [BACKSLASH; DQUOTE] else [c]) s.

(** A character [JSON.stringify] writes as it is and on its own, and
    the values whose strings consist of such characters. *)
Definition ordinary (c : code_unit) : bool :=
  (32 <=? c) && negb (c =? DQUOTE) && negb (c =? BACKSLASH)
  && negb (is_high_surrogate c) && negb (is_low_surrogate c).

Fixpoint ordinary_value (v : json) : bool :=
  match v with
  | JNum _ _ => false
  | JStr s => forallb ordinary s
  | JArr l => forallb ordinary_value l
  | JObj o => forallb (fun kv => forallb ordinary (fst kv) && ordinary_value (snd kv)) o
  | _ => true
  end.

(** The edits of a property of the configuration itself that the
    records keep among the other fields or as a schema: the key has no
    dot, so that the code takes the branch [{ ...currentNodeConfig,
    [key]: value }], and is not [title] or [llm_info], whose values
    the records hold apart.  For these [assign_field] is the update
    the code performs whatever the value is.  (A dotted key goes
    through lodash [set], which reads brackets as path steps, leaves
    out the keys [__proto__], [constructor] and [prototype], and takes
    a path for a plain key where the object has a property of that
    name.) *)
Definition own_field_edit (e : FieldEdit) : bool :=
  match e with
  | OutputSchema _ | OutputJsonSchema _ => true
  | Other key _ =>
      negb (includes [46] key)
      && negb (existsb (str_eqb key)
                 [u "title"; u "output_schema"; u "output_json_schema"; u "llm_info"])
  | LlmTemperature _ | LlmMaxTokens _ | LlmOther _ _ => false
  end.

(* ================================================================== *)
(** * Properties *)
(* ================================================================== *)

(** ** Strings and objects *)

Lemma str_eqb_refl (a : jsstring) : str_eqb a a = true.
Proof.
  induction a as [|c a IH]; simpl; [reflexivity|].
  now rewrite N.eqb_refl, IH.
Qed.

Lemma str_eqb_eq (a b : jsstring) : str_eqb a b = true <-> a = b.
Proof.
  split.
  - revert b; induction a as [|c a IH]; destruct b as [|d b]; simpl; try discriminate.
    + reflexivity.
    + intros H. apply andb_true_iff in H as [H1 H2].
      apply N.eqb_eq in H1. f_equal; [assumption | now apply IH].
  - intros ->. apply str_eqb_refl.
Qed.

Lemma str_eqb_neq (a b : jsstring) : str_eqb a b = false <-> a <> b.
Proof.
  rewrite <- str_eqb_eq. destruct (str_eqb a b); split; congruence.
Qed.

Lemma str_eqb_sym (a b : jsstring) : str_eqb a b = str_eqb b a.
Proof.
  destruct (str_eqb a b) eqn:E.
  - apply str_eqb_eq in E. subst. symmetry. apply str_eqb_refl.
  - symmetry. apply str_eqb_neq. apply str_eqb_neq in E. congruence.
Qed.

Lemma has_own_cons k k' v (o : jsobj) :
  has_own k ((k', v) :: o) = str_eqb k' k || has_own k o.
Proof. unfold has_own; simpl. now destruct (str_eqb k' k). Qed.

Lemma js_lookup_insert k v k2 (o : jsobj) :
  has_own k o = false ->
  js_lookup k2 (js_insert k v o) = if str_eqb k k2 then Some v else js_lookup k2 o.
Proof.
  induction o as [|[k' v'] o IH]; simpl; intros Hn.
  - reflexivity.
  - rewrite has_own_cons in Hn. apply orb_false_iff in Hn as [Hk Ho].
    destruct (key_before k' k); simpl.
    + rewrite (IH Ho). destruct (str_eqb k' k2) eqn:E; [|reflexivity].
      apply str_eqb_eq in E. subst k2. now rewrite str_eqb_sym, Hk.
    + reflexivity.
Qed.

Lemma js_lookup_replace k v k2 (o : jsobj) :
  js_lookup k2 (js_replace k v o)
  = if has_own k o && str_eqb k k2 then Some v else js_lookup k2 o.
Proof.
  induction o as [|[k' v'] o IH]; simpl.
  - reflexivity.
  - rewrite has_own_cons. destruct (str_eqb k' k) eqn:E; simpl.
    + apply str_eqb_eq in E. subst k'. now destruct (str_eqb k k2).
    + rewrite IH. destruct (str_eqb k' k2) eqn:E2; [|reflexivity].
      apply str_eqb_eq in E2. subst k2.
      rewrite (str_eqb_sym k k'), E. now rewrite andb_false_r.
Qed.

Lemma js_lookup_set k v k2 (o : jsobj) :
  js_lookup k2 (js_set k v o) = if str_eqb k k2 then Some v else js_lookup k2 o.
Proof.
  unfold js_set. destruct (has_own k o) eqn:E.
  - rewrite js_lookup_replace, E. reflexivity.
  - now apply js_lookup_insert.
Qed.

Lemma js_lookup_set_same k v (o : jsobj) : js_lookup k (js_set k v o) = Some v.
Proof. now rewrite js_lookup_set, str_eqb_refl. Qed.

(** ** Own property order *)

Lemma has_own_keys k (o : jsobj) :
  has_own k o = existsb (fun k' => str_eqb k' k) (Object_keys o).
Proof.
  induction o as [|[k' v] o IH]; [reflexivity|].
  rewrite has_own_cons, IH. reflexivity.
Qed.

Lemma keys_replace k v (o : jsobj) : Object_keys (js_replace k v o) = Object_keys o.
Proof.
  induction o as [|[k' v'] o IH]; [reflexivity|]. simpl.
  destruct (str_eqb k' k); simpl; [reflexivity | now rewrite IH].
Qed.

Lemma array_index_canonical k n : array_index k = Some n -> k = decimal n.
Proof.
  unfold array_index. destruct (forallb is_digit k && str_truthy k); [|discriminate].
  destruct (str_eqb (decimal (digits_value k)) k) eqn:E; [|discriminate].
  destruct (digits_value k <? 4294967295); [|discriminate].
  simpl. intros H. inversion H; subst. symmetry. now apply str_eqb_eq.
Qed.

Lemma key_before_total a b :
  str_eqb a b = false -> key_before a b = false -> key_before b a = true.
Proof.
  unfold key_before. intros Hne.
  destruct (array_index b) as [nb|] eqn:Eb; [|discriminate].
  destruct (array_index a) as [na|] eqn:Ea; [|reflexivity].
  intros H. apply N.ltb_ge in H. apply N.ltb_lt.
  assert (na <> nb).
  { intros ->. apply array_index_canonical in Ea, Eb. subst.
    now rewrite str_eqb_refl in Hne. }
  lia.
Qed.

(** If [k] must come before [k'], it must come before whatever [k'] may
    precede. *)
Lemma key_before_chain k k' k2 :
  key_before k' k = false -> str_eqb k k' = false ->
  key_before k' k2 = true -> key_before k k2 = true.
Proof.
  unfold key_before. intros H Hne H2.
  destruct (array_index k) as [n|] eqn:Ek; [|discriminate].
  destruct (array_index k2) as [n2|] eqn:E2; [|reflexivity].
  destruct (array_index k') as [n'|] eqn:Ek'; [|discriminate].
  apply N.ltb_ge in H. apply N.ltb_lt in H2. apply N.ltb_lt.
  assert (n <> n').
  { intros ->. apply array_index_canonical in Ek, Ek'. subst.
    now rewrite str_eqb_refl in Hne. }
  lia.
Qed.

Lemma keys_insert_In k v (o : jsobj) k2 :
  In k2 (Object_keys (js_insert k v o)) <-> k2 = k \/ In k2 (Object_keys o).
Proof.
  induction o as [|[k' v'] o IH]; simpl.
  - intuition.
  - destruct (key_before k' k); simpl; [rewrite IH|]; intuition.
Qed.

Lemma existsb_key_false k (ks : list jsstring) :
  existsb (fun k' => str_eqb k' k) ks = false <-> ~ In k ks.
Proof.
  split.
  - intros H Hin. assert (E : existsb (fun k' => str_eqb k' k) ks = true).
    { apply existsb_exists. exists k. split; [assumption | apply str_eqb_refl]. }
    congruence.
  - intros H. destruct (existsb _ ks) eqn:E; [|reflexivity].
    apply existsb_exists in E as [k' [Hin Hk]]. apply str_eqb_eq in Hk. now subst.
Qed.

Lemma insert_ordered k v (o : jsobj) :
  own_property_order o = true -> has_own k o = false ->
  own_property_order (js_insert k v o) = true.
Proof.
  unfold own_property_order.
  induction o as [|[k' v'] o IH]; simpl; intros Ho Hn; [reflexivity|].
  rewrite has_own_cons in Hn. apply orb_false_iff in Hn as [Hk Hn].
  apply andb_true_iff in Ho as [Ho Hord]. apply andb_true_iff in Ho as [Hnd Hall].
  apply negb_true_iff in Hnd.
  destruct (key_before k' k) eqn:Ekb; simpl.
  - rewrite (IH Hord Hn), andb_true_r. apply andb_true_iff. split.
    + apply negb_true_iff. apply existsb_key_false. intros Hin.
      apply keys_insert_In in Hin as [-> | Hin].
      * now rewrite str_eqb_refl in Hk.
      * apply existsb_key_false in Hnd. contradiction.
    + apply forallb_forall. intros k2 Hin.
      apply keys_insert_In in Hin as [-> | Hin]; [assumption|].
      rewrite forallb_forall in Hall. now apply Hall.
  - rewrite has_own_keys in Hn.
    assert (Hk' : str_eqb k k' = false) by now rewrite str_eqb_sym.
    rewrite Hk, Hn. simpl.
    rewrite (key_before_total k' k Hk Ekb).
    rewrite Hnd, Hall, Hord. simpl. rewrite andb_true_r.
    apply forallb_forall. intros k2 Hin. rewrite forallb_forall in Hall.
    apply (key_before_chain k k' k2); auto.
Qed.

Lemma set_ordered k v (o : jsobj) :
  own_property_order o = true -> own_property_order (js_set k v o) = true.
Proof.
  intros H. unfold js_set. destruct (has_own k o) eqn:E.
  - unfold own_property_order. now rewrite keys_replace.
  - now apply insert_ordered.
Qed.

Lemma ordered_keys_app_l (a b : list jsstring) :
  ordered_keys (a ++ b) = true -> ordered_keys a = true.
Proof.
  induction a as [|k a IH]; simpl; [reflexivity|]. intros H.
  apply andb_true_iff in H as [H Hord]. apply andb_true_iff in H as [Hnd Hall].
  rewrite (IH Hord), andb_true_r. apply andb_true_iff. split.
  - apply negb_true_iff. apply negb_true_iff in Hnd.
    rewrite existsb_app in Hnd. now apply orb_false_iff in Hnd as [-> _].
  - rewrite forallb_app in Hall. now apply andb_true_iff in Hall as [-> _].
Qed.

Lemma ordered_keys_snoc (ks : list jsstring) k :
  ordered_keys (ks ++ [k]) = true ->
  existsb (fun k' => str_eqb k' k) ks = false
  /\ forallb (fun k' => key_before k' k) ks = true.
Proof.
  induction ks as [|k0 ks IH]; simpl; [now split|]. intros H.
  apply andb_true_iff in H as [H Hord]. apply andb_true_iff in H as [Hnd Hall].
  destruct (IH Hord) as [H1 H2]. rewrite H1, H2.
  apply negb_true_iff in Hnd. rewrite existsb_app in Hnd.
  apply orb_false_iff in Hnd as [_ Hk]. simpl in Hk. rewrite orb_false_r in Hk.
  rewrite forallb_app in Hall. apply andb_true_iff in Hall as [_ Hb].
  simpl in Hb. rewrite andb_true_r in Hb.
  rewrite (str_eqb_sym k0 k), Hk, Hb. now split.
Qed.

Lemma insert_at_end k v (o : jsobj) :
  forallb (fun k' => key_before k' k) (Object_keys o) = true ->
  js_insert k v o = o ++ [(k, v)].
Proof.
  induction o as [|[k' v'] o IH]; simpl; [reflexivity|]. intros H.
  apply andb_true_iff in H as [-> H]. now rewrite (IH H).
Qed.

Lemma set_at_end k v (o : jsobj) :
  own_property_order (o ++ [(k, v)]) = true -> js_set k v o = o ++ [(k, v)].
Proof.
  unfold own_property_order, Object_keys. rewrite map_app. simpl. intros H.
  destruct (ordered_keys_snoc _ _ H) as [H1 H2].
  unfold js_set. rewrite has_own_keys. unfold Object_keys. rewrite H1.
  now apply insert_at_end.
Qed.

(** Defining the properties of an object one by one, in the order the
    object lists them, gives the object back. *)
Lemma define_in_order (o : jsobj) :
  forall acc, own_property_order (acc ++ o) = true ->
  fold_left (fun a kv => js_set (fst kv) (snd kv) a) o acc = acc ++ o.
Proof.
  induction o as [|[k v] o IH]; intros acc H; simpl.
  - now rewrite app_nil_r.
  - assert (E : acc ++ (k, v) :: o = (acc ++ [(k, v)]) ++ o)
      by now rewrite <- app_assoc.
    rewrite E in H. rewrite set_at_end.
    + rewrite (IH _ H). now rewrite <- app_assoc.
    + unfold own_property_order, Object_keys in *. rewrite map_app in H.
      now apply ordered_keys_app_l in H.
Qed.

(** ** String literals *)

Lemma parse_chars_raw c rest :
  (c =? 34) = false -> (c =? 92) = false -> (c <? 32) = false ->
  parse_chars (c :: rest) = cons_parsed c (parse_chars rest).
Proof.
  intros H1 H2 H3. unfold parse_chars at 1; fold parse_chars.
  unfold DQUOTE, BACKSLASH. now rewrite H1, H2, H3.
Qed.

Lemma parse_chars_simple_escape e x rest :
  (e =? 117) = false -> simple_escape e = Some x ->
  parse_chars (92 :: e :: rest) = cons_parsed x (parse_chars rest).
Proof.
  intros H1 H2. unfold parse_chars at 1; fold parse_chars.
  unfold DQUOTE, BACKSLASH. change (92 =? 34) with false. change (92 =? 92) with true.
  cbv iota. now rewrite H1, H2.
Qed.

Lemma hex_value_digit n : n < 16 -> hex_value (hex_digit n) = Some n.
Proof.
  intros H. destruct n as [|p]; [reflexivity|].
  do 4 (destruct p as [p|p|]; try reflexivity); exfalso; lia.
Qed.

Lemma hex4_value_hex4 c :
  c < 65536 ->
  hex4_value (hex_digit ((c / 4096) mod 16)) (hex_digit ((c / 256) mod 16))
             (hex_digit ((c / 16) mod 16)) (hex_digit (c mod 16)) = Some c.
Proof.
  intros H. unfold hex4_value.
  rewrite !hex_value_digit by (apply N.mod_lt; discriminate).
  f_equal.
  pose proof (N.div_mod c 16 ltac:(discriminate)) as E0.
  pose proof (N.div_mod (c / 16) 16 ltac:(discriminate)) as E1.
  pose proof (N.div_mod (c / 16 / 16) 16 ltac:(discriminate)) as E2.
  rewrite N.Div0.div_div in E2. rewrite N.Div0.div_div in E2.
  change (16 * 16) with 256 in E2. change (256 * 16) with 4096 in E2.
  rewrite N.Div0.div_div in E1. change (16 * 16) with 256 in E1.
  assert (S : c / 4096 < 16).
  { apply N.Div0.div_lt_upper_bound. exact H. }
  rewrite (N.mod_small (c / 4096) 16 S) in *. lia.
Qed.

Lemma parse_chars_unicode_escape c rest :
  c < 65536 ->
  parse_chars (unicode_escape c ++ rest) = cons_parsed c (parse_chars rest).
Proof.
  intros H. unfold unicode_escape, hex4.
  change ((BACKSLASH :: 117 :: ?l) ++ rest) with (BACKSLASH :: 117 :: l ++ rest).
  cbn [app]. unfold parse_chars at 1; fold parse_chars.
  unfold DQUOTE, BACKSLASH. change (92 =? 34) with false. change (92 =? 92) with true.
  change (117 =? 117) with true. cbv iota.
  rewrite (hex4_value_hex4 c H). reflexivity.
Qed.

Lemma parse_chars_escape_unit c rest :
  is_high_surrogate c = false -> is_low_surrogate c = false ->
  parse_chars (escape_unit c ++ rest) = cons_parsed c (parse_chars rest).
Proof.
  intros Hh Hl. unfold escape_unit, DQUOTE, BACKSLASH.
  destruct (c =? 8) eqn:E8.
  { apply N.eqb_eq in E8. subst. now apply parse_chars_simple_escape. }
  destruct (c =? 9) eqn:E9.
  { apply N.eqb_eq in E9. subst. now apply parse_chars_simple_escape. }
  destruct (c =? 10) eqn:E10.
  { apply N.eqb_eq in E10. subst. now apply parse_chars_simple_escape. }
  destruct (c =? 12) eqn:E12.
  { apply N.eqb_eq in E12. subst. now apply parse_chars_simple_escape. }
  destruct (c =? 13) eqn:E13.
  { apply N.eqb_eq in E13. subst. now apply parse_chars_simple_escape. }
  destruct (c =? 34) eqn:E34.
  { apply N.eqb_eq in E34. subst. now apply parse_chars_simple_escape. }
  destruct (c =? 92) eqn:E92.
  { apply N.eqb_eq in E92. subst. now apply parse_chars_simple_escape. }
  destruct (c <? 32) eqn:E32.
  { apply N.ltb_lt in E32. apply parse_chars_unicode_escape. lia. }
  now apply parse_chars_raw.
Qed.

Lemma surrogate_raw c :
  is_high_surrogate c = true \/ is_low_surrogate c = true ->
  (c =? 34) = false /\ (c =? 92) = false /\ (c <? 32) = false /\ c < 65536.
Proof.
  unfold is_high_surrogate, is_low_surrogate.
  intros [H | H]; apply andb_true_iff in H as [H1 H2];
    apply N.leb_le in H1, H2;
    (repeat split; [apply N.eqb_neq | apply N.eqb_neq | apply N.ltb_ge | ]; lia).
Qed.

Lemma parse_quote_chars_bounded (n : nat) :
  forall s rest, (length s <= n)%nat ->
  parse_chars (quote_chars s ++ DQUOTE :: rest) = Some (s, rest).
Proof.
  induction n as [|n IH]; intros s rest Hlen.
  - destruct s; [reflexivity | simpl in Hlen; lia].
  - destruct s as [|c r]; [reflexivity|].
    simpl in Hlen. cbn [quote_chars].
    destruct (is_high_surrogate c) eqn:Hh.
    + destruct (surrogate_raw c (or_introl Hh)) as [A [B [C D]]].
      destruct r as [|d r'].
      * rewrite parse_chars_unicode_escape by assumption. reflexivity.
      * destruct (is_low_surrogate d) eqn:Hl.
        -- destruct (surrogate_raw d (or_intror Hl)) as [A' [B' [C' D']]].
           cbn [app]. rewrite parse_chars_raw by assumption.
           rewrite parse_chars_raw by assumption.
           rewrite IH by (simpl in Hlen; lia). reflexivity.
        -- rewrite <- app_assoc.
           rewrite parse_chars_unicode_escape by assumption.
           rewrite IH by lia. reflexivity.
    + destruct (is_low_surrogate c) eqn:Hl.
      * destruct (surrogate_raw c (or_intror Hl)) as [A [B [C D]]].
        rewrite <- app_assoc.
        rewrite parse_chars_unicode_escape by assumption.
        rewrite IH by lia. reflexivity.
      * rewrite <- app_assoc.
        rewrite parse_chars_escape_unit by assumption.
        rewrite IH by lia. reflexivity.
Qed.

(** A string literal written by QuoteJSONString is read back as the
    string it was written from. *)
Lemma parse_quoted (s rest : jsstring) :
  parse_chars (quote_chars s ++ DQUOTE :: rest) = Some (s, rest).
Proof. now apply (parse_quote_chars_bounded (length s)). Qed.

(** ** Reading back what [JSON.stringify] wrote *)

Lemma json_induction (P : json -> Prop) :
  P JNull -> (forall b, P (JBool b)) -> (forall m e, P (JNum m e)) ->
  (forall s, P (JStr s)) ->
  (forall l, Forall P l -> P (JArr l)) ->
  (forall o, Forall (fun kv => P (snd kv)) o -> P (JObj o)) ->
  forall v, P v.
Proof.
  intros Hn Hb Hm Hs Ha Ho. fix IH 1. intros [ | b | m e | s | l | o].
  - exact Hn.
  - apply Hb.
  - apply Hm.
  - apply Hs.
  - apply Ha. induction l as [|x l IHl]; constructor; [apply IH | exact IHl].
  - apply Ho. induction o as [|[k x] o IHo]; constructor; [apply IH | exact IHo].
Qed.

Lemma skip_ws_spaces (n : nat) (s : jsstring) : skip_ws (spaces n ++ s) = skip_ws s.
Proof. induction n as [|n IH]; [reflexivity | exact IH]. Qed.

Lemma skip_ws_pad (gap indent : nat) (s : jsstring) :
  skip_ws (pad gap indent ++ s) = skip_ws s.
Proof.
  destruct gap; [reflexivity|]. unfold pad. cbn [app]. cbn [skip_ws].
  change (is_json_space NEWLINE) with true. cbv iota. apply skip_ws_spaces.
Qed.

Lemma skip_ws_colon (gap : nat) (s : jsstring) :
  skip_ws (colon gap ++ s) = 58 :: match gap with O => s | S _ => SPACE :: s end.
Proof. destruct gap; reflexivity. Qed.

Lemma parse_value_ws (fuel : nat) (s s' : jsstring) :
  skip_ws s = skip_ws s' -> parse_value fuel s = parse_value fuel s'.
Proof. intros H. destruct fuel; [reflexivity|]. simpl. now rewrite H. Qed.

Lemma parse_members_ws (fuel : nat) (acc : jsobj) (s s' : jsstring) :
  skip_ws s = skip_ws s' -> parse_members fuel acc s = parse_members fuel acc s'.
Proof. intros H. destruct fuel; [reflexivity|]. simpl. now rewrite H. Qed.

Lemma parse_elements_ws (fuel : nat) (acc : list json) (s s' : jsstring) :
  skip_ws s = skip_ws s' -> parse_elements fuel acc s = parse_elements fuel acc s'.
Proof.
  intros H. destruct fuel; [reflexivity|]. simpl.
  now rewrite (parse_value_ws fuel s s' H).
Qed.

Lemma skip_ws_idem (s : jsstring) : skip_ws (skip_ws s) = skip_ws s.
Proof.
  induction s as [|c s IH]; [reflexivity|]. simpl.
  destruct (is_json_space c) eqn:E; [exact IH|]. simpl. now rewrite E.
Qed.

Lemma opens_value_skip (t rest : jsstring) :
  opens_value t -> skip_ws (t ++ rest) = t ++ rest.
Proof. intros [c [t' [-> [H _]]]]. simpl. now rewrite H. Qed.

Lemma wrap_opens (opening closing : code_unit) gap indent parts :
  is_json_space opening = false -> (opening =? 93) = false ->
  (opening =? 125) = false ->
  opens_value (wrap opening closing gap indent parts).
Proof.
  intros H1 H2 H3. unfold wrap.
  destruct parts; [|destruct gap]; eexists _, _; (split; [reflexivity|]); now repeat split.
Qed.

Lemma serialize_opens gap indent (v : json) :
  plain v = true -> opens_value (serialize gap indent v).
Proof.
  destruct v as [ | [] | | s | l | o]; intros H; simpl; try discriminate.
  - eexists _, _. split; [reflexivity|]. now repeat split.
  - eexists _, _. split; [reflexivity|]. now repeat split.
  - eexists _, _. split; [reflexivity|]. now repeat split.
  - eexists _, _. split; [reflexivity|]. now repeat split.
  - now apply wrap_opens.
  - now apply wrap_opens.
Qed.

Lemma wrap_pad (opening closing : code_unit) gap indent p ps :
  wrap opening closing gap indent (p :: ps)
  = opening :: pad gap (indent + gap)
      ++ join_with (44 :: pad gap (indent + gap)) (p :: ps)
      ++ pad gap indent ++ [closing].
Proof. destruct gap; reflexivity. Qed.

Lemma join_with_cons sep p q r :
  join_with sep (p :: q :: r) = p ++ sep ++ join_with sep (q :: r).
Proof. reflexivity. Qed.

Lemma parse_elements_step n acc s v r1 :
  parse_value n s = Parsed v r1 ->
  parse_elements (S n) acc s
  = match skip_ws r1 with
    | [] => SyntaxError
    | c :: r2 =>
        if c =? 44 then parse_elements n (acc ++ [v]) r2
        else if c =? 93 then Parsed (JArr (acc ++ [v])) r2
        else SyntaxError
    end.
Proof. intros H. simpl. now rewrite H. Qed.

Lemma parse_members_step n acc s r k r1 r2 v r3 :
  skip_ws s = DQUOTE :: r -> parse_chars r = Some (k, r1) ->
  skip_ws r1 = 58 :: r2 -> parse_value n r2 = Parsed v r3 ->
  parse_members (S n) acc s
  = match skip_ws r3 with
    | [] => SyntaxError
    | c3 :: r4 =>
        if c3 =? 44 then parse_members n (js_set k v acc) r4
        else if c3 =? 125 then Parsed (JObj (js_set k v acc)) r4
        else SyntaxError
    end.
Proof.
  intros H1 H2 H3 H4. simpl. rewrite H1. unfold DQUOTE at 1.
  change (34 =? DQUOTE) with true. cbv iota. rewrite H2, H3.
  change (58 =? 58) with true. cbv iota. now rewrite H4.
Qed.

Lemma parse_value_array n s r c' r' :
  skip_ws s = 91 :: r -> skip_ws r = c' :: r' -> (c' =? 93) = false ->
  parse_value (S n) s = parse_elements n [] r.
Proof.
  intros H1 H2 H3. simpl. rewrite H1.
  change (91 =? 123) with false. change (91 =? 91) with true. cbv iota.
  now rewrite H2, H3.
Qed.

Lemma parse_value_empty_array n s r r' :
  skip_ws s = 91 :: r -> skip_ws r = 93 :: r' ->
  parse_value (S n) s = Parsed (JArr []) r'.
Proof.
  intros H1 H2. simpl. rewrite H1.
  change (91 =? 123) with false. change (91 =? 91) with true. cbv iota.
  now rewrite H2.
Qed.

Lemma parse_value_object n s r c' r' :
  skip_ws s = 123 :: r -> skip_ws r = c' :: r' -> (c' =? 125) = false ->
  parse_value (S n) s = parse_members n [] r.
Proof.
  intros H1 H2 H3. simpl. rewrite H1.
  change (123 =? 123) with true. cbv iota. now rewrite H2, H3.
Qed.

Lemma parse_value_empty_object n s r r' :
  skip_ws s = 123 :: r -> skip_ws r = 125 :: r' ->
  parse_value (S n) s = Parsed (JObj []) r'.
Proof.
  intros H1 H2. simpl. rewrite H1.
  change (123 =? 123) with true. cbv iota. now rewrite H2.
Qed.

Lemma parse_value_string n s r str rest :
  skip_ws s = DQUOTE :: r -> parse_chars r = Some (str, rest) ->
  parse_value (S n) s = Parsed (JStr str) rest.
Proof.
  intros H1 H2. simpl. rewrite H1. unfold DQUOTE at 1 2.
  change (34 =? 123) with false. change (34 =? 91) with false.
  change (34 =? 34) with true. cbv iota. now rewrite H2.
Qed.

Lemma parse_elements_join gap ind ind0 (l : list json) :
  Forall reads_back l -> forallb plain l = true -> l <> [] ->
  forall fuel acc rest,
    (fold_right (fun x n => S (size x + n)) O l <= fuel)%nat ->
    parse_elements fuel acc
      (pad gap ind ++ join_with (44 :: pad gap ind) (map (serialize gap ind) l)
         ++ pad gap ind0 ++ 93 :: rest)
    = Parsed (JArr (acc ++ l)) rest.
Proof.
  induction l as [|v l IHl]; intros HF Hp Hne fuel acc rest Hfuel; [contradiction|].
  inversion HF as [|? ? Hv HFl]; subst.
  simpl in Hp. apply andb_true_iff in Hp as [Hpv Hpl].
  cbn [fold_right] in Hfuel. destruct fuel as [|n]; [lia|].
  destruct l as [|v' l'].
  - cbn [map join_with]. cbn [fold_right] in Hfuel.
    assert (E : parse_value n (pad gap ind ++ serialize gap ind v
                                 ++ pad gap ind0 ++ 93 :: rest)
                = Parsed v (pad gap ind0 ++ 93 :: rest)).
    { rewrite (parse_value_ws n _ (serialize gap ind v ++ pad gap ind0 ++ 93 :: rest))
        by apply skip_ws_pad.
      apply (Hv Hpv). lia. }
    rewrite (parse_elements_step _ _ _ _ _ E), skip_ws_pad. reflexivity.
  - change (map (serialize gap ind) (v :: v' :: l'))
      with (serialize gap ind v :: map (serialize gap ind) (v' :: l')).
    change (map (serialize gap ind) (v' :: l'))
      with (serialize gap ind v' :: map (serialize gap ind) l') in *.
    rewrite join_with_cons.
    set (tail := join_with (44 :: pad gap ind)
                   (serialize gap ind v' :: map (serialize gap ind) l')) in *.
    assert (E : parse_value n
                  (pad gap ind ++ (serialize gap ind v ++ (44 :: pad gap ind) ++ tail)
                     ++ pad gap ind0 ++ 93 :: rest)
                = Parsed v (44 :: pad gap ind ++ tail ++ pad gap ind0 ++ 93 :: rest)).
    { rewrite (parse_value_ws n _
                 (serialize gap ind v
                    ++ 44 :: pad gap ind ++ tail ++ pad gap ind0 ++ 93 :: rest)).
      - apply (Hv Hpv). lia.
      - rewrite skip_ws_pad. f_equal. rewrite <- !app_assoc. reflexivity. }
    rewrite (parse_elements_step _ _ _ _ _ E).
    cbn [skip_ws]. change (is_json_space 44) with false. cbv iota.
    change (44 =? 44) with true. cbv iota.
    rewrite (IHl HFl Hpl ltac:(discriminate) n (acc ++ [v]) rest) by lia.
    now rewrite <- app_assoc.
Qed.

Lemma parse_member gap ind n acc k v (X : jsstring) :
  reads_back v -> plain v = true -> (size v <= n)%nat ->
  parse_members (S n) acc
    (pad gap ind ++ (QuoteJSONString k ++ colon gap ++ serialize gap ind v) ++ X)
  = match skip_ws X with
    | [] => SyntaxError
    | c3 :: r4 =>
        if c3 =? 44 then parse_members n (js_set k v acc) r4
        else if c3 =? 125 then Parsed (JObj (js_set k v acc)) r4
        else SyntaxError
    end.
Proof.
  intros Hv Hp Hn.
  apply (parse_members_step n acc _
           (quote_chars k ++ DQUOTE :: colon gap ++ serialize gap ind v ++ X)
           k (colon gap ++ serialize gap ind v ++ X)
           (match gap with O => serialize gap ind v ++ X
                         | S _ => SPACE :: serialize gap ind v ++ X end)).
  - rewrite skip_ws_pad. unfold QuoteJSONString.
    rewrite <- !app_assoc. cbn [app]. rewrite <- !app_assoc. reflexivity.
  - apply parse_quoted.
  - apply skip_ws_colon.
  - rewrite (parse_value_ws n _ (serialize gap ind v ++ X)).
    + now apply (Hv Hp).
    + destruct gap; reflexivity.
Qed.

Lemma parse_members_join gap ind ind0 (o : jsobj) :
  Forall (fun kv => reads_back (snd kv)) o ->
  forallb (fun kv => plain (snd kv)) o = true -> o <> [] ->
  forall fuel acc rest,
    (fold_right (fun kv n => S (size (snd kv) + n)) O o <= fuel)%nat ->
    parse_members fuel acc
      (pad gap ind
         ++ join_with (44 :: pad gap ind)
              (map (fun kv => QuoteJSONString (fst kv) ++ colon gap
                                ++ serialize gap ind (snd kv)) o)
         ++ pad gap ind0 ++ 125 :: rest)
    = Parsed (JObj (fold_left (fun a kv => js_set (fst kv) (snd kv) a) o acc)) rest.
Proof.
  induction o as [|[k v] o IHo]; intros HF Hp Hne fuel acc rest Hfuel; [contradiction|].
  inversion HF as [|? ? Hv HFo]; subst. cbn [snd] in Hv.
  cbn [forallb snd] in Hp. apply andb_true_iff in Hp as [Hpv Hpo].
  cbn [fold_right snd] in Hfuel. destruct fuel as [|n]; [lia|].
  destruct o as [|kv' o'].
  - cbn [map join_with fst snd fold_left]. cbn [fold_right] in Hfuel.
    rewrite parse_member by (assumption || lia).
    rewrite skip_ws_pad. reflexivity.
  - cbn [map] in *. rewrite join_with_cons. cbn [fst snd].
    rewrite <- !app_assoc.
    rewrite (app_assoc (QuoteJSONString k)), (app_assoc (QuoteJSONString k ++ colon gap)).
    rewrite <- (app_assoc (QuoteJSONString k)).
    rewrite parse_member by (assumption || lia).
    cbn [app skip_ws]. change (is_json_space 44) with false. cbv iota.
    change (44 =? 44) with true. cbv iota.
    assert (Hn : (fold_right (fun kv n => S (size (snd kv) + n)) O (kv' :: o') <= n)%nat)
      by lia.
    exact (IHo HFo Hpo ltac:(discriminate) n (js_set k v acc) rest Hn).
Qed.

Lemma join_with_head sep p ps : exists Z, join_with sep (p :: ps) = p ++ Z.
Proof.
  destruct ps as [|q r].
  - exists []. simpl. now rewrite app_nil_r.
  - eexists. apply join_with_cons.
Qed.

Lemma skip_ws_first_part gap ind sep p ps (Y : jsstring) :
  opens_value p ->
  exists c r, skip_ws (pad gap ind ++ join_with sep (p :: ps) ++ Y) = c :: r
              /\ (c =? 93) = false /\ (c =? 125) = false.
Proof.
  intros [c [t' [-> [Hws [H1 H2]]]]].
  destruct (join_with_head sep (c :: t') ps) as [Z ->].
  rewrite skip_ws_pad. cbn [app skip_ws]. rewrite Hws. now eexists _, _.
Qed.

(** [JSON.parse] reads back every plain value from the text
    [JSON.stringify] wrote for it, whatever the indentation. *)
Theorem parse_serialize : forall v, reads_back v.
Proof.
  apply json_induction; unfold reads_back.
  - intros _ gap indent fuel rest Hf. destruct fuel; [simpl in Hf; lia | reflexivity].
  - intros [] _ gap indent fuel rest Hf; (destruct fuel; [simpl in Hf; lia | reflexivity]).
  - discriminate.
  - intros s _ gap indent fuel rest Hf. destruct fuel; [simpl in Hf; lia|].
    cbn [serialize]. unfold QuoteJSONString. cbn [app]. rewrite <- app_assoc.
    cbn [app].
    eapply parse_value_string; [reflexivity | apply parse_quoted].
  - intros l IH Hp gap indent fuel rest Hf. cbn [plain] in Hp.
    cbn [size] in Hf. destruct fuel as [|n]; [lia|]. cbn [serialize].
    destruct l as [|v l].
    + eapply parse_value_empty_array; reflexivity.
    + cbn [map]. rewrite wrap_pad. cbn [app]. rewrite <- !app_assoc.
      destruct (skip_ws_first_part gap (indent + gap) (44 :: pad gap (indent + gap))
                  (serialize gap (indent + gap) v)
                  (map (serialize gap (indent + gap)) l)
                  (pad gap indent ++ [93] ++ rest)) as [c [r [E [H1 _]]]].
      { apply serialize_opens. cbn [forallb] in Hp.
        now apply andb_true_iff in Hp as [-> _]. }
      erewrite (parse_value_array n _ _ c r); [|reflexivity | exact E | exact H1].
      apply (parse_elements_join gap (indent + gap) indent (v :: l) IH Hp
               ltac:(discriminate) n [] rest).
      lia.
  - intros o IH Hp gap indent fuel rest Hf. cbn [plain] in Hp.
    apply andb_true_iff in Hp as [Hord Hp].
    cbn [size] in Hf. destruct fuel as [|n]; [lia|]. cbn [serialize].
    destruct o as [|[k v] o].
    + eapply parse_value_empty_object; reflexivity.
    + cbn [map]. rewrite wrap_pad. cbn [app]. rewrite <- !app_assoc.
      destruct (skip_ws_first_part gap (indent + gap) (44 :: pad gap (indent + gap))
                  (QuoteJSONString (fst (k, v)) ++ colon gap
                     ++ serialize gap (indent + gap) (snd (k, v)))
                  (map (fun kv => QuoteJSONString (fst kv) ++ colon gap
                                    ++ serialize gap (indent + gap) (snd kv)) o)
                  (pad gap indent ++ [125] ++ rest)) as [c [r [E [_ H2]]]].
      { eexists _, _. split; [reflexivity|]. now repeat split. }
      erewrite (parse_value_object n _ _ c r); [|reflexivity | exact E | exact H2].
      transitivity
        (Parsed (JObj (fold_left (fun a kv => js_set (fst kv) (snd kv) a)
                         ((k, v) :: o) [])) rest).
      * apply (parse_members_join gap (indent + gap) indent ((k, v) :: o) IH Hp
                 ltac:(discriminate) n [] rest).
        lia.
      * f_equal. f_equal. apply (define_in_order ((k, v) :: o) []). exact Hord.
Qed.

Lemma join_with_length sep (parts : list jsstring) :
  (1 <= length sep)%nat ->
  (fold_right (fun q n => S (length q + n)) O parts
   <= S (length (join_with sep parts)))%nat.
Proof.
  intros Hs. induction parts as [|p ps IH]; [simpl; lia|].
  destruct ps as [|q r].
  - simpl. lia.
  - rewrite join_with_cons. cbn [fold_right] in *. rewrite !length_app. lia.
Qed.

Lemma wrap_length opening closing gap indent (parts : list jsstring) :
  (S (fold_right (fun q n => S (length q + n)) O parts)
   <= length (wrap opening closing gap indent parts))%nat.
Proof.
  destruct parts as [|p ps]; [simpl; lia|]. rewrite wrap_pad.
  pose proof (join_with_length (44 :: pad gap (indent + gap)) (p :: ps)
                ltac:(simpl; lia)) as H.
  cbn [length]. rewrite !length_app. cbn [length]. lia.
Qed.

Lemma size_le_length : forall v, plain v = true ->
  forall gap indent, (size v <= length (serialize gap indent v))%nat.
Proof.
  apply (json_induction
           (fun v => plain v = true ->
                     forall gap indent, (size v <= length (serialize gap indent v))%nat)).
  - intros _ gap indent. simpl. lia.
  - intros [] _ gap indent; simpl; lia.
  - discriminate.
  - intros s _ gap indent. simpl. lia.
  - intros l IH Hp gap indent. cbn [plain] in Hp. cbn [size serialize].
    etransitivity; [|apply wrap_length]. apply le_n_S.
    induction l as [|v l IHl]; [simpl; lia|].
    inversion IH as [|? ? Hv Hl]; subst. cbn [forallb] in Hp.
    apply andb_true_iff in Hp as [Hpv Hpl].
    cbn [map fold_right]. specialize (IHl Hl Hpl).
    specialize (Hv Hpv gap (indent + gap)%nat). lia.
  - intros o IH Hp gap indent. cbn [plain] in Hp.
    apply andb_true_iff in Hp as [_ Hp]. cbn [size serialize].
    etransitivity; [|apply wrap_length]. apply le_n_S.
    induction o as [|[k v] o IHo]; [simpl; lia|].
    inversion IH as [|? ? Hv Ho]; subst. cbn [forallb snd] in Hp.
    apply andb_true_iff in Hp as [Hpv Hpo].
    cbn [map fold_right fst snd]. specialize (IHo Ho Hpo).
    cbn [snd] in Hv. specialize (Hv Hpv gap (indent + gap)%nat).
    rewrite !length_app. lia.
Qed.

(** [JSON.parse(JSON.stringify(v, null, space))] is [v], for a plain [v]. *)
Theorem JSON_parse_stringify (v : json) (space : nat) :
  plain v = true -> JSON_parse (JSON_stringify v space) = Some v.
Proof.
  intros Hp. unfold JSON_parse, JSON_stringify.
  set (text := serialize (Nat.min space 10) 0 v).
  assert (E : parse_value (S (length text + length text)) (text ++ []) = Parsed v []).
  { apply (parse_serialize v Hp).
    pose proof (size_le_length v Hp (Nat.min space 10) 0%nat). fold text in H. lia. }
  rewrite app_nil_r in E. now rewrite E.
Qed.

Lemma trim_bracketed (c d : code_unit) (t : jsstring) :
  is_js_space c = false -> is_js_space d = false ->
  trim (c :: t ++ [d]) = c :: t ++ [d].
Proof.
  intros Hc Hd. unfold trim, trimEnd. cbn [trimStart]. rewrite Hc.
  cbn [rev]. rewrite rev_app_distr. cbn [rev app trimStart]. rewrite Hd.
  cbn [rev]. rewrite rev_app_distr, rev_involutive. reflexivity.
Qed.

Lemma trim_object_text gap indent (o : jsobj) :
  trim (serialize gap indent (JObj o)) = serialize gap indent (JObj o).
Proof.
  cbn [serialize]. destruct o as [|kv o]; [reflexivity|].
  cbn [map]. rewrite wrap_pad.
  rewrite !app_assoc. apply trim_bracketed; reflexivity.
Qed.

(** ** The parser never runs out of fuel *)

Lemma skip_ws_length (s : jsstring) : (length (skip_ws s) <= length s)%nat.
Proof.
  induction s as [|c s IH]; [simpl; lia|]. simpl.
  destruct (is_json_space c); simpl; lia.
Qed.

Lemma parse_chars_shorter_bounded (n : nat) :
  forall s str rest, (length s <= n)%nat ->
  parse_chars s = Some (str, rest) -> (length rest < length s)%nat.
Proof.
  induction n as [|n IH]; intros s str rest Hlen H.
  - destruct s; [discriminate | simpl in Hlen; lia].
  - destruct s as [|c r]; [discriminate|]. simpl in Hlen.
    unfold parse_chars in H; fold parse_chars in H.
    destruct (c =? DQUOTE).
    { inversion H; subst. simpl. lia. }
    destruct (c =? BACKSLASH).
    + destruct r as [|e r1]; [discriminate|].
      destruct (e =? 117).
      * destruct r1 as [|h1 [|h2 [|h3 [|h4 r2]]]]; try discriminate.
        destruct (hex4_value h1 h2 h3 h4); [|discriminate].
        destruct (parse_chars r2) as [[str' rest']|] eqn:E; [|discriminate].
        inversion H; subst. apply IH in E; simpl in *; lia.
      * destruct (simple_escape e); [|discriminate].
        destruct (parse_chars r1) as [[str' rest']|] eqn:E; [|discriminate].
        inversion H; subst. apply IH in E; simpl in *; lia.
    + destruct (c <? 32); [discriminate|].
      destruct (parse_chars r) as [[str' rest']|] eqn:E; [|discriminate].
      inversion H; subst. apply IH in E; simpl in *; lia.
Qed.

Lemma parse_chars_shorter s str rest :
  parse_chars s = Some (str, rest) -> (length rest < length s)%nat.
Proof. now apply (parse_chars_shorter_bounded (length s)). Qed.

Lemma span_digits_length (s : jsstring) :
  (length (snd (span_digits s)) <= length s)%nat.
Proof.
  induction s as [|c s IH]; [simpl; lia|]. simpl.
  destruct (is_digit c); [|simpl; lia].
  destruct (span_digits s) as [ds rest]. simpl in *. lia.
Qed.

Lemma parse_fraction_length s fs rest :
  parse_fraction s = Some (fs, rest) -> (length rest <= length s)%nat.
Proof.
  unfold parse_fraction. destruct s as [|c r]; [intros H; inversion H; subst; lia|].
  destruct (c =? 46).
  - pose proof (span_digits_length r) as L. destruct (span_digits r) as [ds rest'].
    destruct (str_truthy ds); [|discriminate].
    intros H; inversion H; subst. simpl in *. lia.
  - intros H; inversion H; subst. lia.
Qed.

Lemma parse_exponent_length s ex rest :
  parse_exponent s = Some (ex, rest) -> (length rest <= length s)%nat.
Proof.
  unfold parse_exponent. destruct s as [|c r]; [intros H; inversion H; subst; lia|].
  destruct ((c =? 101) || (c =? 69)).
  - destruct r as [|d r'].
    + simpl. discriminate.
    + assert (L : forall neg r1,
                 (length r1 <= length (d :: r'))%nat ->
                 (let (es, rest0) := span_digits r1 in
                  if str_truthy es
                  then Some (if neg : bool then (- Z.of_N (digits_value es))%Z
                             else Z.of_N (digits_value es), rest0)
                  else None) = Some (ex, rest) ->
                 (length rest <= length (c :: d :: r'))%nat).
      { intros neg r1 Hr1. pose proof (span_digits_length r1) as L.
        destruct (span_digits r1) as [es rest0].
        destruct (str_truthy es); [|discriminate].
        intros H; inversion H; subst. simpl in *. lia. }
      destruct (d =? 45); [apply (L true r'); simpl; lia|].
      destruct (d =? 43);
        [apply (L false r'); simpl; lia | apply (L false (d :: r')); simpl; lia].
  - intros H; inversion H; subst. lia.
Qed.

Lemma parse_number_tail neg (s1 : jsstring) v rest :
  match s1 with
  | c :: r =>
      if is_digit c then
        let (int_ds, s2) := if c =? 48 then ([c], r) else span_digits s1 in
        match parse_fraction s2 with
        | Some (frac_ds, s3) =>
            match parse_exponent s3 with
            | Some (ex, s4) =>
                let m := Z.of_N (digits_value (int_ds ++ frac_ds)) in
                Some (JNum (if neg : bool then (- m)%Z else m)
                           (ex - Z.of_nat (length frac_ds))%Z, s4)
            | None => None
            end
        | None => None
        end
      else None
  | [] => None
  end = Some (v, rest) ->
  (length rest < length s1)%nat.
Proof.
  destruct s1 as [|c r]; [discriminate|].
  destruct (is_digit c) eqn:D; [|discriminate].
  assert (L : forall int_ds s2,
             (length s2 <= length r)%nat ->
             match parse_fraction s2 with
             | Some (frac_ds, s3) =>
                 match parse_exponent s3 with
                 | Some (ex, s4) =>
                     Some (JNum (if neg then (- Z.of_N (digits_value (int_ds ++ frac_ds)))%Z
                                 else Z.of_N (digits_value (int_ds ++ frac_ds)))
                             (ex - Z.of_nat (length frac_ds))%Z, s4)
                 | None => None
                 end
             | None => None
             end = Some (v, rest) ->
             (length rest < length (c :: r))%nat).
  { intros int_ds s2 Hs2.
    destruct (parse_fraction s2) as [[frac_ds s3]|] eqn:F; [|discriminate].
    destruct (parse_exponent s3) as [[ex s4]|] eqn:E; [|discriminate].
    intros H; inversion H; subst.
    apply parse_fraction_length in F. apply parse_exponent_length in E.
    simpl. lia. }
  destruct (c =? 48).
  - apply L. lia.
  - pose proof (span_digits_length r) as S.
    cbn [span_digits]. rewrite D. destruct (span_digits r) as [ds rest0].
    apply L. exact S.
Qed.

Lemma parse_number_shorter s v rest :
  parse_number s = Some (v, rest) -> (length rest < length s)%nat.
Proof.
  unfold parse_number. destruct s as [|c r]; [discriminate|].
  destruct (c =? 45).
  - intros H. apply (parse_number_tail true r) in H. simpl. lia.
  - intros H. apply (parse_number_tail false (c :: r)) in H. exact H.
Qed.

Lemma startsWith_length (p s : jsstring) :
  startsWith p s = true -> (length p <= length s)%nat.
Proof.
  revert s. induction p as [|x p IH]; intros s H; [simpl; lia|].
  destruct s as [|y s]; [discriminate|]. simpl in H.
  apply andb_true_iff in H as [_ H]. apply IH in H. simpl. lia.
Qed.

Lemma skipn_shorter (n : nat) (p s : jsstring) :
  length p = S n -> startsWith p s = true ->
  (length (skipn (S n) s) < length s)%nat.
Proof.
  intros Hp H. apply startsWith_length in H. rewrite length_skipn. lia.
Qed.

Lemma parse_literal_shorter s v rest :
  parse_literal s = Some (v, rest) -> (length rest < length s)%nat.
Proof.
  unfold parse_literal.
  destruct (startsWith (u "true") s) eqn:T.
  { intros H. assert (E : rest = skipn 4 s) by congruence. rewrite E.
    now apply (skipn_shorter 3 (u "true")). }
  destruct (startsWith (u "false") s) eqn:F.
  { intros H. assert (E : rest = skipn 5 s) by congruence. rewrite E.
    now apply (skipn_shorter 4 (u "false")). }
  destruct (startsWith (u "null") s) eqn:N.
  { intros H. assert (E : rest = skipn 4 s) by congruence. rewrite E.
    now apply (skipn_shorter 3 (u "null")). }
  apply parse_number_shorter.
Qed.

Lemma bounded_error s : bounded SyntaxError s.
Proof. split; [discriminate | intros v r H; discriminate]. Qed.

Lemma bounded_parsed v r s : (length r < length s)%nat -> bounded (Parsed v r) s.
Proof.
  intros H. split; [discriminate|]. intros v' r' E. inversion E; subst. exact H.
Qed.

Lemma bounded_longer res s s' :
  bounded res s -> (length s <= length s')%nat -> bounded res s'.
Proof.
  intros [H1 H2] L. split; [exact H1|]. intros v r E. specialize (H2 v r E). lia.
Qed.

Lemma parser_fuel (fuel : nat) :
  (forall s, (length s + length s + 1 <= fuel)%nat -> bounded (parse_value fuel s) s)
  /\ (forall acc s, (length s + length s + 1 <= fuel)%nat ->
        bounded (parse_members fuel acc s) s)
  /\ (forall acc s, (length s + length s + 2 <= fuel)%nat ->
        bounded (parse_elements fuel acc s) s).
Proof.
  induction fuel as [|n [IHv [IHm IHe]]].
  - repeat split; intros; lia.
  - split; [|split].
    + intros s Hf. cbn [parse_value].
      pose proof (skip_ws_length s) as Ls.
      destruct (skip_ws s) as [|c r]; [apply bounded_error|]. cbn [length] in Ls.
      destruct (c =? 123).
      { pose proof (skip_ws_length r) as Lr.
        destruct (skip_ws r) as [|c' r']; [apply bounded_error|]. cbn [length] in Lr.
        destruct (c' =? 125); [apply bounded_parsed; lia|].
        apply (bounded_longer _ r); [apply IHm|]; lia. }
      destruct (c =? 91).
      { pose proof (skip_ws_length r) as Lr.
        destruct (skip_ws r) as [|c' r']; [apply bounded_error|]. cbn [length] in Lr.
        destruct (c' =? 93); [apply bounded_parsed; lia|].
        apply (bounded_longer _ r); [apply IHe|]; lia. }
      destruct (c =? DQUOTE).
      { destruct (parse_chars r) as [[str rest]|] eqn:E; [|apply bounded_error].
        apply parse_chars_shorter in E. apply bounded_parsed. lia. }
      destruct (parse_literal (c :: r)) as [[v rest]|] eqn:E; [|apply bounded_error].
      apply parse_literal_shorter in E. cbn [length] in E. apply bounded_parsed. lia.
    + intros acc s Hf. cbn [parse_members].
      pose proof (skip_ws_length s) as Ls.
      destruct (skip_ws s) as [|c r]; [apply bounded_error|]. cbn [length] in Ls.
      destruct (c =? DQUOTE); [|apply bounded_error].
      destruct (parse_chars r) as [[k r1]|] eqn:E; [|apply bounded_error].
      apply parse_chars_shorter in E.
      pose proof (skip_ws_length r1) as L1.
      destruct (skip_ws r1) as [|c1 r2]; [apply bounded_error|]. cbn [length] in L1.
      destruct (c1 =? 58); [|apply bounded_error].
      destruct (IHv r2 ltac:(lia)) as [Hoof Hlen].
      destruct (parse_value n r2) as [v r3| |]; [|apply bounded_error|contradiction].
      specialize (Hlen v r3 eq_refl).
      pose proof (skip_ws_length r3) as L3.
      destruct (skip_ws r3) as [|c3 r4]; [apply bounded_error|]. cbn [length] in L3.
      destruct (c3 =? 44).
      { apply (bounded_longer _ r4); [apply IHm|]; lia. }
      destruct (c3 =? 125); [apply bounded_parsed; lia | apply bounded_error].
    + intros acc s Hf. cbn [parse_elements].
      destruct (IHv s ltac:(lia)) as [Hoof Hlen].
      destruct (parse_value n s) as [v r1| |]; [|apply bounded_error|contradiction].
      specialize (Hlen v r1 eq_refl).
      pose proof (skip_ws_length r1) as L1.
      destruct (skip_ws r1) as [|c r2]; [apply bounded_error|]. cbn [length] in L1.
      destruct (c =? 44).
      { apply (bounded_longer _ r2); [apply IHe|]; lia. }
      destruct (c =? 93); [apply bounded_parsed; lia | apply bounded_error].
Qed.

(** The fuel [JSON.parse] starts with is enough for every text: the
    parser accepts or rejects it on its own account. *)
Theorem JSON_parse_fuel (text : jsstring) :
  parse_value (S (length text + length text)) text <> OutOfFuel.
Proof.
  destruct (parser_fuel (S (length text + length text))) as [H _].
  apply (H text). lia.
Qed.

(** ** Schema translator: generation *)

Lemma build_properties_null (entries : jsobj) :
  forall properties k v,
    In (k, v) entries -> k = [] \/ truthy v = false ->
    build_properties entries properties = None.
Proof.
  induction entries as [|[k' v'] entries IH]; intros properties k v Hin Hf; [destruct Hin|].
  simpl. destruct (negb (str_truthy k') || negb (truthy v')) eqn:E; [reflexivity|].
  destruct Hin as [Heq | Hin].
  - inversion Heq; subst. apply orb_false_iff in E as [E1 E2].
    apply negb_false_iff in E1, E2. destruct Hf as [-> | Hf]; simpl in *; congruence.
  - now apply (IH _ k v).
Qed.

Lemma build_properties_some (entries : jsobj) :
  forall properties,
    (forall k v, In (k, v) entries -> k <> [] /\ truthy v = true) ->
    build_properties entries properties
    = Some (fold_left (fun a kv => js_assign (fst kv) (JObj [(u "type", snd kv)]) a)
              entries properties).
Proof.
  induction entries as [|[k v] entries IH]; intros properties H; [reflexivity|].
  simpl. destruct (H k v (or_introl eq_refl)) as [Hk Hv]. rewrite Hv.
  destruct k as [|c k]; [contradiction|]. simpl.
  apply IH. intros k' v' Hin. apply H. now right.
Qed.

Lemma expand_text (m : jsobj) :
  m <> [] ->
  (forall k v, In (k, v) m -> k <> [] /\ truthy v = true) ->
  expand m
  = Some (JSON_stringify
            (schema_document (Object_keys m)
               (fold_left (fun a kv => js_assign (fst kv) (JObj [(u "type", snd kv)]) a)
                  m []))
            2).
Proof.
  intros Hne H. unfold expand, generateJsonSchemaFromSchema.
  destruct m as [|kv m]; [contradiction|].
  change (length (Object_keys (kv :: m)) =? 0)%nat with false. cbv iota.
  now rewrite (build_properties_some _ [] H).
Qed.

Lemma schema_document_layout (keys : list jsstring) (properties : jsobj) :
  keys <> [] ->
  JSON_stringify (schema_document keys properties) 2
  = NEWLINE_after 123 ++ spaces 2
      ++ join_with (44 :: NEWLINE :: spaces 2)
           [dq "'type': 'object'";
            dq "'required': "
              ++ NEWLINE_after 91 ++ spaces 4
              ++ join_with (44 :: NEWLINE :: spaces 4) (map QuoteJSONString keys)
              ++ NEWLINE :: spaces 2 ++ [93];
            dq "'properties': " ++ serialize 2 2 (JObj properties)]
      ++ [NEWLINE; 125].
Proof.
  intros Hne. destruct keys as [|k ks]; [contradiction|].
  unfold JSON_stringify, schema_document.
  change (Nat.min 2 10) with 2%nat. cbn [serialize map fst snd].
  rewrite !wrap_pad. rewrite map_map. reflexivity.
Qed.

(** C8.  [expand] returns null for the empty mapping and for a mapping
    with an empty field name or a falsy (empty) type.  For any other
    mapping it returns the text [JSON.stringify] writes, with an
    indentation of two spaces per level, for a document of type
    [object] whose [required] member lists every field name of the
    mapping: the members of the document start on lines of their own
    two spaces in, the names of the required fields four spaces in. *)
Theorem expand_null_or_schema_document :
  expand [] = None
  /\ (forall m k v, In (k, v) m -> k = [] \/ truthy v = false -> expand m = None)
  /\ (forall m,
        m <> [] ->
        (forall k v, In (k, v) m -> k <> [] /\ truthy v = true) ->
        exists properties,
          expand m = Some (JSON_stringify (schema_document (Object_keys m) properties) 2)
          /\ JSON_stringify (schema_document (Object_keys m) properties) 2
             = NEWLINE_after 123 ++ spaces 2
                 ++ join_with (44 :: NEWLINE :: spaces 2)
                      [dq "'type': 'object'";
                       dq "'required': "
                         ++ NEWLINE_after 91 ++ spaces 4
                         ++ join_with (44 :: NEWLINE :: spaces 4)
                              (map QuoteJSONString (Object_keys m))
                         ++ NEWLINE :: spaces 2 ++ [93];
                       dq "'properties': " ++ serialize 2 2 (JObj properties)]
                 ++ [NEWLINE; 125])
  /\ expand [(u "name", JStr (u "string")); (u "age", JStr (u "number"))]
     = Some (dq "{
  'type': 'object',
  'required': [
    'name',
    'age'
  ],
  'properties': {
    'name': {
      'type': 'string'
    },
    'age': {
      'type': 'number'
    }
  }
}").
Proof.
  split; [reflexivity|]. split; [|split].
  - intros m k v Hin Hf. unfold expand, generateJsonSchemaFromSchema.
    destruct m as [|kv m]; [destruct Hin|].
    change (length (Object_keys (kv :: m)) =? 0)%nat with false. cbv iota.
    now rewrite (build_properties_null (kv :: m) [] k v Hin Hf).
  - intros m Hne H. eexists. split; [now apply expand_text|].
    apply schema_document_layout. destruct m; [contradiction | discriminate].
  - vm_compute. reflexivity.
Qed.

(** ** Schema translator: extraction *)

Lemma collect_types_untyped (entries : jsobj) :
  forall schema,
    existsb (fun kv => match snd kv with
                       | JObj p => has_own (u "type") p
                       | _ => false
                       end) entries = false ->
    collect_types entries schema = Normal schema
    \/ exists e, collect_types entries schema = Throw e.
Proof.
  induction entries as [|[k v] entries IH]; intros schema H; simpl in *.
  - now left.
  - apply orb_false_iff in H as [Hv Hrest].
    destruct v; simpl in *; try (now apply IH).
    + right. now exists TypeError.
    + rewrite Hv. now apply IH.
Qed.

Lemma extract_never_throws (jsonSchema : jsstring) :
  exists r, result (extractSchemaFromJsonSchema jsonSchema) = Normal r.
Proof.
  unfold extractSchemaFromJsonSchema.
  destruct (extract_body jsonSchema) as [r|e]; simpl; eauto.
Qed.

(** C9, as the claim has it, fails at the text [not json]: both parse
    attempts fail and null is returned, but nothing is logged. *)
Lemma simplify_parse_failure_logs_nothing :
  parse_schema_text (u "not json") = None
  /\ result (extractSchemaFromJsonSchema (u "not json")) = Normal None
  /\ ~ (exists d, In d (console (extractSchemaFromJsonSchema (u "not json")))).
Proof.
  assert (E : extractSchemaFromJsonSchema (u "not json") = mkOutcome (Normal None) [])
    by (vm_compute; reflexivity).
  split; [vm_compute; reflexivity|]. rewrite E. split; [reflexivity|].
  intros [d []].
Qed.

(** C9, amended.  For every input string [simplify] completes normally.
    It returns null, and logs nothing, on text that fails both the
    direct parse and the parse after cleanup; it returns null on a
    parsed document that has no property with a [type] entry; and it
    logs a diagnostic exactly when an error thrown after parsing is
    caught, in which case it returns null as well (the document [null]
    is such a case). *)
Theorem simplify_never_throws (jsonSchema : jsstring) :
  (exists r, result (extractSchemaFromJsonSchema jsonSchema) = Normal r)
  /\ (parse_schema_text jsonSchema = None ->
      extractSchemaFromJsonSchema jsonSchema = mkOutcome (Normal None) [])
  /\ (forall parsed,
        parse_schema_text jsonSchema = Some parsed ->
        has_typed_property parsed = false ->
        result (extractSchemaFromJsonSchema jsonSchema) = Normal None)
  /\ (console (extractSchemaFromJsonSchema jsonSchema) = []
        /\ (exists r, extract_body jsonSchema = Normal r)
      \/ console (extractSchemaFromJsonSchema jsonSchema)
           = [console_error (u "Error parsing JSON schema:") TypeError]
        /\ extract_body jsonSchema = Throw TypeError
        /\ result (extractSchemaFromJsonSchema jsonSchema) = Normal None)
  /\ extractSchemaFromJsonSchema (u "null")
     = mkOutcome (Normal None)
         [console_error (u "Error parsing JSON schema:") TypeError].
Proof.
  split; [apply extract_never_throws|].
  split; [|split; [|split]].
  - intros H. unfold extractSchemaFromJsonSchema, extract_body. now rewrite H.
  - intros parsed Hp Ht. unfold extractSchemaFromJsonSchema, extract_body.
    rewrite Hp. destruct parsed; simpl in *; try reflexivity.
    destruct (js_lookup (u "properties") o) as [properties|]; [|reflexivity].
    destruct (truthy properties); [|reflexivity].
    destruct (collect_types_untyped (Object_entries properties) [] Ht) as [E | [e E]];
      rewrite E; reflexivity.
  - unfold extractSchemaFromJsonSchema.
    destruct (extract_body jsonSchema) as [r|[]]; simpl.
    + left. split; [reflexivity | now exists r].
    + right. repeat split; reflexivity.
  - vm_compute. reflexivity.
Qed.

(** ** Schema translator: round trip *)

Lemma js_assign_set k v (o : jsobj) :
  k <> u "__proto__" -> js_assign k v o = js_set k v o.
Proof.
  intros H. unfold js_assign. apply str_eqb_neq in H. now rewrite H.
Qed.

Lemma assign_described (m : jsobj) :
  (forall k v, In (k, v) m -> k <> u "__proto__") ->
  forall acc,
    fold_left (fun a kv => js_assign (fst kv) (JObj [(u "type", snd kv)]) a) m acc
    = fold_left (fun a kv => js_set (fst kv) (snd kv) a) (described m) acc.
Proof.
  induction m as [|[k v] m IH]; intros H acc; [reflexivity|].
  cbn [described map fold_left fst snd].
  rewrite js_assign_set by (apply (H k v); now left).
  apply IH. intros k' v' Hin. apply (H k' v'). now right.
Qed.

Lemma keys_described (m : jsobj) : Object_keys (described m) = Object_keys m.
Proof. unfold described, Object_keys. rewrite map_map. reflexivity. Qed.

Lemma collect_described (m : jsobj) :
  (forall k v, In (k, v) m -> k <> u "__proto__") ->
  forall acc,
    collect_types (described m) acc
    = Normal (fold_left (fun a kv => js_set (fst kv) (snd kv) a) m acc).
Proof.
  induction m as [|[k v] m IH]; intros H acc; [reflexivity|].
  cbn [described map fst snd collect_types typeof_object js_in js_get].
  change (has_own (u "type") [(u "type", v)]) with true.
  change (js_lookup (u "type") [(u "type", v)]) with (Some v). cbv iota.
  rewrite js_assign_set by (apply (H k v); now left).
  apply IH. intros k' v' Hin. apply (H k' v'). now right.
Qed.

Lemma plain_strings (ks : list jsstring) : forallb plain (map JStr ks) = true.
Proof. induction ks as [|k ks IH]; [reflexivity | exact IH]. Qed.

Lemma plain_schema_document (keys : list jsstring) (m : jsobj) :
  own_property_order m = true ->
  (forall k v, In (k, v) m -> exists s, v = JStr s) ->
  plain (schema_document keys (described m)) = true.
Proof.
  intros Hord Hv. unfold schema_document. cbn [plain].
  change (own_property_order
            [(u "type", JStr (u "object"));
             (u "required", JArr (map JStr keys));
             (u "properties", JObj (described m))])
    with true.
  cbn [forallb snd plain andb]. rewrite plain_strings. cbn [andb].
  unfold own_property_order. rewrite keys_described. fold (own_property_order m).
  rewrite Hord. cbn [andb]. rewrite andb_true_r.
  clear Hord. induction m as [|[k v] m IH]; [reflexivity|].
  cbn [described map forallb fst snd].
  destruct (Hv k v (or_introl eq_refl)) as [s ->].
  change (plain (JObj [(u "type", JStr s)])) with true. cbn [andb].
  apply IH. intros k' v' Hin. apply (Hv k' v'). now right.
Qed.

(** C1, as the claim has it, fails for the mapping
    [{'__proto__': 'string'}]: in the document [expand] writes for it
    the [properties] are empty, and [simplify] returns null for that
    text, not the mapping. *)
Lemma round_trip_fails_on_proto_key :
  let m := [(u "__proto__", JStr (u "string"))] in
  expand m = Some (dq "{
  'type': 'object',
  'required': [
    '__proto__'
  ],
  'properties': {}
}")
  /\ (forall text, expand m = Some text -> simplify text = None)
  /\ ~ (exists text, expand m = Some text /\ simplify text = Some m).
Proof.
  intros m.
  assert (E : expand m = Some (dq "{
  'type': 'object',
  'required': [
    '__proto__'
  ],
  'properties': {}
}")) by (vm_compute; reflexivity).
  split; [exact E|]. split.
  - intros text H. rewrite E in H. inversion H; subst. vm_compute. reflexivity.
  - intros [text [H1 H2]]. rewrite E in H1. inversion H1; subst.
    vm_compute in H2. discriminate.
Qed.

Lemma described_replace k v (o : jsobj) :
  described (js_replace k v o) = js_replace k (JObj [(u "type", v)]) (described o).
Proof.
  induction o as [|[k' v'] o IH]; [reflexivity|].
  cbn [described map js_replace fst snd]. destruct (str_eqb k' k); [reflexivity|].
  cbn [map fst snd]. f_equal. exact IH.
Qed.

Lemma described_insert k v (o : jsobj) :
  described (js_insert k v o) = js_insert k (JObj [(u "type", v)]) (described o).
Proof.
  induction o as [|[k' v'] o IH]; [reflexivity|].
  cbn [described map js_insert fst snd]. destruct (key_before k' k); [|reflexivity].
  cbn [map fst snd]. f_equal. exact IH.
Qed.

Lemma described_set k v (o : jsobj) :
  described (js_set k v o) = js_set k (JObj [(u "type", v)]) (described o).
Proof.
  unfold js_set. rewrite (has_own_keys k (described o)), keys_described, <- has_own_keys.
  destruct (has_own k o); [apply described_replace | apply described_insert].
Qed.

Lemma fold_described (m : jsobj) :
  forall acc,
    fold_left (fun a kv => js_set (fst kv) (snd kv) a) (described m) (described acc)
    = described (fold_left (fun a kv => js_set (fst kv) (snd kv) a) m acc).
Proof.
  induction m as [|[k v] m IH]; intros acc; [reflexivity|].
  cbn [described map fold_left fst snd]. rewrite <- described_set. apply IH.
Qed.

Lemma fold_set_ordered (l : jsobj) :
  forall acc, own_property_order acc = true ->
  own_property_order (fold_left (fun a kv => js_set (fst kv) (snd kv) a) l acc) = true.
Proof.
  induction l as [|[k v] l IH]; intros acc H; [exact H|].
  apply IH. now apply set_ordered.
Qed.

Lemma In_replace x k v (o : jsobj) :
  In x (js_replace k v o) -> x = (k, v) \/ In x o.
Proof.
  induction o as [|[k' v'] o IH]; [intros []|]. cbn [js_replace].
  destruct (str_eqb k' k) eqn:E.
  - apply str_eqb_eq in E. subst. intros [<- | H]; [now left | right; now right].
  - intros [<- | H]; [right; now left|]. destruct (IH H) as [-> | H'];
      [now left | right; now right].
Qed.

Lemma In_insert x k v (o : jsobj) :
  In x (js_insert k v o) -> x = (k, v) \/ In x o.
Proof.
  induction o as [|[k' v'] o IH]; [intros [<- | []]; now left|]. cbn [js_insert].
  destruct (key_before k' k).
  - intros [<- | H]; [right; now left|]. destruct (IH H) as [-> | H'];
      [now left | right; now right].
  - intros [<- | H]; [now left | now right].
Qed.

Lemma In_fold_set x (l : jsobj) :
  forall acc,
    In x (fold_left (fun a kv => js_set (fst kv) (snd kv) a) l acc) ->
    In x l \/ In x acc.
Proof.
  induction l as [|[k v] l IH]; intros acc H; [now right|].
  destruct (IH _ H) as [H' | H']; [left; now right|].
  unfold js_set in H'. cbn [fst snd] in H'.
  destruct (has_own k acc);
    [apply In_replace in H' | apply In_insert in H'];
    (destruct H' as [-> | H']; [left; now left | now right]).
Qed.

Lemma js_lookup_absent k (o : jsobj) : ~ In k (Object_keys o) -> js_lookup k o = None.
Proof.
  intros H. apply existsb_key_false in H. rewrite <- has_own_keys in H.
  unfold has_own in H. now destruct (js_lookup k o).
Qed.

Lemma lookup_fold_set k (l : jsobj) :
  NoDup (Object_keys l) ->
  forall acc,
    js_lookup k (fold_left (fun a kv => js_set (fst kv) (snd kv) a) l acc)
    = match js_lookup k l with
      | Some v => Some v
      | None => js_lookup k acc
      end.
Proof.
  induction l as [|[k1 v1] l IH]; intros Hnd acc; [reflexivity|].
  cbn [Object_keys map fst] in Hnd. inversion Hnd as [|? ? Hnotin Hnd']; subst.
  cbn [fold_left fst snd js_lookup]. rewrite (IH Hnd'), js_lookup_set.
  destruct (str_eqb k1 k) eqn:E; [|reflexivity].
  apply str_eqb_eq in E. subst. now rewrite (js_lookup_absent k l Hnotin).
Qed.

(** C1, amended.  For every non-empty mapping [m] (a list of entries
    with distinct field names, in any order) whose field names are
    non-empty strings other than [__proto__] and whose types are
    non-empty strings, [expand] returns a text and [simplify] of that
    text returns a mapping with the same fields and the same types as
    [m]; it is [m] itself when [m] lists its entries in the order an
    object enumerates them. *)
Theorem simplify_expand_round_trip (m : jsobj) :
  m <> [] ->
  NoDup (Object_keys m) ->
  (forall k v, In (k, v) m ->
     k <> [] /\ k <> u "__proto__" /\ exists s, v = JStr s /\ s <> []) ->
  exists text m',
    expand m = Some text /\ simplify text = Some m'
    /\ (forall k, js_lookup k m' = js_lookup k m)
    /\ own_property_order m' = true
    /\ (own_property_order m = true -> m' = m).
Proof.
  intros Hne Hnd H.
  set (m' := fold_left (fun a kv => js_set (fst kv) (snd kv) a) m []).
  assert (Hin : forall k v, In (k, v) m' -> In (k, v) m).
  { intros k v Hi. apply In_fold_set in Hi as [Hi | []]. exact Hi. }
  assert (Hproto : forall k v, In (k, v) m -> k <> u "__proto__")
    by (intros k v Hi; now destruct (H k v Hi) as [_ [? _]]).
  assert (Htruthy : forall k v, In (k, v) m -> k <> [] /\ truthy v = true).
  { intros k v Hi. destruct (H k v Hi) as [Hk [_ [s [-> Hs]]]].
    split; [assumption|]. now destruct s. }
  assert (Hstr : forall k v, In (k, v) m' -> exists s, v = JStr s).
  { intros k v Hi. destruct (H k v (Hin k v Hi)) as [_ [_ [s [-> _]]]]. now exists s. }
  assert (Hord : own_property_order m' = true) by now apply fold_set_ordered.
  assert (Hlook : forall k, js_lookup k m' = js_lookup k m).
  { intros k. unfold m'. rewrite (lookup_fold_set k m Hnd).
    now destruct (js_lookup k m). }
  assert (Hdesc : fold_left
                    (fun a kv => js_assign (fst kv) (JObj [(u "type", snd kv)]) a) m []
                  = described m').
  { rewrite (assign_described m Hproto). apply (fold_described m []). }
  exists (JSON_stringify (schema_document (Object_keys m) (described m')) 2), m'.
  split; [|split; [|split; [exact Hlook | split; [exact Hord|]]]].
  - rewrite (expand_text m Hne Htruthy), Hdesc. reflexivity.
  - unfold simplify, returned, extractSchemaFromJsonSchema, extract_body,
      parse_schema_text.
    assert (Etrim : trim (JSON_stringify (schema_document (Object_keys m) (described m')) 2)
                    = JSON_stringify (schema_document (Object_keys m) (described m')) 2)
      by apply trim_object_text.
    rewrite Etrim.
    rewrite (JSON_parse_stringify _ 2 (plain_schema_document (Object_keys m) m' Hord Hstr)).
    change (js_get (u "properties") (schema_document (Object_keys m) (described m')))
      with (@Normal (option json) (Some (JObj (described m')))).
    cbn [truthy Object_entries].
    rewrite (collect_described m' (fun k v Hi => Hproto k v (Hin k v Hi))).
    rewrite (define_in_order m' [] Hord).
    destruct m' as [|kv r] eqn:E; [|reflexivity].
    destruct m as [|[k v] r]; [contradiction|].
    specialize (Hlook k). cbn [js_lookup] in Hlook.
    rewrite str_eqb_refl in Hlook. discriminate.
  - intros Hm. apply (define_in_order m [] Hm).
Qed.

Lemma simplify_expand_round_trip_witness :
  let m := [(u "foo", JStr (u "string")); (u "10", JStr (u "number"));
            (u "bar", JStr (u "boolean"))] in
  exists text m',
    expand m = Some text /\ simplify text = Some m'
    /\ (forall k, js_lookup k m' = js_lookup k m)
    /\ own_property_order m' = true
    /\ (own_property_order m = true -> m' = m).
Proof.
  intros m. apply (simplify_expand_round_trip m).
  - discriminate.
  - repeat constructor; cbn; intuition discriminate.
  - intros k v [E | [E | [E | []]]]; inversion E; subst;
      (split; [discriminate | split; [discriminate | eexists; split; [reflexivity | discriminate]]]).
Defined.

(** ** Editing the JSON-schema text *)

Lemma simplify_result (value : jsstring) :
  result (extractSchemaFromJsonSchema value) = Normal (simplify value).
Proof.
  unfold simplify, returned, extractSchemaFromJsonSchema.
  now destruct (extract_body value).
Qed.

(** C3.  An edit of the [output_json_schema] text is one commit, of the
    working configuration with [output_json_schema] set to the text as
    it was typed.  When the text is empty (or blank), or when
    [simplify] fails on it, every other field, [output_schema] among
    them, is committed as it was; when [simplify] succeeds,
    [output_schema] is committed as the extracted mapping, in the same
    commit.  For the text [{'properties':{'foo':{'type':'string'}}}]
    the commit holds [output_schema = {foo: 'string'}] and the text. *)
Theorem updateOutputJsonSchema_commits :
  (forall (value : jsstring) (s : Sidebar),
      let c := currentNodeConfig s in
      let extracted := if str_truthy (trim value) then simplify value else None in
      let committed :=
        mkConfig (title c)
          (match extracted with
           | Some schema => Some schema
           | None => output_schema c
           end)
          (Some value) (llm_info c) (other_fields c) in
      dispatched (updateOutputJsonSchema value s)
      = dispatched s ++ [updateNodeConfigOnly (nodeID s) committed]
      /\ currentNodeConfig (updateOutputJsonSchema value s) = committed)
  /\ (let text := dq "{'properties':{'foo':{'type':'string'}}}" in
      simplify text = Some [(u "foo", JStr (u "string"))]
      /\ last_commit
           (updateOutputJsonSchema text
              (sample_sidebar (titled_config (u "llm_1") [(u "bar", JStr (u "number"))])))
         = Some (mkConfig (Some (u "llm_1")) (Some [(u "foo", JStr (u "string"))])
                   (Some text) None [])).
Proof.
  split.
  - intros value s c extracted committed. subst extracted committed.
    unfold updateOutputJsonSchema.
    destruct (str_truthy (trim value)); simpl.
    + rewrite simplify_result.
      destruct (simplify value) as [schema|].
      * split; reflexivity.
      * unfold handleInputChange. simpl. split; reflexivity.
    + unfold handleInputChange. simpl. split; reflexivity.
  - split; vm_compute; reflexivity.
Qed.

(** ** Model change *)

Lemma Math_min_idem (a : number) : Math_min a a = a.
Proof. unfold Math_min. now destruct (Qle_bool a a). Qed.

Lemma Math_min_le_r (a b : number) : (Math_min a b <= b)%Q.
Proof.
  unfold Math_min. destruct (Qle_bool a b) eqn:E.
  - now apply Qle_bool_iff.
  - apply Qle_refl.
Qed.

Lemma Math_max_ge_r (a b : number) : (b <= Math_max a b)%Q.
Proof.
  unfold Math_max. destruct (Qle_bool a b) eqn:E.
  - apply Qle_refl.
  - destruct (Qlt_le_dec b a) as [H|H].
    + now apply Qlt_le_weak.
    + apply Qle_bool_iff in H. congruence.
Qed.

(** A model change is one dispatch, of the configuration that also
    becomes the working one. *)
Lemma changeModel_commits_once (selectedModelId : jsstring) (s : Sidebar) :
  dispatched (changeModel selectedModelId s)
  = dispatched s
      ++ [updateNodeConfigOnly (nodeID s)
            (currentNodeConfig (changeModel selectedModelId s))].
Proof. reflexivity. Qed.

(** With constraints for the new model, the committed [llm_info] names
    the new model, its temperature lies between the bounds of the model
    (when these are in order) and its token limit below the model's. *)
Lemma changeModel_within_constraints (selectedModelId : jsstring) (s : Sidebar)
    (mc : ModelConstraints.t) :
  getModelConstraints (nodeSchema s) selectedModelId = Some mc ->
  (ModelConstraints.min_temperature mc <= ModelConstraints.max_temperature mc)%Q ->
  exists i t k,
    llm_info (currentNodeConfig (changeModel selectedModelId s)) = Some i
    /\ LlmInfo.model i = Some selectedModelId
    /\ LlmInfo.temperature i = Some t
    /\ (ModelConstraints.min_temperature mc <= t <= ModelConstraints.max_temperature mc)%Q
    /\ LlmInfo.max_tokens i = Some k
    /\ (k <= ModelConstraints.max_tokens mc)%Q.
Proof.
  intros Hmc Hord. unfold changeModel. rewrite Hmc. simpl.
  eexists _, _, _. repeat split; try reflexivity.
  - unfold Math_min at 1.
    destruct (Qle_bool _ (ModelConstraints.max_temperature mc)) eqn:E.
    + apply Math_max_ge_r.
    + assumption.
  - apply Math_min_le_r.
  - apply Math_min_le_r.
Qed.

(** A temperature and a token limit that are set, are not zero and fit
    the new model are committed unchanged; an unset temperature is
    committed as 0.7 clamped. *)
Lemma changeModel_keeps_fitting_values (selectedModelId : jsstring) (s : Sidebar)
    (mc : ModelConstraints.t) (i : LlmInfo.t) (t k : number) :
  getModelConstraints (nodeSchema s) selectedModelId = Some mc ->
  llm_info (currentNodeConfig s) = Some i ->
  LlmInfo.temperature i = Some t -> ~ (t == 0)%Q ->
  (ModelConstraints.min_temperature mc <= t <= ModelConstraints.max_temperature mc)%Q ->
  LlmInfo.max_tokens i = Some k -> ~ (k == 0)%Q ->
  (k <= ModelConstraints.max_tokens mc)%Q ->
  exists t' k',
    llm_info (currentNodeConfig (changeModel selectedModelId s))
    = Some (LlmInfo.mk (Some selectedModelId) (Some k') (Some t') (LlmInfo.rest i))
    /\ (t' == t)%Q /\ (k' == k)%Q.
Proof.
  intros Hmc Hi Ht Ht0 [Hlo Hhi] Hk Hk0 Hkle.
  unfold changeModel. rewrite Hmc, Hi. simpl. rewrite Ht, Hk. simpl.
  assert (Et : Qeq_bool t 0 = false).
  { destruct (Qeq_bool t 0) eqn:E; [|reflexivity]. apply Qeq_bool_iff in E. contradiction. }
  assert (Ek : Qeq_bool k 0 = false).
  { destruct (Qeq_bool k 0) eqn:E; [|reflexivity]. apply Qeq_bool_iff in E. contradiction. }
  rewrite Et, Ek. eexists _, _. split; [reflexivity|]. split.
  - unfold Math_min, Math_max.
    destruct (Qle_bool t (ModelConstraints.min_temperature mc)) eqn:E1.
    + apply Qle_bool_iff in E1.
      assert (E2 : Qle_bool (ModelConstraints.min_temperature mc)
                     (ModelConstraints.max_temperature mc) = true).
      { apply Qle_bool_iff. eapply Qle_trans; eassumption. }
      rewrite E2. now apply Qle_antisym.
    + assert (E2 : Qle_bool t (ModelConstraints.max_temperature mc) = true)
        by now apply Qle_bool_iff.
      rewrite E2. reflexivity.
  - unfold Math_min.
    assert (E : Qle_bool k (ModelConstraints.max_tokens mc) = true)
      by now apply Qle_bool_iff.
    rewrite E. reflexivity.
Qed.

(** The values a model change commits: the token limit and the
    temperature of the working configuration, clamped, where a value
    that is unset or zero is first replaced by the token limit of the
    model and by 0.7. *)
Lemma changeModel_clamps (selectedModelId : jsstring) (s : Sidebar)
    (mc : ModelConstraints.t) :
  getModelConstraints (nodeSchema s) selectedModelId = Some mc ->
  let i := LlmInfo.spread (llm_info (currentNodeConfig s)) in
  llm_info (currentNodeConfig (changeModel selectedModelId s))
  = Some (LlmInfo.mk (Some selectedModelId)
            (Some (Math_min
                     (match LlmInfo.max_tokens i with
                      | Some k => if Qeq_bool k 0 then ModelConstraints.max_tokens mc else k
                      | None => ModelConstraints.max_tokens mc
                      end)
                     (ModelConstraints.max_tokens mc)))
            (Some (Math_min
                     (Math_max
                        (match LlmInfo.temperature i with
                         | Some t => if Qeq_bool t 0 then (7 # 10)%Q else t
                         | None => (7 # 10)%Q
                         end)
                        (ModelConstraints.min_temperature mc))
                     (ModelConstraints.max_temperature mc)))
            (LlmInfo.rest i)).
Proof. intros Hmc. unfold changeModel. now rewrite Hmc. Qed.

(** C2, at the input where the code leaves the claim.  The working
    configuration holds temperature 0 and max_tokens 8000; the model
    selected allows temperatures from 0 to 1 and 4096 tokens.  The
    token limit is committed as 4096, as the claim says, but the
    temperature, which lies within the bounds and which a clamp would
    leave at 0, is committed as 0.7: [0 || 0.7] takes the set value 0
    for an unset one.  (With the temperature unset the commit holds
    0.7, again as the claim says.) *)
Theorem changeModel_resets_temperature_zero :
  let mc := sample_constraints in
  let zero := sample_sidebar (config_with_llm (Some 8000%Q) (Some 0%Q)) in
  let unset := sample_sidebar (config_with_llm (Some 8000%Q) None) in
  getModelConstraints (nodeSchema zero) (u "claude-3-haiku") = Some mc
  /\ ModelConstraints.min_temperature mc = 0%Q
  /\ ModelConstraints.max_temperature mc = 1%Q
  /\ ModelConstraints.max_tokens mc = 4096%Q
  /\ last_commit (changeModel (u "claude-3-haiku") zero)
     = Some (mkConfig (Some (u "llm_1")) None None
               (Some (LlmInfo.mk (Some (u "claude-3-haiku"))
                        (Some 4096%Q) (Some (7 # 10)%Q) [])) [])
  /\ last_commit (changeModel (u "claude-3-haiku") unset)
     = Some (mkConfig (Some (u "llm_1")) None None
               (Some (LlmInfo.mk (Some (u "claude-3-haiku"))
                        (Some 4096%Q) (Some (7 # 10)%Q) [])) []).
Proof. repeat split. Qed.

(** C10.  On a change to a model with declared constraints, a
    temperature that is set to exactly 0 is treated like an unset one:
    the committed temperature is 0.7 clamped into the range of the new
    model; and a token limit that is 0 or unset is committed as the
    token limit of the model. *)
Theorem changeModel_falsy_is_unset (selectedModelId : jsstring) (s : Sidebar)
    (mc : ModelConstraints.t) :
  getModelConstraints (nodeSchema s) selectedModelId = Some mc ->
  let i := LlmInfo.spread (llm_info (currentNodeConfig s)) in
  let committed := currentNodeConfig (changeModel selectedModelId s) in
  dispatched (changeModel selectedModelId s)
  = dispatched s ++ [updateNodeConfigOnly (nodeID s) committed]
  /\ (forall t, LlmInfo.temperature i = Some t -> (t == 0)%Q ->
        option_map LlmInfo.temperature (llm_info committed)
        = Some (Some (Math_min
                        (Math_max (7 # 10)%Q (ModelConstraints.min_temperature mc))
                        (ModelConstraints.max_temperature mc))))
  /\ ((LlmInfo.max_tokens i = None
       \/ exists k, LlmInfo.max_tokens i = Some k /\ (k == 0)%Q) ->
      option_map LlmInfo.max_tokens (llm_info committed)
      = Some (Some (ModelConstraints.max_tokens mc))).
Proof.
  intros Hmc i committed. split; [reflexivity|].
  subst committed. unfold changeModel. rewrite Hmc. simpl. fold i. split.
  - intros t Ht H0. rewrite Ht. simpl.
    apply Qeq_bool_iff in H0. now rewrite H0.
  - intros [Hn | [k [Hk H0]]].
    + rewrite Hn. simpl. now rewrite Math_min_idem.
    + rewrite Hk. simpl. apply Qeq_bool_iff in H0. rewrite H0.
      now rewrite Math_min_idem.
Qed.

Lemma changeModel_falsy_is_unset_witness :
  let s := sample_sidebar (config_with_llm (Some 0%Q) (Some 0%Q)) in
  getModelConstraints (nodeSchema s) (u "claude-3-haiku") = Some sample_constraints
  /\ option_map LlmInfo.temperature
       (llm_info (currentNodeConfig (changeModel (u "claude-3-haiku") s)))
     = Some (Some (7 # 10)%Q)
  /\ option_map LlmInfo.max_tokens
       (llm_info (currentNodeConfig (changeModel (u "claude-3-haiku") s)))
     = Some (Some 4096%Q).
Proof.
  intros s.
  assert (H : getModelConstraints (nodeSchema s) (u "claude-3-haiku")
              = Some sample_constraints) by reflexivity.
  split; [exact H|].
  destruct (changeModel_falsy_is_unset (u "claude-3-haiku") s sample_constraints H)
    as [_ [Ht Hk]].
  split.
  - apply (Ht 0%Q); reflexivity.
  - apply Hk. right. exists 0%Q. split; reflexivity.
Defined.

(** ** Upstream schema collector *)

Lemma string_or_namespace (t : option jsstring) (id : jsstring) :
  string_or t id
  = match t with Some t => if str_truthy t then t else id | None => id end.
Proof. reflexivity. Qed.

Lemma collect_fold (nodes : list FlowWorkflowNode)
    (configs : list (jsstring * FlowWorkflowNodeConfig)) (es : list Edge)
    (acc : list jsstring) :
  fold_left
    (fun acc node =>
       match node with
       | None => acc
       | Some node =>
           match assoc (Node.id node) configs with
           | Some config =>
               match output_schema config with
               | Some schema =>
                   let nodeTitle := string_or (title config) (Node.id node) in
                   acc ++ map (fun key => nodeTitle ++ 46 :: key) (Object_keys schema)
               | None => acc
               end
           | None => acc
           end
       end)
    (map (fun edge => find (fun n => str_eqb (Node.id n) (source edge)) nodes) es)
    acc
  = acc ++ flat_map (upstream_fields_of_edge nodes configs) es.
Proof.
  revert acc. induction es as [|e es IH]; intros acc; simpl.
  - now rewrite app_nil_r.
  - rewrite IH. unfold upstream_fields_of_edge at 2.
    destruct (find (fun n => str_eqb (Node.id n) (source e)) nodes) as [src|];
      [|reflexivity].
    destruct (assoc (Node.id src) configs) as [c|]; [|reflexivity].
    destruct (output_schema c) as [schema|]; [|reflexivity].
    rewrite <- app_assoc. reflexivity.
Qed.

Lemma ordered_without_array_index (ks : list jsstring) :
  NoDup ks -> (forall k, In k ks -> array_index k = None) -> ordered_keys ks = true.
Proof.
  induction 1 as [|k r Hk Hr IH]; intros Hi; [reflexivity|].
  cbn [ordered_keys].
  rewrite (proj2 (existsb_key_false k r) Hk), IH by (intros k' H'; apply Hi; now right).
  rewrite andb_true_r. cbn [negb andb].
  apply forallb_forall. intros k' H'. unfold key_before.
  now rewrite (Hi k' (or_intror H')).
Qed.

Lemma declare_in_order (fields : list (jsstring * json)) :
  NoDup (map fst fields) -> (forall k, In k (map fst fields) -> array_index k = None) ->
  declare fields = fields.
Proof.
  intros Hnd Hi. unfold declare. apply (define_in_order fields []).
  cbn [app]. unfold own_property_order, Object_keys.
  now apply ordered_without_array_index.
Qed.

Lemma assoc_stored_configs (k : jsstring) (declared : list (jsstring * Declared)) :
  assoc k (stored_configs declared) = option_map stored_config (assoc k declared).
Proof.
  induction declared as [|[k' d] r IH]; [reflexivity|].
  cbn [stored_configs map assoc fst snd]. destruct (str_eqb k' k); [reflexivity | exact IH].
Qed.

Lemma assoc_In {A} (k : jsstring) (l : list (jsstring * A)) (a : A) :
  assoc k l = Some a -> exists k', In (k', a) l.
Proof.
  induction l as [|[k' a'] r IH]; [discriminate|].
  cbn [assoc]. destruct (str_eqb k' k).
  - intros E. inversion E; subst. exists k'. now left.
  - intros E. destruct (IH E) as [k2 H]. exists k2. now right.
Qed.

(** C6, as the claim has it, fails in two ways.  A schema declared with
    the fields [b] and [1], in this order, is listed as [A.1, A.b]: an
    object enumerates a key that is an array index before the others,
    whatever the order of declaration.  And a title that is present but
    empty is not used: the fields come under the id of the node. *)
Lemma upstream_fields_not_as_declared :
  let nodes := [plain_node (u "n1"); plain_node (u "n2")] in
  let edges := [mkEdge (u "n1") (u "n2")] in
  let reordered :=
    [(u "n1", mkDeclared (Some (u "A"))
                (Some [(u "b", JStr (u "string")); (u "1", JStr (u "number"))]))] in
  let untitled :=
    [(u "n1", mkDeclared (Some []) (Some [(u "x", JStr (u "string"))]))] in
  collectIncomingSchema nodes edges (stored_configs reordered) (u "n2")
  = [u "A.1"; u "A.b"]
  /\ collectUpstreamFields_as_specified (u "n2") nodes edges reordered
     = [u "A.b"; u "A.1"]
  /\ collectIncomingSchema nodes edges (stored_configs untitled) (u "n2") = [u "n1.x"]
  /\ collectUpstreamFields_as_specified (u "n2") nodes edges untitled = [u ".x"]
  /\ ~ (forall nodeID nodes edges declared,
          collectIncomingSchema nodes edges (stored_configs declared) nodeID
          = collectUpstreamFields_as_specified nodeID nodes edges declared).
Proof.
  cbv zeta. repeat (split; [reflexivity|]).
  intros H.
  specialize (H (u "n2") [plain_node (u "n1"); plain_node (u "n2")]
                [mkEdge (u "n1") (u "n2")]
                [(u "n1", mkDeclared (Some []) (Some [(u "x", JStr (u "string"))]))]).
  discriminate H.
Qed.

(** C6, amended.  [collectIncomingSchema] lists, edge by edge in the
    order of the edge list and field by field in the order the source's
    committed [output_schema] enumerates its keys, one string
    [namespace.field] per field, where the namespace is the title of
    the source's committed configuration when that is a string that is
    not empty and the id of the source node otherwise.  This is the
    listing of the specification - title if present, fields in the
    order of their declaration - whenever the titles that are present
    are not empty and the declared field names are distinct and no
    array indices.  For two incoming edges from sources titled A and B
    with schemas [{x: 'string'}] and [{y: 'number'}] the result is
    [A.x, B.y]. *)
Theorem collectIncomingSchema_lists_upstream_fields :
  (forall nodeID nodes edges allNodeConfigs,
      collectIncomingSchema nodes edges allNodeConfigs nodeID
      = collectUpstreamFields nodeID nodes edges allNodeConfigs)
  /\ (forall nodeID nodes edges declared,
        (forall id d, In (id, d) declared -> declared_as_enumerated d) ->
        collectIncomingSchema nodes edges (stored_configs declared) nodeID
        = collectUpstreamFields_as_specified nodeID nodes edges declared)
  /\ collectIncomingSchema
       [plain_node (u "n1"); plain_node (u "n2"); plain_node (u "n3")]
       [mkEdge (u "n1") (u "n3"); mkEdge (u "n1") (u "n2"); mkEdge (u "n2") (u "n3")]
       [(u "n1", titled_config (u "A") [(u "x", JStr (u "string"))]);
        (u "n2", titled_config (u "B") [(u "y", JStr (u "number"))]);
        (u "n3", empty_config)]
       (u "n3")
     = [u "A.x"; u "B.y"].
Proof.
  assert (Hcode : forall nodeID nodes edges allNodeConfigs,
             collectIncomingSchema nodes edges allNodeConfigs nodeID
             = collectUpstreamFields nodeID nodes edges allNodeConfigs).
  { intros. unfold collectIncomingSchema, collectUpstreamFields.
    now rewrite collect_fold. }
  split; [exact Hcode | split; [|reflexivity]].
  intros nodeID nodes edges declared Hd. rewrite Hcode.
  unfold collectUpstreamFields, collectUpstreamFields_as_specified.
  induction (filter (fun edge => str_eqb (target edge) nodeID) edges) as [|e es IH];
    [reflexivity|].
  cbn [flat_map]. rewrite IH. f_equal.
  unfold upstream_fields_of_edge, declared_fields_of_edge.
  destruct (find (fun n => str_eqb (Node.id n) (source e)) nodes) as [src|];
    [|reflexivity].
  rewrite assoc_stored_configs.
  destruct (assoc (Node.id src) declared) as [d|] eqn:Ea; [|reflexivity].
  destruct (assoc_In _ _ _ Ea) as [k Hin].
  destruct (Hd k d Hin) as [Ht Hf].
  cbn [option_map stored_config output_schema title].
  destruct (declared_fields d) as [fields|]; [|reflexivity].
  destruct (Hf fields eq_refl) as [Hnd Hi].
  cbn [option_map]. rewrite (declare_in_order fields Hnd Hi).
  destruct (declared_title d) as [t|]; [|reflexivity].
  destruct t as [|c r]; [now destruct (Ht [] eq_refl) | reflexivity].
Qed.

(** ** Node factory *)

Lemma find_node_type_none (nodeTypes : FlowWorkflowNodeTypesByCategory)
    (type : jsstring) :
  find_node_type nodeTypes type = None
  <-> forall category types nodeType,
        In (category, types) nodeTypes -> In nodeType types -> name nodeType <> type.
Proof.
  induction nodeTypes as [|[c ts] rest IH]; simpl.
  - split; [intros _ ? ? ? [] | reflexivity].
  - destruct (find _ ts) as [found|] eqn:F.
    + apply find_some in F as [Hin Hname]. apply str_eqb_eq in Hname.
      split; [discriminate|]. intros H. exfalso.
      exact (H c ts found (or_introl eq_refl) Hin Hname).
    + rewrite IH. split.
      * intros H category types nodeType [E | Hin] Hnt.
        -- inversion E; subst. apply str_eqb_neq.
           exact (find_none _ _ F _ Hnt).
        -- eapply H; eassumption.
      * intros H category types nodeType Hin. apply (H category). now right.
Qed.

Lemma find_node_type_some (nodeTypes : FlowWorkflowNodeTypesByCategory)
    (type : jsstring) (nodeType : FlowWorkflowNodeType) :
  find_node_type nodeTypes type = Some nodeType ->
  name nodeType = type
  /\ exists category types, In (category, types) nodeTypes /\ In nodeType types.
Proof.
  induction nodeTypes as [|[c ts] rest IH]; simpl; [discriminate|].
  destruct (find _ ts) as [found|] eqn:F.
  - intros E. inversion E; subst. apply find_some in F as [Hin Hname].
    apply str_eqb_eq in Hname. split; [assumption|].
    exists c, ts. split; [now left | assumption].
  - intros E. destruct (IH E) as [Hn [c' [ts' [H1 H2]]]]. split; [assumption|].
    exists c', ts'. split; [now right | assumption].
Qed.

(** On records, [createNode] returns null exactly when no category of
    the registry holds a node type of the given name; when the type is
    found, the configuration it returns has the fields of the default
    configuration of a type of that name, with [title] set to the
    given id. *)
Lemma createNode_of_records
    (nodeTypes : FlowWorkflowNodeTypesByCategory) (type id : jsstring)
    (position : Position) (parentId : option jsstring)
    (dimensions : option Dimensions) :
  (createNode nodeTypes type id position parentId dimensions = None
   <-> forall category types nodeType,
         In (category, types) nodeTypes -> In nodeType types -> name nodeType <> type)
  /\ (forall node config',
        createNode nodeTypes type id position parentId dimensions = Some (node, config') ->
        exists category types nodeType,
          In (category, types) nodeTypes /\ In nodeType types
          /\ name nodeType = type
          /\ title config' = Some id
          /\ output_schema config' = output_schema (config nodeType)
          /\ output_json_schema config' = output_json_schema (config nodeType)
          /\ llm_info config' = llm_info (config nodeType)
          /\ other_fields config' = other_fields (config nodeType)
          /\ Node.id node = id /\ Node.type node = type).
Proof.
  split.
  - rewrite <- find_node_type_none. unfold createNode.
    destruct (find_node_type nodeTypes type); split; congruence.
  - intros node config'. unfold createNode.
    destruct (find_node_type nodeTypes type) as [nodeType|] eqn:F; [|discriminate].
    intros E. inversion E; subst; clear E.
    destruct (find_node_type_some _ _ _ F) as [Hn [c [ts [H1 H2]]]].
    exists c, ts, nodeType. simpl. repeat split; assumption.
Qed.

(** ** Node factory: objects and references *)






























(** Where a category holds [null] and no category before it holds the
    type, [createNode] throws: [find] is called on [null]. *)
Lemma createNode_throws_on_null_category (before after : InHeap.Registry)
    (category type id : jsstring) (position : Position) (parentId : option jsstring)
    (dimensions : option Dimensions) (h : Heap.t) :
  InHeap.find_node_type before type = Normal None ->
  InHeap.createNode (before ++ (category, None) :: after) type id position parentId
    dimensions h
  = Some (Throw TypeError, h).
Proof.
  intros H. unfold InHeap.createNode.
  assert (E : InHeap.find_node_type (before ++ (category, None) :: after) type
              = Throw TypeError).
  { induction before as [|[c [types|]] before IH]; simpl in *.
    - reflexivity.
    - destruct (find _ types); [discriminate | now apply IH].
    - discriminate. }
  now rewrite E.
Qed.



(** ** Title edits *)

(** With the conversion the specification describes, a converted
    title has no white space and differs from the title typed only
    where that had white space. *)
Lemma underscore_for_whitespace_spec (value : jsstring) :
  Forall (fun c => is_js_space c = false) (underscore_for_whitespace value)
  /\ length (underscore_for_whitespace value) = length value
  /\ forall i c, nth_error value i = Some c -> is_js_space c = false ->
                nth_error (underscore_for_whitespace value) i = Some c.
Proof.
  unfold underscore_for_whitespace. split; [|split].
  - induction value as [|c value IH]; constructor; [|exact IH].
    destruct (is_js_space c) eqn:E; [reflexivity | exact E].
  - apply length_map.
  - intros i c Hn Hc. rewrite nth_error_map, Hn. simpl. now rewrite Hc.
Qed.

Lemma expire_keeps_title_error (limit : N) (s : Sidebar) :
  showTitleError (expire limit s) = showTitleError s.
Proof.
  unfold expire. destruct (Debounce.timerId (debouncedDispatch s)); [|reflexivity].
  destruct (_ <=? limit); [|reflexivity].
  now destruct (Debounce.timerExpired _ _ _) as [[[? ?]|] ?].
Qed.

Section Title.
Variable convertToPythonVariableName : jsstring -> jsstring.

Lemma handle_keeps_title_error_off (ev : Event) (s : Sidebar) :
  showTitleError s = false ->
  showTitleError (handle convertToPythonVariableName ev s) = false.
Proof.
  intros H. destruct ev; simpl; try assumption; try reflexivity.
  - unfold handleInputChange. now destruct isSlider.
  - unfold updateOutputSchema.
    destruct (length (Object_keys newValue) =? 0)%nat.
    + assumption.
    + destruct (generateJsonSchemaFromSchema (Some newValue)); assumption.
  - unfold updateOutputJsonSchema.
    destruct (negb (str_truthy (trim value))); [assumption|].
    destruct (result (extractSchemaFromJsonSchema value)) as [[?|]|]; assumption.
  - unfold elapse. simpl. now rewrite !expire_keeps_title_error.
Qed.

Lemma run_keeps_title_error_off (evs : list Event) (s : Sidebar) :
  showTitleError s = false ->
  showTitleError (run convertToPythonVariableName evs s) = false.
Proof.
  revert s. induction evs as [|ev evs IH]; intros s H; simpl; [assumption|].
  apply IH. now apply handle_keeps_title_error_off.
Qed.

(** C4, as the code has it.  Completing a title edit dispatches the
    converted title and nothing else; the flag that guards the alert
    (Title cannot contain whitespace) starts out false and no handler
    of the component ever sets it, so that after any events whatever,
    title edits with white space among them, the alert is not
    shown. *)
Theorem title_error_never_shown
    (id : jsstring) (schema : option FlowWorkflowNodeType)
    (nodeConfig : FlowWorkflowNodeConfig) (now : N)
    (before after : list Event) (value : jsstring) :
  let s := run convertToPythonVariableName before (mount id schema nodeConfig now) in
  let s' := handleTitleChangeComplete convertToPythonVariableName value s in
  dispatched s'
  = dispatched s ++ [updateNodeTitle (nodeID s) (convertToPythonVariableName value)]
  /\ showTitleError s' = false
  /\ showTitleError (run convertToPythonVariableName after s') = false.
Proof.
  intros s s'.
  assert (Hs : showTitleError s = false)
    by (apply run_keeps_title_error_off; reflexivity).
  split; [reflexivity|]. split; [exact Hs|].
  apply run_keeps_title_error_off. exact Hs.
Qed.
End Title.

(** The title [my node], with the conversion the specification
    describes: [my_node] is dispatched and the alert stays hidden. *)
Lemma title_with_whitespace_converted_silently :
  let s := handleTitleChangeComplete underscore_for_whitespace (u "my node")
             (sample_sidebar empty_config) in
  dispatched s = [updateNodeTitle (u "llm_1") (u "my_node")]
  /\ showTitleError s = false.
Proof. split; reflexivity. Qed.

(** ** Debounced and immediate commits *)

#[local] Arguments N.sub : simpl never.
#[local] Arguments N.add : simpl never.
#[local] Arguments N.max : simpl never.
#[local] Arguments N.leb : simpl never.
#[local] Arguments N.ltb : simpl never.

Lemma assign_field_holds (c : FlowWorkflowNodeConfig) (e : FieldEdit) :
  holds (assign_field c e) e.
Proof. destruct e; simpl; try reflexivity; apply js_lookup_set_same. Qed.

Lemma apply_edits_holds_last (edits : list (N * FieldEdit)) :
  forall c ge d, holds (apply_edits c (ge :: edits)) (snd (last (ge :: edits) d)).
Proof.
  induction edits as [|ge' edits IH]; intros c ge d.
  - apply assign_field_holds.
  - change (apply_edits c (ge :: ge' :: edits))
      with (apply_edits (assign_field c (snd ge)) (ge' :: edits)).
    change (last (ge :: ge' :: edits) d) with (last (ge' :: edits) d).
    apply IH.
Qed.

Lemma updatedModel_assign (e : FieldEdit) (c : FlowWorkflowNodeConfig) :
  (if includes [46] (edit_key e) then updateNestedModel c e else assign_field c e)
  = assign_field c e.
Proof. now destruct (includes [46] (edit_key e)). Qed.

Lemma handleInputChange_immediate (e : FieldEdit) (s : Sidebar) :
  dispatched (handleInputChange e false s)
  = dispatched s
      ++ [updateNodeConfigOnly (nodeID s) (assign_field (currentNodeConfig s) e)]
  /\ currentNodeConfig (handleInputChange e false s)
     = assign_field (currentNodeConfig s) e.
Proof. unfold handleInputChange. rewrite updatedModel_assign. split; reflexivity. Qed.

(** Whatever the state of the debounced dispatch, once time has passed
    no timer is left that is due: serving the timer twice is enough. *)
Lemma elapse_serves_timers (ms : N) (s : Sidebar) :
  match Debounce.timerId (debouncedDispatch (elapse ms s)) with
  | Some due => clock (elapse ms s) < due
  | None => True
  end.
Proof.
  unfold elapse. destruct s as [id sch c err [a l i [due|]] now ds lg]; simpl.
  2:{ exact I. }
  unfold expire at 2. simpl. destruct (N.leb_spec due (now + ms)) as [Hdue|Hdue].
  2:{ unfold expire. simpl. destruct (N.leb_spec due (now + ms)); [lia|]. simpl. lia. }
  unfold Debounce.timerExpired, Debounce.shouldInvoke. simpl.
  destruct l as [l|]; simpl.
  - destruct (N.leb_spec 300 (N.max now due - l)) as [H1|H1]; simpl.
    { unfold Debounce.trailingEdge. simpl. destruct a as [[? ?]|]; simpl; exact I. }
    destruct (N.ltb_spec (N.max now due) l) as [H2|H2]; simpl.
    { unfold Debounce.trailingEdge. simpl. destruct a as [[? ?]|]; simpl; exact I. }
    unfold Debounce.remainingWait. simpl. unfold expire. simpl.
    destruct (N.leb_spec (N.max now due + (300 - (N.max now due - l))) (now + ms))
      as [H3|H3]; simpl; [|lia].
    unfold Debounce.timerExpired, Debounce.shouldInvoke. simpl.
    destruct (N.leb_spec 300
                (N.max (N.max now due) (N.max now due + (300 - (N.max now due - l))) - l))
      as [H4|H4]; [|lia].
    simpl. unfold Debounce.trailingEdge. simpl. destruct a as [[? ?]|]; simpl; exact I.
  - unfold Debounce.trailingEdge. simpl. destruct a as [[? ?]|]; simpl; exact I.
Qed.

Lemma first_slider_edit (e : FieldEdit) (s : Sidebar) :
  Debounce.timerId (debouncedDispatch s) = None ->
  let s' := handleInputChange e true s in
  waiting (clock s) s' /\ dispatched s' = dispatched s /\ nodeID s' = nodeID s
  /\ clock s' = clock s
  /\ currentNodeConfig s' = assign_field (currentNodeConfig s) e.
Proof.
  intros H. unfold handleInputChange. rewrite updatedModel_assign. simpl.
  unfold waiting, Debounce.debounced. simpl. rewrite H.
  destruct (Debounce.shouldInvoke 300 (clock s) (debouncedDispatch s)); simpl;
    (repeat split; try reflexivity; try lia;
     exists (clock s + 300); split; [reflexivity | lia]).
Qed.

Lemma next_slider_edit (e : FieldEdit) (l : N) (s : Sidebar) :
  waiting l s ->
  let s' := handleInputChange e true s in
  waiting (clock s) s' /\ dispatched s' = dispatched s /\ nodeID s' = nodeID s
  /\ clock s' = clock s
  /\ currentNodeConfig s' = assign_field (currentNodeConfig s) e.
Proof.
  intros [Ha [Hl [Hc [due [Ht Hd]]]]].
  unfold handleInputChange. rewrite updatedModel_assign. simpl.
  unfold waiting, Debounce.debounced. simpl. rewrite Ht. simpl.
  repeat split; try reflexivity; try lia.
  exists due. split; [reflexivity | lia].
Qed.

Lemma expire_without_timer (limit : N) (s : Sidebar) :
  Debounce.timerId (debouncedDispatch s) = None -> expire limit s = s.
Proof. intros H. unfold expire. now rewrite H. Qed.

Lemma expire_not_due (limit due : N) (s : Sidebar) :
  Debounce.timerId (debouncedDispatch s) = Some due -> limit < due ->
  expire limit s = s.
Proof.
  intros H Hd. unfold expire. rewrite H.
  now rewrite (proj2 (N.leb_gt due limit) Hd).
Qed.

(** A timer that expires less than 300 ms after the last call starts
    anew, to expire 300 ms after that call. *)
Lemma expire_too_early (limit due l : N) (s : Sidebar) :
  Debounce.timerId (debouncedDispatch s) = Some due -> due <= limit ->
  Debounce.lastCallTime (debouncedDispatch s) = Some l ->
  clock s <= due -> l <= due < l + 300 ->
  expire limit s
  = set_debounced
      (Debounce.mk (Debounce.lastArgs (debouncedDispatch s)) (Some l)
         (Debounce.lastInvokeTime (debouncedDispatch s)) (Some (l + 300)))
      (set_clock due s).
Proof.
  destruct s as [id sch c err [a lc i t] now ds lg]. simpl.
  intros Ht Hdue Hl Hc Hd. subst t lc. unfold expire. simpl.
  rewrite (proj2 (N.leb_le due limit) Hdue).
  replace (N.max now due) with due by lia.
  unfold Debounce.timerExpired, Debounce.shouldInvoke. simpl.
  rewrite (proj2 (N.leb_gt 300 (due - l))) by lia.
  rewrite (proj2 (N.ltb_ge due l)) by lia.
  simpl. unfold Debounce.remainingWait, set_debounced, set_clock. simpl.
  replace (due + (300 - (due - l))) with (l + 300) by lia. reflexivity.
Qed.

(** A timer that expires 300 ms or more after the last call invokes
    the dispatch with the arguments of that call. *)
Lemma expire_at_rest (limit due l : N) (s : Sidebar) id data :
  Debounce.timerId (debouncedDispatch s) = Some due -> due <= limit ->
  Debounce.lastCallTime (debouncedDispatch s) = Some l ->
  Debounce.lastArgs (debouncedDispatch s) = Some (id, data) ->
  clock s <= due -> l + 300 <= due ->
  expire limit s
  = dispatch (updateNodeConfigOnly id data)
      (set_debounced (Debounce.mk None (Some l) due None) (set_clock due s)).
Proof.
  destruct s as [id0 sch c err [a lc i t] now ds lg]. simpl.
  intros Ht Hdue Hl Ha Hc Hd. subst t lc a. unfold expire. simpl.
  rewrite (proj2 (N.leb_le due limit) Hdue).
  replace (N.max now due) with due by lia.
  unfold Debounce.timerExpired, Debounce.shouldInvoke. simpl.
  rewrite (proj2 (N.leb_le 300 (due - l))) by lia.
  reflexivity.
Qed.

Lemma elapse_without_timer (ms : N) (s : Sidebar) :
  Debounce.timerId (debouncedDispatch s) = None ->
  dispatched (elapse ms s) = dispatched s /\ nodeID (elapse ms s) = nodeID s
  /\ currentNodeConfig (elapse ms s) = currentNodeConfig s
  /\ Debounce.timerId (debouncedDispatch (elapse ms s)) = None.
Proof.
  intros H. unfold elapse. rewrite !(expire_without_timer _ s H). simpl.
  repeat split; try reflexivity. exact H.
Qed.

Lemma elapse_while_waiting (ms l : N) (s : Sidebar) :
  waiting l s -> clock s + ms < l + 300 ->
  waiting l (elapse ms s) /\ dispatched (elapse ms s) = dispatched s
  /\ nodeID (elapse ms s) = nodeID s
  /\ currentNodeConfig (elapse ms s) = currentNodeConfig s.
Proof.
  intros [Ha [Hl [Hc [due [Ht Hd]]]]] Hms. unfold elapse.
  destruct (N.leb_spec due (clock s + ms)) as [Hdue|Hdue].
  - rewrite (expire_too_early _ due l s Ht Hdue Hl) by lia.
    rewrite (expire_not_due _ (l + 300)) by (reflexivity || (simpl; lia)).
    unfold waiting. simpl. rewrite Ha.
    repeat split; try reflexivity; try lia.
    exists (l + 300). split; [reflexivity | lia].
  - rewrite !(expire_not_due _ due s Ht Hdue).
    unfold waiting. simpl. rewrite Ha, Hl.
    repeat split; try reflexivity; try lia.
    exists due. split; [exact Ht | lia].
Qed.

Lemma elapse_at_rest (ms l : N) (s : Sidebar) :
  waiting l s -> l + 300 <= clock s + ms ->
  dispatched (elapse ms s)
  = dispatched s ++ [updateNodeConfigOnly (nodeID s) (currentNodeConfig s)]
  /\ Debounce.timerId (debouncedDispatch (elapse ms s)) = None.
Proof.
  intros [Ha [Hl [Hc [due [Ht Hd]]]]] Hms. unfold elapse.
  assert (Hdue : due <= clock s + ms) by lia.
  destruct (N.eq_dec due (l + 300)) as [E|E].
  - rewrite (expire_at_rest _ due l s _ _ Ht Hdue Hl Ha) by lia.
    rewrite expire_without_timer by reflexivity. simpl. split; reflexivity.
  - rewrite (expire_too_early _ due l s Ht Hdue Hl) by lia.
    rewrite (expire_at_rest _ (l + 300) l _ (nodeID s) (currentNodeConfig s));
      try reflexivity; try (simpl; lia); try (simpl; exact Ha).
    simpl. split; reflexivity.
Qed.

Section Drag.
Variable convertToPythonVariableName : jsstring -> jsstring.
Abbreviation run' := (run convertToPythonVariableName).

Lemma drag_continues (edits : list (N * FieldEdit)) :
  forall s, waiting (clock s) s -> Forall (fun ge => fst ge < 300) edits ->
  let s' := run' (slider_drag edits) s in
  waiting (clock s') s' /\ dispatched s' = dispatched s /\ nodeID s' = nodeID s
  /\ currentNodeConfig s' = apply_edits (currentNodeConfig s) edits.
Proof.
  induction edits as [|[gap e] edits IH]; intros s Hw Hg.
  - split; [exact Hw|]. repeat split; reflexivity.
  - inversion Hg as [|? ? Hgap Hrest]; subst. simpl in Hgap.
    destruct (elapse_while_waiting gap (clock s) s Hw ltac:(lia)) as [W1 [D1 [I1 C1]]].
    destruct (next_slider_edit e _ _ W1) as [W2 [D2 [I2 [K2 C2]]]].
    rewrite <- K2 in W2.
    destruct (IH _ W2 Hrest) as [W3 [D3 [I3 C3]]].
    change (run' (slider_drag ((gap, e) :: edits)) s)
      with (run' (slider_drag edits) (handleInputChange e true (elapse gap s))).
    cbv zeta. split; [exact W3|]. split; [|split].
    + now rewrite D3, D2, D1.
    + now rewrite I3, I2, I1.
    + rewrite C3, C2, C1. reflexivity.
Qed.

(** C5.  A drag of a slider - a first edit, then further edits each
    less than 300 ms after the one before - commits nothing while it
    lasts and nothing during the 300 ms after its last edit; once
    300 ms have passed without an edit, exactly one configuration has
    reached the store: the working configuration with all the edits
    applied, which holds the value of the last edit at its field.  An
    edit that does not come from a slider is committed in the same
    turn. *)
Theorem slider_drag_commits_once (s : Sidebar) (gap0 : N) (e0 : FieldEdit)
    (edits : list (N * FieldEdit)) (idle : N) :
  Debounce.timerId (debouncedDispatch s) = None ->
  Forall (fun ge => fst ge < 300) edits ->
  300 <= idle ->
  let drag := (gap0, e0) :: edits in
  let s1 := run' (slider_drag drag) s in
  let final := apply_edits (currentNodeConfig s) drag in
  dispatched s1 = dispatched s
  /\ (forall wait, wait < 300 -> dispatched (elapse wait s1) = dispatched s)
  /\ dispatched (elapse idle s1)
     = dispatched s ++ [updateNodeConfigOnly (nodeID s) final]
  /\ holds final (snd (last drag (gap0, e0)))
  /\ (forall e,
        dispatched (handleInputChange e false s)
        = dispatched s
            ++ [updateNodeConfigOnly (nodeID s)
                  (assign_field (currentNodeConfig s) e)]).
Proof.
  intros Hp Hg Hidle drag s1 final.
  destruct (elapse_without_timer gap0 s Hp) as [D1 [I1 [C1 T1]]].
  destruct (first_slider_edit e0 (elapse gap0 s) T1) as [W2 [D2 [I2 [K2 C2]]]].
  rewrite <- K2 in W2.
  destruct (drag_continues edits _ W2 Hg) as [W3 [D3 [I3 C3]]].
  assert (Es1 : s1 = run' (slider_drag edits)
                       (handleInputChange e0 true (elapse gap0 s))) by reflexivity.
  assert (Dfin : dispatched s1 = dispatched s) by now rewrite Es1, D3, D2, D1.
  assert (Ifin : nodeID s1 = nodeID s) by now rewrite Es1, I3, I2, I1.
  assert (Cfin : currentNodeConfig s1 = final).
  { rewrite Es1, C3, C2, C1. reflexivity. }
  rewrite <- Es1 in W3.
  split; [exact Dfin|]. split; [|split; [|split]].
  - intros wait Hw.
    destruct (elapse_while_waiting wait (clock s1) s1 W3 ltac:(lia)) as [_ [D _]].
    now rewrite D.
  - destruct (elapse_at_rest idle (clock s1) s1 W3 ltac:(lia)) as [D _].
    now rewrite D, Dfin, Ifin, Cfin.
  - apply apply_edits_holds_last.
  - intros e. apply handleInputChange_immediate.
Qed.
End Drag.

Lemma slider_drag_commits_once_witness :
  let s := sample_sidebar (config_with_llm (Some 4096%Q) (Some (1 # 2)%Q)) in
  let drag := [(1000, LlmTemperature (6 # 10)%Q); (200, LlmTemperature (7 # 10)%Q);
               (299, LlmTemperature (9 # 10)%Q)] in
  dispatched (elapse 300 (run (fun t => t) (slider_drag drag) s))
  = [updateNodeConfigOnly (u "llm_1")
       (config_with_llm (Some 4096%Q) (Some (9 # 10)%Q))].
Proof.
  intros s drag.
  assert (Hp : Debounce.timerId (debouncedDispatch s) = None) by reflexivity.
  assert (Hg : Forall (fun ge : N * FieldEdit => fst ge < 300)
                 [(200, LlmTemperature (7 # 10)%Q); (299, LlmTemperature (9 # 10)%Q)]).
  { repeat constructor. }
  assert (Hi : 300 <= 300) by lia.
  exact (proj1 (proj2 (proj2
    (slider_drag_commits_once (fun t => t) s 1000 (LlmTemperature (6 # 10)%Q)
       _ 300 Hp Hg Hi)))).
Defined.

(* ================================================================== *)
(** * Further properties *)
(* ================================================================== *)

(* ================================================================== *)
(** ** Schema translator: the shape of an extracted schema *)
(* ================================================================== *)

Lemma In_set x k v (o : jsobj) : In x (js_set k v o) -> x = (k, v) \/ In x o.
Proof.
  unfold js_set. destruct (has_own k o).
  - apply In_replace.
  - apply In_insert.
Qed.

Lemma has_own_set k v k2 (o : jsobj) :
  has_own k2 (js_set k v o) = str_eqb k k2 || has_own k2 o.
Proof.
  unfold has_own. rewrite js_lookup_set. now destruct (str_eqb k k2).
Qed.

Lemma has_own_assign_proto k v (o : jsobj) :
  has_own (u "__proto__") (js_assign k v o) = has_own (u "__proto__") o.
Proof.
  unfold js_assign. destruct (str_eqb k (u "__proto__")) eqn:E; [reflexivity|].
  rewrite has_own_set, E. reflexivity.
Qed.

Lemma assign_ordered k v (o : jsobj) :
  own_property_order o = true -> own_property_order (js_assign k v o) = true.
Proof.
  intros H. unfold js_assign. destruct (str_eqb k (u "__proto__")); [exact H|].
  now apply set_ordered.
Qed.

Lemma In_assign x k v (o : jsobj) : In x (js_assign k v o) -> x = (k, v) \/ In x o.
Proof.
  unfold js_assign. destruct (str_eqb k (u "__proto__")).
  - now right.
  - apply In_set.
Qed.

(** What the loop of the extractor keeps true of the schema it fills. *)
Lemma collect_types_shape (entries : jsobj) :
  forall acc schema,
    collect_types entries acc = Normal schema ->
    own_property_order acc = true -> has_own (u "__proto__") acc = false ->
    own_property_order schema = true /\ has_own (u "__proto__") schema = false.
Proof.
  induction entries as [|[key value] rest IH]; intros acc schema E Ho Hp;
    cbn [collect_types] in E.
  - inversion E; subst. now split.
  - destruct value as [| b | n e | s | l | o];
      cbn [collect_types typeof_object js_in js_get] in E;
      try discriminate; try (now apply (IH acc)).
    destruct (has_own (u "type") o); [|now apply (IH acc)].
    destruct (js_lookup (u "type") o) as [t|]; [|now apply (IH acc)].
    apply (IH _ _ E).
    + now apply assign_ordered.
    + now rewrite has_own_assign_proto.
Qed.

(** Every field the loop adds is the [type] of an entry that is an
    object. *)
Lemma collect_types_sound (entries : jsobj) :
  forall acc schema,
    collect_types entries acc = Normal schema ->
    forall k t, In (k, t) schema ->
      In (k, t) acc
      \/ exists p, In (k, JObj p) entries /\ js_lookup (u "type") p = Some t.
Proof.
  induction entries as [|[key value] rest IH]; intros acc schema E k t Hi;
    cbn [collect_types] in E.
  - inversion E; subst. now left.
  - assert (Hrest : forall a, collect_types rest a = Normal schema ->
              (In (k, t) a -> In (k, t) acc
                 \/ exists p, In (k, JObj p) ((key, value) :: rest)
                              /\ js_lookup (u "type") p = Some t) ->
              In (k, t) acc
              \/ exists p, In (k, JObj p) ((key, value) :: rest)
                           /\ js_lookup (u "type") p = Some t).
    { intros a Ea Ha. destruct (IH a schema Ea k t Hi) as [H | [p [H1 H2]]].
      - now apply Ha.
      - right. exists p. split; [now right | exact H2]. }
    destruct value as [| b | m e | s | l | o];
      cbn [collect_types typeof_object js_in js_get] in E;
      try discriminate; try (apply (Hrest acc E); now left).
    destruct (has_own (u "type") o) eqn:Ht; [|apply (Hrest acc E); now left].
    destruct (js_lookup (u "type") o) as [t'|] eqn:El;
      [|apply (Hrest acc E); now left].
    apply (Hrest _ E). intros Ha. apply In_assign in Ha as [Ha | Ha].
    + inversion Ha; subst. right. exists o. split; [now left | exact El].
    + now left.
Qed.

(** The value [simplify] returns, traced through the extractor. *)
Lemma simplify_some (text : jsstring) (m : jsobj) :
  simplify text = Some m ->
  exists parsed properties,
    parse_schema_text text = Some parsed
    /\ js_get (u "properties") parsed = Normal (Some properties)
    /\ truthy properties = true
    /\ collect_types (Object_entries properties) [] = Normal m
    /\ m <> [].
Proof.
  unfold simplify, returned, extractSchemaFromJsonSchema, extract_body.
  destruct (parse_schema_text text) as [parsed|] eqn:Ep; [|discriminate].
  destruct (js_get (u "properties") parsed) as [[properties|]|] eqn:Eg;
    try discriminate.
  destruct (truthy properties) eqn:Et; [|discriminate].
  destruct (collect_types (Object_entries properties) []) as [schema|] eqn:Ec;
    [|discriminate].
  cbn [result]. intros E. exists parsed, properties.
  destruct schema as [|kv r]; cbn in E; [discriminate E|].
  inversion E; subst.
  repeat split; try reflexivity; try assumption. discriminate.
Qed.

(** X1.  A schema [extractSchemaFromJsonSchema] returns is never the
    empty object, never has an own property [__proto__], and lists its
    fields in the order an object enumerates its own keys (no field
    twice). *)
Theorem simplify_returns_well_formed_schema (text : jsstring) (m : jsobj) :
  simplify text = Some m ->
  m <> []
  /\ has_own (u "__proto__") m = false
  /\ own_property_order m = true
  /\ NoDup (Object_keys m).
Proof.
  intros E. destruct (simplify_some text m E) as [parsed [properties [_ [_ [_ [Ec Hne]]]]]].
  destruct (collect_types_shape _ _ _ Ec eq_refl eq_refl) as [Ho Hp].
  split; [exact Hne | split; [exact Hp | split; [exact Ho|]]].
  unfold own_property_order in Ho. clear - Ho.
  induction (Object_keys m) as [|k r IH]; [constructor|].
  cbn in Ho. apply andb_prop in Ho as [Ho Hr]. apply andb_prop in Ho as [Hn _].
  constructor; [|now apply IH].
  apply existsb_key_false. now destruct (existsb _ r).
Qed.

Lemma simplify_returns_well_formed_schema_witness :
  let m := [(u "10", JStr (u "number")); (u "foo", JStr (u "string"))] in
  m <> []
  /\ has_own (u "__proto__") m = false
  /\ own_property_order m = true
  /\ NoDup (Object_keys m).
Proof.
  apply (simplify_returns_well_formed_schema
           (dq "{'properties':{'foo':{'type':'string'},'__proto__':{'type':'x'},'10':{'type':'number'}}}")).
  vm_compute. reflexivity.
Defined.

(** X2.  [extractSchemaFromJsonSchema] invents nothing: every field of
    the schema it returns is the name of an entry of the [properties]
    of the parsed document, that entry is an object, and the field's
    value is the [type] that object holds. *)
Theorem simplify_fields_come_from_properties (text : jsstring) (m : jsobj) :
  simplify text = Some m ->
  exists parsed properties,
    parse_schema_text text = Some parsed
    /\ js_get (u "properties") parsed = Normal (Some properties)
    /\ forall k t, In (k, t) m ->
         exists p, In (k, JObj p) (Object_entries properties)
                   /\ js_lookup (u "type") p = Some t.
Proof.
  intros E. destruct (simplify_some text m E) as [parsed [properties [Ep [Eg [_ [Ec _]]]]]].
  exists parsed, properties. split; [exact Ep | split; [exact Eg|]].
  intros k t Hi. destruct (collect_types_sound _ _ _ Ec k t Hi) as [[] | H]. exact H.
Qed.

Lemma simplify_fields_come_from_properties_witness :
  exists parsed properties,
    parse_schema_text (dq "{'properties':{'foo':{'type':'string'},'bar':5}}") = Some parsed
    /\ js_get (u "properties") parsed = Normal (Some properties)
    /\ forall k t, In (k, t) [(u "foo", JStr (u "string"))] ->
         exists p, In (k, JObj p) (Object_entries properties)
                   /\ js_lookup (u "type") p = Some t.
Proof.
  apply (simplify_fields_come_from_properties
           (dq "{'properties':{'foo':{'type':'string'},'bar':5}}")).
  vm_compute. reflexivity.
Defined.

(* ================================================================== *)
(** ** Schema translator: from an extracted schema back to text *)
(* ================================================================== *)

Lemma In_has_own k v (o : jsobj) : In (k, v) o -> has_own k o = true.
Proof.
  intros Hi. rewrite has_own_keys.
  destruct (existsb (fun k' => str_eqb k' k) (Object_keys o)) eqn:E; [reflexivity|].
  apply existsb_key_false in E. exfalso. apply E.
  unfold Object_keys. change k with (fst (k, v)). now apply in_map.
Qed.

(** The text generated for such a mapping is read back as the mapping. *)
Lemma simplify_generated (m : jsobj) :
  schema_mapping m ->
  let text := JSON_stringify (schema_document (Object_keys m) (described m)) 2 in
  generateJsonSchemaFromSchema (Some m) = Some text /\ simplify text = Some m.
Proof.
  intros [Hne [Hord [Hno H]]] text.
  assert (Hproto : forall k v, In (k, v) m -> k <> u "__proto__").
  { intros k v Hi ->. apply In_has_own in Hi. congruence. }
  assert (Htruthy : forall k v, In (k, v) m -> k <> [] /\ truthy v = true).
  { intros k v Hi. destruct (H k v Hi) as [Hk [s [-> Hs]]].
    split; [assumption|]. now destruct s. }
  assert (Hstr : forall k v, In (k, v) m -> exists s, v = JStr s).
  { intros k v Hi. destruct (H k v Hi) as [_ [s [-> _]]]. now exists s. }
  assert (Hfold : fold_left (fun a kv => js_set (fst kv) (snd kv) a) m [] = m)
    by apply (define_in_order m [] Hord).
  split.
  - change (generateJsonSchemaFromSchema (Some m)) with (expand m).
    rewrite (expand_text m Hne Htruthy), (assign_described m Hproto).
    change (@nil (jsstring * json)) with (described []) at 1.
    rewrite (fold_described m []), Hfold. reflexivity.
  - unfold simplify, returned, extractSchemaFromJsonSchema, extract_body,
      parse_schema_text, text.
    assert (Etrim : trim (JSON_stringify (schema_document (Object_keys m) (described m)) 2)
                    = JSON_stringify (schema_document (Object_keys m) (described m)) 2)
      by apply trim_object_text.
    rewrite Etrim.
    rewrite (JSON_parse_stringify _ 2 (plain_schema_document (Object_keys m) m Hord Hstr)).
    change (js_get (u "properties") (schema_document (Object_keys m) (described m)))
      with (@Normal (option json) (Some (JObj (described m)))).
    cbn [truthy Object_entries].
    rewrite (collect_described m Hproto), Hfold.
    destruct m as [|kv r]; [contradiction | reflexivity].
Qed.

(** X3.  A schema extracted from a text survives the way back: when
    its field names are not empty and its types are non-empty strings,
    [generateJsonSchemaFromSchema] produces a text for it, and
    [extractSchemaFromJsonSchema] reads that text as the same schema,
    fields in the same order. *)
Theorem extracted_schema_regenerates (text : jsstring) (m : jsobj) :
  simplify text = Some m ->
  (forall k v, In (k, v) m -> k <> [] /\ exists s, v = JStr s /\ s <> []) ->
  exists text',
    generateJsonSchemaFromSchema (Some m) = Some text' /\ simplify text' = Some m.
Proof.
  intros E H. destruct (simplify_some text m E) as [parsed [properties [_ [_ [_ [Ec Hne]]]]]].
  destruct (collect_types_shape _ _ _ Ec eq_refl eq_refl) as [Ho Hp].
  exists (JSON_stringify (schema_document (Object_keys m) (described m)) 2).
  apply simplify_generated.
  split; [exact Hne | split; [exact Ho | split; [exact Hp | exact H]]].
Qed.

Lemma extracted_schema_regenerates_witness :
  exists text',
    generateJsonSchemaFromSchema
      (Some [(u "7", JStr (u "number")); (u "foo", JStr (u "string"))]) = Some text'
    /\ simplify text'
       = Some [(u "7", JStr (u "number")); (u "foo", JStr (u "string"))].
Proof.
  apply (extracted_schema_regenerates
           (dq "{'title':'t','properties':{'foo':{'type':'string','x':1},'7':{'type':'number'}}}")).
  - vm_compute. reflexivity.
  - intros k v [E | [E | []]]; inversion E; subst;
      (split; [discriminate | eexists; split; [reflexivity | discriminate]]).
Defined.

(* ================================================================== *)
(** ** The schema editor and the first rendering *)
(* ================================================================== *)

(** X4.  An edit of the output schema to a mapping with non-empty
    names and types makes one commit that holds both views, and the
    two agree: the JSON-schema text committed is read back by
    [extractSchemaFromJsonSchema] as the mapping committed.  No other
    part of the configuration changes. *)
Theorem updateOutputSchema_commits_matching_views (newValue : jsobj) (s : Sidebar) :
  schema_mapping newValue ->
  exists jsonSchema,
    let c := currentNodeConfig s in
    let committed :=
      mkConfig (title c) (Some newValue) (Some jsonSchema) (llm_info c) (other_fields c) in
    dispatched (updateOutputSchema newValue s)
    = dispatched s ++ [updateNodeConfigOnly (nodeID s) committed]
    /\ currentNodeConfig (updateOutputSchema newValue s) = committed
    /\ simplify jsonSchema = Some newValue.
Proof.
  intros Hm. destruct (simplify_generated newValue Hm) as [Eg Es].
  exists (JSON_stringify (schema_document (Object_keys newValue) (described newValue)) 2).
  cbv zeta. unfold updateOutputSchema. rewrite Eg.
  destruct Hm as [Hne _].
  destruct newValue as [|kv r]; [contradiction|].
  cbn [Object_keys map length Nat.eqb].
  repeat split; try reflexivity. exact Es.
Qed.

Lemma updateOutputSchema_commits_matching_views_witness :
  exists jsonSchema,
    let s := sample_sidebar (titled_config (u "llm_1") [(u "bar", JStr (u "number"))]) in
    let newValue := [(u "foo", JStr (u "string"))] in
    let c := currentNodeConfig s in
    let committed :=
      mkConfig (title c) (Some newValue) (Some jsonSchema) (llm_info c) (other_fields c) in
    dispatched (updateOutputSchema newValue s)
    = dispatched s ++ [updateNodeConfigOnly (nodeID s) committed]
    /\ currentNodeConfig (updateOutputSchema newValue s) = committed
    /\ simplify jsonSchema = Some newValue.
Proof.
  apply (updateOutputSchema_commits_matching_views [(u "foo", JStr (u "string"))]).
  split; [discriminate | split; [reflexivity | split; [reflexivity|]]].
  intros k v [E | []]; inversion E; subst.
  split; [discriminate | eexists; split; [reflexivity | discriminate]].
Defined.

(** X5.  An edit of the output schema to the empty mapping, or to one
    with an empty field name or a falsy type, commits the mapping alone:
    the JSON-schema text of the configuration stays what it was, so
    the two views differ from then on. *)
Theorem updateOutputSchema_invalid_keeps_json_text (newValue : jsobj) (s : Sidebar) :
  newValue = []
  \/ (exists k v, In (k, v) newValue /\ (k = [] \/ truthy v = false)) ->
  let c := currentNodeConfig s in
  let committed :=
    mkConfig (title c) (Some newValue) (output_json_schema c) (llm_info c)
      (other_fields c) in
  dispatched (updateOutputSchema newValue s)
  = dispatched s ++ [updateNodeConfigOnly (nodeID s) committed]
  /\ currentNodeConfig (updateOutputSchema newValue s) = committed.
Proof.
  intros H c committed.
  assert (E : updateOutputSchema newValue s
              = handleInputChange (OutputSchema newValue) false s).
  { unfold updateOutputSchema.
    destruct (length (Object_keys newValue) =? 0)%nat eqn:El; [reflexivity|].
    destruct H as [-> | [k [v [Hi Hf]]]]; [discriminate El|].
    unfold generateJsonSchemaFromSchema. rewrite El.
    now rewrite (build_properties_null newValue [] k v Hi Hf). }
  rewrite E. apply (handleInputChange_immediate (OutputSchema newValue) s).
Qed.

Lemma updateOutputSchema_invalid_keeps_json_text_witness :
  let s := sample_sidebar
             (mkConfig (Some (u "llm_1")) (Some [(u "bar", JStr (u "number"))])
                (Some (dq "{'properties':{'bar':{'type':'number'}}}")) None []) in
  let newValue := [(u "foo", JStr [])] in
  last_commit (updateOutputSchema newValue s)
  = Some (mkConfig (Some (u "llm_1")) (Some newValue)
            (Some (dq "{'properties':{'bar':{'type':'number'}}}")) None []).
Proof.
  intros s newValue.
  assert (H : newValue = []
              \/ (exists k v, In (k, v) newValue /\ (k = [] \/ truthy v = false))).
  { right. exists (u "foo"), (JStr []). split; [now left | now right]. }
  destruct (updateOutputSchema_invalid_keeps_json_text newValue s H) as [Ed _].
  unfold last_commit. rewrite Ed, rev_app_distr. reflexivity.
Defined.

Lemma generated_text_truthy (m : jsobj) :
  str_truthy (JSON_stringify (schema_document (Object_keys m) (described m)) 2) = true.
Proof. reflexivity. Qed.

(** X6.  The first rendering of a node whose committed configuration
    has an output schema but no JSON-schema text (none, or the empty
    one) generates the text and makes one commit: the committed
    configuration with the text added, which
    [extractSchemaFromJsonSchema] reads back as the output schema.  The
    working copy is the loaded configuration with the text added; it
    is the configuration committed except for an LLM node without a
    model, where the working copy names [gpt-4o] and the commit names
    no model. *)
Theorem onMount_generates_missing_json_schema
    (node : FlowWorkflowNode) (nodeTypes : option FlowWorkflowNodeTypesByCategory)
    (nodeConfig : FlowWorkflowNodeConfig) (s : Sidebar) (m : jsobj) :
  output_schema nodeConfig = Some m ->
  schema_mapping m ->
  output_json_schema nodeConfig = None \/ output_json_schema nodeConfig = Some [] ->
  exists jsonSchema s',
    mountEffects (Some node) nodeTypes (Some nodeConfig) s = Normal s'
    /\ dispatched s'
       = dispatched s
           ++ [updateNodeConfigOnly (nodeID s)
                 (with_output_json_schema nodeConfig jsonSchema)]
    /\ currentNodeConfig s'
       = with_output_json_schema (initialConfig node (Some nodeConfig)) jsonSchema
    /\ simplify jsonSchema = Some m
    /\ (llm_info (initialConfig node (Some nodeConfig)) = llm_info nodeConfig ->
        last_commit s' = Some (currentNodeConfig s')).
Proof.
  intros Em Hm Hj. destruct (simplify_generated m Hm) as [Eg Es].
  exists (JSON_stringify (schema_document (Object_keys m) (described m)) 2).
  eexists. unfold mountEffects, onMount. cbn [config_or_empty]. rewrite Em.
  assert (E : str_truthy (string_or (output_json_schema nodeConfig) []) = false)
    by (destruct Hj as [-> | ->]; reflexivity).
  rewrite E. cbn [negb]. unfold initializeOutputJsonSchema. rewrite Em, Eg.
  rewrite generated_text_truthy.
  split; [reflexivity|]. split; [reflexivity|]. split; [reflexivity|].
  split; [exact Es|].
  intros El. unfold last_commit. cbn [dispatched dispatch]. rewrite rev_app_distr.
  cbn [rev app]. f_equal.
  cbn [currentNodeConfig dispatch setCurrentNodeConfig selectNode setNodeSchema].
  unfold with_output_json_schema. rewrite El. f_equal.
  - unfold initialConfig. now destruct (_ || _).
  - unfold initialConfig. now destruct (_ || _).
  - unfold initialConfig. now destruct (_ || _).
Qed.

Lemma onMount_generates_missing_json_schema_witness :
  let nodeConfig := titled_config (u "llm_1") [(u "foo", JStr (u "string"))] in
  exists jsonSchema s',
    mountEffects (Some (plain_node (u "llm_1"))) (Some sample_registry) (Some nodeConfig)
      (sample_sidebar nodeConfig) = Normal s'
    /\ last_commit s'
       = Some (mkConfig (Some (u "llm_1")) (Some [(u "foo", JStr (u "string"))])
                 (Some jsonSchema) None [])
    /\ currentNodeConfig s'
       = mkConfig (Some (u "llm_1")) (Some [(u "foo", JStr (u "string"))])
           (Some jsonSchema) (Some (LlmInfo.mk (Some (u "gpt-4o")) None None [])) []
    /\ simplify jsonSchema = Some [(u "foo", JStr (u "string"))].
Proof.
  intros nodeConfig.
  destruct (onMount_generates_missing_json_schema (plain_node (u "llm_1"))
              (Some sample_registry) nodeConfig (sample_sidebar nodeConfig)
              [(u "foo", JStr (u "string"))])
    as [jsonSchema [s' [E [Ed [Ec [Es _]]]]]].
  - reflexivity.
  - split; [discriminate | split; [reflexivity | split; [reflexivity|]]].
    intros k v [Ei | []]; inversion Ei; subst.
    split; [discriminate | eexists; split; [reflexivity | discriminate]].
  - left. reflexivity.
  - exists jsonSchema, s'. split; [exact E | split; [|split; [exact Ec | exact Es]]].
    unfold last_commit. rewrite Ed, rev_app_distr. reflexivity.
Defined.

(** X7.  The effect of the first rendering throws a TypeError when
    the store holds no configuration for the node.  Otherwise it
    changes nothing and commits nothing when the committed
    configuration has no output schema, when it already has a
    JSON-schema text, or when the output schema is one
    [generateJsonSchemaFromSchema] rejects (in particular the empty
    one, of a node without output fields). *)
Theorem onMount_throws_or_leaves_alone :
  (forall s, onMount None s = Throw TypeError)
  /\ (forall nodeConfig s,
        output_schema nodeConfig = None -> onMount (Some nodeConfig) s = Normal s)
  /\ (forall nodeConfig s text,
        output_json_schema nodeConfig = Some text -> text <> [] ->
        onMount (Some nodeConfig) s = Normal s)
  /\ (forall nodeConfig s,
        generateJsonSchemaFromSchema (output_schema nodeConfig) = None ->
        onMount (Some nodeConfig) s = Normal s)
  /\ (forall nodeConfig s,
        output_schema nodeConfig = Some [] -> onMount (Some nodeConfig) s = Normal s).
Proof.
  assert (Hgen : forall nodeConfig s,
             generateJsonSchemaFromSchema (output_schema nodeConfig) = None ->
             onMount (Some nodeConfig) s = Normal s).
  { intros nodeConfig s E. unfold onMount, initializeOutputJsonSchema. rewrite E.
    destruct (output_schema nodeConfig); [|reflexivity].
    now destruct (negb _). }
  split; [reflexivity|]. split; [|split; [|split; [exact Hgen|]]].
  - intros nodeConfig s E. unfold onMount. now rewrite E.
  - intros nodeConfig s text E Hne. unfold onMount. cbn [config_or_empty]. rewrite E.
    destruct (output_schema nodeConfig); [|reflexivity].
    destruct text; [contradiction | reflexivity].
  - intros nodeConfig s E. apply Hgen. now rewrite E.
Qed.

(* ================================================================== *)
(** ** Loading a node into the sidebar *)
(* ================================================================== *)

Lemma string_or_truthy (x : option jsstring) (d : jsstring) :
  d <> [] -> string_or x d <> [].
Proof.
  intros Hd. unfold string_or. destruct x as [[|c r]|]; cbn; congruence.
Qed.

Lemma string_or_idem (x : option jsstring) (d : jsstring) :
  string_or (Some (string_or x d)) d = string_or x d.
Proof.
  unfold string_or. destruct x as [[|c r]|]; cbn; destruct d; reflexivity.
Qed.

Lemma initialConfig_llm (node : FlowWorkflowNode)
    (nodeConfig : option FlowWorkflowNodeConfig) :
  Node.type node = u "LLMNode" \/ Node.type node = u "SingleLLMCallNode" ->
  let c := config_or_empty nodeConfig in
  let i := LlmInfo.spread (llm_info c) in
  initialConfig node nodeConfig
  = mkConfig (title c) (output_schema c) (output_json_schema c)
      (Some (LlmInfo.mk (Some (string_or (LlmInfo.model i) (u "gpt-4o")))
               (LlmInfo.max_tokens i) (LlmInfo.temperature i) (LlmInfo.rest i)))
      (other_fields c).
Proof.
  intros Ht c i.
  assert (Et : str_eqb (Node.type node) (u "LLMNode")
               || str_eqb (Node.type node) (u "SingleLLMCallNode") = true).
  { destruct Ht as [-> | ->]; reflexivity. }
  unfold initialConfig. rewrite Et. reflexivity.
Qed.

(** X8.  For a node of type [LLMNode] or [SingleLLMCallNode], the
    configuration loaded into the sidebar always names a model: the
    one the committed configuration names, or [gpt-4o] when it names
    none or the empty one.  Everything else is the committed
    configuration (the empty one when the store holds none), and
    loading the loaded configuration again changes nothing. *)
Theorem initialConfig_names_a_model (node : FlowWorkflowNode)
    (nodeConfig : option FlowWorkflowNodeConfig) :
  Node.type node = u "LLMNode" \/ Node.type node = u "SingleLLMCallNode" ->
  let c := config_or_empty nodeConfig in
  let i := LlmInfo.spread (llm_info c) in
  let c' := initialConfig node nodeConfig in
  exists model,
    c' = mkConfig (title c) (output_schema c) (output_json_schema c)
           (Some (LlmInfo.mk (Some model) (LlmInfo.max_tokens i)
                    (LlmInfo.temperature i) (LlmInfo.rest i)))
           (other_fields c)
    /\ model <> []
    /\ (forall m, LlmInfo.model i = Some m -> m <> [] -> model = m)
    /\ (LlmInfo.model i = None \/ LlmInfo.model i = Some [] -> model = u "gpt-4o")
    /\ initialConfig node (Some c') = c'.
Proof.
  intros Ht c i c'.
  exists (string_or (LlmInfo.model i) (u "gpt-4o")).
  unfold c'. rewrite (initialConfig_llm node nodeConfig Ht). fold c. fold i.
  split; [reflexivity|]. split; [now apply string_or_truthy|].
  split; [|split].
  - intros m -> Hm. destruct m; [contradiction | reflexivity].
  - intros [-> | ->]; reflexivity.
  - rewrite (initialConfig_llm node _ Ht). cbn -[string_or u].
    rewrite string_or_idem. reflexivity.
Qed.

Lemma initialConfig_names_a_model_witness :
  initialConfig (plain_node (u "llm_1")) None
  = mkConfig None None None (Some (LlmInfo.mk (Some (u "gpt-4o")) None None [])) [].
Proof.
  destruct (initialConfig_names_a_model (plain_node (u "llm_1")) None)
    as [model [E [_ [_ [Hd _]]]]].
  - right. reflexivity.
  - rewrite E, Hd; [reflexivity | left; reflexivity].
Defined.

Lemma assign_field_keeps_model (c : FlowWorkflowNodeConfig) (e : FieldEdit)
    (i : LlmInfo.t) (model : option jsstring) :
  llm_info c = Some i -> LlmInfo.model i = model ->
  option_map LlmInfo.model (llm_info (assign_field c e)) = Some model.
Proof.
  intros E <-. destruct e; cbn; rewrite E; reflexivity.
Qed.

(** X9.  Loading a node commits nothing, so the model [gpt-4o] given
    to an LLM node whose committed configuration names none exists in
    the working copy only; it reaches the store with the next edit
    that is committed at once, whichever property of the configuration
    itself that edit sets, other than [llm_info]: the commit has the
    model and the value edited. *)
Theorem default_model_is_committed_by_the_next_edit
    (node : FlowWorkflowNode) (nodeTypes : option FlowWorkflowNodeTypesByCategory)
    (nodeConfig : option FlowWorkflowNodeConfig) (s : Sidebar) (e : FieldEdit) :
  Node.type node = u "LLMNode" \/ Node.type node = u "SingleLLMCallNode" ->
  LlmInfo.model (LlmInfo.spread (llm_info (config_or_empty nodeConfig))) = None ->
  own_field_edit e = true ->
  let s1 := selectNode (Some node) nodeTypes nodeConfig s in
  dispatched s1 = dispatched s
  /\ option_map LlmInfo.model (llm_info (currentNodeConfig s1)) = Some (Some (u "gpt-4o"))
  /\ exists committed,
       dispatched (handleInputChange e false s1)
       = dispatched s ++ [updateNodeConfigOnly (nodeID s) committed]
       /\ option_map LlmInfo.model (llm_info committed) = Some (Some (u "gpt-4o"))
       /\ holds committed e.
Proof.
  intros Ht Em _ s1.
  pose proof (initialConfig_llm node nodeConfig Ht) as E. cbv zeta in E.
  rewrite Em in E. change (string_or None (u "gpt-4o")) with (u "gpt-4o") in E.
  assert (Ec : currentNodeConfig s1 = initialConfig node nodeConfig) by reflexivity.
  split; [reflexivity|]. split; [now rewrite Ec, E|].
  exists (assign_field (initialConfig node nodeConfig) e). split; [|split].
  - destruct (handleInputChange_immediate e s1) as [Ed _]. rewrite Ed, Ec. reflexivity.
  - rewrite E. eapply assign_field_keeps_model; reflexivity.
  - apply assign_field_holds.
Qed.

Lemma default_model_is_committed_by_the_next_edit_witness :
  let s1 := selectNode (Some (plain_node (u "llm_1"))) (Some sample_registry) None
              (sample_sidebar empty_config) in
  dispatched s1 = []
  /\ dispatched (handleInputChange (Other (u "system_message") (JStr (u "Be brief."))) false s1)
     = [updateNodeConfigOnly (u "llm_1")
          (mkConfig None None None
             (Some (LlmInfo.mk (Some (u "gpt-4o")) None None []))
             [(u "system_message", JStr (u "Be brief."))])].
Proof.
  intros s1.
  destruct (default_model_is_committed_by_the_next_edit (plain_node (u "llm_1"))
              (Some sample_registry) None (sample_sidebar empty_config)
              (Other (u "system_message") (JStr (u "Be brief."))))
    as [E0 [_ [committed [Ed _]]]].
  - right. reflexivity.
  - reflexivity.
  - reflexivity.
  - split; [exact E0 | reflexivity].
Defined.

(* ================================================================== *)
(** ** A buffered slider commit and the edits made after it *)
(* ================================================================== *)

Lemma slider_edit_pending (e : FieldEdit) (s : Sidebar) :
  Debounce.timerId (debouncedDispatch s) = None ->
  let s' := handleInputChange e true s in
  pending (clock s) (nodeID s) (assign_field (currentNodeConfig s) e) s'
  /\ dispatched s' = dispatched s /\ nodeID s' = nodeID s /\ clock s' = clock s
  /\ currentNodeConfig s' = assign_field (currentNodeConfig s) e.
Proof.
  intros H. destruct (first_slider_edit e s H) as [W [D [I [K C]]]].
  cbv zeta. split; [|now repeat split].
  unfold waiting in W. rewrite I, C in W. exact W.
Qed.

Lemma immediate_edit_keeps_pending l id data (e : FieldEdit) (s : Sidebar) :
  pending l id data s -> pending l id data (handleInputChange e false s).
Proof. intros H. exact H. Qed.

Lemma elapse_while_pending (ms l : N) id data (s : Sidebar) :
  pending l id data s -> clock s + ms < l + 300 ->
  pending l id data (elapse ms s) /\ dispatched (elapse ms s) = dispatched s
  /\ nodeID (elapse ms s) = nodeID s
  /\ currentNodeConfig (elapse ms s) = currentNodeConfig s
  /\ clock (elapse ms s) = clock s + ms.
Proof.
  intros [Ha [Hl [Hc [due [Ht Hd]]]]] Hms. unfold elapse.
  destruct (N.leb_spec due (clock s + ms)) as [Hdue|Hdue].
  - rewrite (expire_too_early _ due l s Ht Hdue Hl) by lia.
    rewrite (expire_not_due _ (l + 300)) by (reflexivity || (simpl; lia)).
    unfold pending. simpl. rewrite Ha.
    repeat split; try reflexivity; try lia.
    exists (l + 300). split; [reflexivity | lia].
  - rewrite !(expire_not_due _ due s Ht Hdue).
    unfold pending. simpl. rewrite Ha, Hl.
    repeat split; try reflexivity; try lia.
    exists due. split; [exact Ht | lia].
Qed.

Lemma elapse_pending_at_rest (ms l : N) id data (s : Sidebar) :
  pending l id data s -> l + 300 <= clock s + ms ->
  dispatched (elapse ms s) = dispatched s ++ [updateNodeConfigOnly id data]
  /\ currentNodeConfig (elapse ms s) = currentNodeConfig s
  /\ Debounce.timerId (debouncedDispatch (elapse ms s)) = None.
Proof.
  intros [Ha [Hl [Hc [due [Ht Hd]]]]] Hms. unfold elapse.
  assert (Hdue : due <= clock s + ms) by lia.
  destruct (N.eq_dec due (l + 300)) as [E|E].
  - rewrite (expire_at_rest _ due l s _ _ Ht Hdue Hl Ha) by lia.
    rewrite expire_without_timer by reflexivity. simpl. repeat split; reflexivity.
  - rewrite (expire_too_early _ due l s Ht Hdue Hl) by lia.
    rewrite (expire_at_rest _ (l + 300) l _ id data);
      try reflexivity; try (simpl; lia); try (simpl; exact Ha).
    simpl. repeat split; reflexivity.
Qed.

(** X10.  The debounced dispatch is never cancelled.  When a field
    is edited and committed at once while a slider edit is still
    buffered, the buffered commit is dispatched afterwards, and it
    carries the configuration as the slider left it: the configuration
    sent to the store last lacks the later edit, which the commit
    before it had. *)
Theorem buffered_slider_commit_lands_after_later_edit
    (s : Sidebar) (slid edit : FieldEdit) (gap idle : N) :
  Debounce.timerId (debouncedDispatch s) = None ->
  gap < 300 -> 300 <= gap + idle ->
  let c := currentNodeConfig s in
  let s' := elapse idle
              (handleInputChange edit false
                 (elapse gap (handleInputChange slid true s))) in
  dispatched s'
  = dispatched s
      ++ [updateNodeConfigOnly (nodeID s) (assign_field (assign_field c slid) edit);
          updateNodeConfigOnly (nodeID s) (assign_field c slid)]
  /\ last_commit s' = Some (assign_field c slid)
  /\ holds (assign_field (assign_field c slid) edit) edit.
Proof.
  intros Ht Hgap Hidle c s'.
  destruct (slider_edit_pending slid s Ht) as [P1 [D1 [I1 [K1 C1]]]].
  destruct (elapse_while_pending gap _ _ _ _ P1 ltac:(lia)) as [P2 [D2 [I2 [C2 K2]]]].
  pose proof (immediate_edit_keeps_pending _ _ _ edit _ P2) as P3.
  destruct (handleInputChange_immediate edit
              (elapse gap (handleInputChange slid true s))) as [D3 C3].
  destruct (elapse_pending_at_rest idle _ _ _ _ P3) as [D4 _].
  { change (clock (handleInputChange edit false
                     (elapse gap (handleInputChange slid true s))))
      with (clock (elapse gap (handleInputChange slid true s))).
    rewrite K2, K1. lia. }
  assert (Ed : dispatched s'
               = dispatched s
                   ++ [updateNodeConfigOnly (nodeID s)
                         (assign_field (assign_field c slid) edit);
                       updateNodeConfigOnly (nodeID s) (assign_field c slid)]).
  { unfold s'. rewrite D4, D3, D2, D1, I2, I1, C2, C1, <- app_assoc. reflexivity. }
  split; [exact Ed|]. split.
  - unfold last_commit. rewrite Ed, rev_app_distr. reflexivity.
  - apply assign_field_holds.
Qed.

Lemma buffered_slider_commit_lands_after_later_edit_witness :
  let s := sample_sidebar (config_with_llm (Some 4096%Q) (Some (1 # 2)%Q)) in
  let s' := elapse 300
              (handleInputChange (Other (u "system_message") (JStr (u "Be brief."))) false
                 (elapse 100 (handleInputChange (LlmTemperature (9 # 10)%Q) true s))) in
  dispatched s'
  = [updateNodeConfigOnly (u "llm_1")
       (mkConfig (Some (u "llm_1")) None None
          (Some (LlmInfo.mk (Some (u "gpt-4o")) (Some 4096%Q) (Some (9 # 10)%Q) []))
          [(u "system_message", JStr (u "Be brief."))]);
     updateNodeConfigOnly (u "llm_1") (config_with_llm (Some 4096%Q) (Some (9 # 10)%Q))].
Proof.
  intros s s'.
  destruct (buffered_slider_commit_lands_after_later_edit s
              (LlmTemperature (9 # 10)%Q)
              (Other (u "system_message") (JStr (u "Be brief."))) 100 300)
    as [Ed _].
  - reflexivity.
  - reflexivity.
  - discriminate.
  - exact Ed.
Defined.

(* ================================================================== *)
(** ** The store follows the working copy *)
(* ================================================================== *)

Section Immediate.
Variable convertToPythonVariableName : jsstring -> jsstring.


End Immediate.


(* ================================================================== *)
(** ** Few-shot examples and the file variable *)
(* ================================================================== *)

Lemma few_shot_examples_assigned (c : FlowWorkflowNodeConfig) (l : list json) :
  few_shot_examples (assign_field c (Other (u "few_shot_examples") (JArr l))) = l.
Proof.
  unfold few_shot_examples. cbn [assign_field other_fields].
  now rewrite js_lookup_set_same.
Qed.

Lemma splice1_snoc {A} (l : list A) (x : A) : splice1 (length l) (l ++ [x]) = l.
Proof.
  unfold splice1. rewrite firstn_app, firstn_all, Nat.sub_diag. cbn [firstn].
  rewrite skipn_all2 by (rewrite length_app; cbn; lia).
  now rewrite !app_nil_r.
Qed.

(** X12.  [handleAddNewExample] appends one empty example to the
    examples of the working copy, commits at once, and hands the
    position of the new example (the last one) to the editor;
    deleting the example at that position gives back the list of
    examples there was before. *)
Theorem added_example_is_last_and_can_be_deleted (s : Sidebar) :
  let examples := few_shot_examples (currentNodeConfig s) in
  let s1 := fst (handleAddNewExample s) in
  let index := snd (handleAddNewExample s) in
  few_shot_examples (currentNodeConfig s1) = examples ++ [empty_example]
  /\ index = length examples
  /\ nth_error (few_shot_examples (currentNodeConfig s1)) index = Some empty_example
  /\ last_commit s1 = Some (currentNodeConfig s1)
  /\ few_shot_examples (currentNodeConfig (handleDeleteExample index s1)) = examples.
Proof.
  intros examples s1 index.
  destruct (handleInputChange_immediate
              (Other (u "few_shot_examples") (JArr (examples ++ [empty_example]))) s)
    as [D C].
  assert (E1 : few_shot_examples (currentNodeConfig s1) = examples ++ [empty_example]).
  { unfold s1, handleAddNewExample. cbn [fst]. fold examples. rewrite C.
    apply few_shot_examples_assigned. }
  assert (Ei : index = length examples).
  { unfold index, handleAddNewExample. cbn [snd]. fold examples.
    rewrite length_app. cbn [length]. lia. }
  split; [exact E1 | split; [exact Ei | split; [|split]]].
  - rewrite E1, Ei, nth_error_app2, Nat.sub_diag by lia. reflexivity.
  - unfold s1, handleAddNewExample. cbn [fst]. fold examples.
    unfold last_commit. rewrite D, C, rev_app_distr. reflexivity.
  - unfold handleDeleteExample.
    destruct (handleInputChange_immediate
                (Other (u "few_shot_examples")
                   (JArr (splice1 index (few_shot_examples (currentNodeConfig s1))))) s1)
      as [_ C2].
    rewrite C2, few_shot_examples_assigned, E1, Ei. apply splice1_snoc.
Qed.

(** X13.  [handleDeleteExample] removes the example at the given
    position and no other: the examples before it keep their
    positions, those after it move up by one, and a position beyond
    the last example deletes nothing; in each case one commit is made. *)
Theorem deleted_example_is_the_one_at_index (index : nat) (s : Sidebar) :
  let examples := few_shot_examples (currentNodeConfig s) in
  let s1 := handleDeleteExample index s in
  let examples1 := few_shot_examples (currentNodeConfig s1) in
  (forall j, nth_error examples1 j
             = if (j <? index)%nat then nth_error examples j
               else nth_error examples (S j))
  /\ ((index < length examples)%nat -> S (length examples1) = length examples)
  /\ ((length examples <= index)%nat -> examples1 = examples)
  /\ last_commit s1 = Some (currentNodeConfig s1).
Proof.
  intros examples s1 examples1.
  destruct (handleInputChange_immediate
              (Other (u "few_shot_examples") (JArr (splice1 index examples))) s)
    as [D C].
  assert (E : examples1 = splice1 index examples).
  { unfold examples1, s1, handleDeleteExample. fold examples. rewrite C.
    apply few_shot_examples_assigned. }
  split; [|split; [|split]].
  - intros j. rewrite E. unfold splice1.
    destruct (Nat.ltb_spec j index) as [Hj | Hj].
    + destruct (Nat.le_gt_cases (length examples) j) as [Hl | Hl].
      * rewrite (proj2 (nth_error_None examples j) Hl).
        apply nth_error_None. rewrite length_app, length_firstn, length_skipn. lia.
      * rewrite nth_error_app1 by (rewrite length_firstn; lia).
        rewrite nth_error_firstn. now rewrite (proj2 (Nat.ltb_lt j index) Hj).
    + destruct (Nat.le_gt_cases (length examples) index) as [Hl | Hl].
      * rewrite (proj2 (nth_error_None examples (S j))) by lia.
        apply nth_error_None. rewrite length_app, length_firstn, length_skipn. lia.
      * rewrite nth_error_app2 by (rewrite length_firstn; lia).
        rewrite length_firstn, Nat.min_l by lia.
        rewrite nth_error_skipn. f_equal. lia.
  - intros Hl. rewrite E. unfold splice1.
    rewrite length_app, length_firstn, length_skipn. lia.
  - intros Hl. rewrite E. unfold splice1.
    rewrite firstn_all2 by lia. rewrite skipn_all2 by lia. apply app_nil_r.
  - unfold s1, handleDeleteExample. fold examples.
    unfold last_commit. rewrite D, C, rev_app_distr. reflexivity.
Qed.

(** X14.  The file variable chosen in the selector is the one the
    selector then shows as selected, and choosing the entry [None]
    (the empty string) commits the empty object for [url_variables],
    for which nothing is shown as selected; each choice is one
    commit, and the other fields of the configuration are kept. *)
Theorem chosen_url_variable_is_shown (value : jsstring) (s : Sidebar) :
  let s1 := changeUrlVariable value s in
  selected_url_variable (currentNodeConfig s1) = JStr value
  /\ (value = [] ->
      js_lookup (u "url_variables") (other_fields (currentNodeConfig s1)) = Some (JObj []))
  /\ last_commit s1 = Some (currentNodeConfig s1)
  /\ (forall k, k <> u "url_variables" ->
        js_lookup k (other_fields (currentNodeConfig s1))
        = js_lookup k (other_fields (currentNodeConfig s)))
  /\ llm_info (currentNodeConfig s1) = llm_info (currentNodeConfig s)
  /\ output_schema (currentNodeConfig s1) = output_schema (currentNodeConfig s).
Proof.
  intros s1. unfold s1, changeUrlVariable. clear s1. cbv zeta.
  set (v := if str_truthy value then JObj [(u "file", JStr value)] else JObj []).
  destruct (handleInputChange_immediate (Other (u "url_variables") v) s) as [D C].
  rewrite C. cbn [assign_field other_fields llm_info output_schema].
  split; [|split; [|split; [|split; [|split]]]]; try reflexivity.
  - unfold selected_url_variable. cbn [other_fields]. rewrite js_lookup_set_same.
    unfold v. destruct value as [|c r]; reflexivity.
  - intros ->. now rewrite js_lookup_set_same.
  - unfold last_commit. rewrite D, rev_app_distr. reflexivity.
  - intros k Hk. rewrite js_lookup_set.
    destruct (str_eqb (u "url_variables") k) eqn:E; [|reflexivity].
    apply str_eqb_eq in E. congruence.
Qed.

(* ================================================================== *)
(** ** The model selector and the fields that depend on the model *)
(* ================================================================== *)

Lemma replaceFirst_prefix (pattern s : jsstring) :
  startsWith pattern s = true ->
  replaceFirst pattern [] s = skipn (length pattern) s.
Proof.
  intros H. destruct s as [|c r]; cbn [replaceFirst]; rewrite H; reflexivity.
Qed.

Lemma listed_under_one provider (modelId : jsstring) :
  listed_under provider [modelId]
  = if str_eqb (provider_of modelId) provider then [listed_as modelId] else [].
Proof.
  unfold listed_under. cbn [filter].
  destruct (str_eqb (provider_of modelId) provider); reflexivity.
Qed.

Ltac compare_literals :=
  repeat match goal with
         | |- context [str_eqb (u ?a) (u ?b)] =>
             let r := eval vm_compute in (str_eqb (u a) (u b)) in
             change (str_eqb (u a) (u b)) with r
         end;
  cbv iota.

Lemma push_model_listed (g : ModelsByProvider) (modelId : jsstring) :
  let g' := push_model g modelId in
  OpenAI g' = OpenAI g ++ listed_under (u "OpenAI") [modelId]
  /\ Anthropic g' = Anthropic g ++ listed_under (u "Anthropic") [modelId]
  /\ Google g' = Google g ++ listed_under (u "Google") [modelId]
  /\ Deepseek g' = Deepseek g ++ listed_under (u "Deepseek") [modelId]
  /\ Ollama g' = Ollama g ++ listed_under (u "Ollama") [modelId].
Proof.
  cbv zeta. rewrite !listed_under_one.
  unfold push_model, listed_as, provider_of.
  destruct (startsWith (u "ollama/") modelId) eqn:E1.
  { rewrite (replaceFirst_prefix _ _ E1). compare_literals.
    cbn [OpenAI Anthropic Google Deepseek Ollama]. rewrite !app_nil_r.
    repeat split; reflexivity. }
  destruct (startsWith (u "claude") modelId) eqn:E2.
  { compare_literals. cbn [OpenAI Anthropic Google Deepseek Ollama].
    rewrite !app_nil_r. repeat split; reflexivity. }
  destruct (startsWith (u "gemini") modelId) eqn:E3.
  { compare_literals. cbn [OpenAI Anthropic Google Deepseek Ollama].
    rewrite !app_nil_r. repeat split; reflexivity. }
  destruct (startsWith (u "deepseek") modelId) eqn:E4.
  { compare_literals. cbn [OpenAI Anthropic Google Deepseek Ollama].
    rewrite !app_nil_r. repeat split; reflexivity. }
  compare_literals. cbn [OpenAI Anthropic Google Deepseek Ollama].
  rewrite !app_nil_r. repeat split; reflexivity.
Qed.

Lemma listed_under_cons provider modelId (l : list jsstring) :
  listed_under provider (modelId :: l)
  = listed_under provider [modelId] ++ listed_under provider l.
Proof.
  unfold listed_under. cbn [filter].
  destruct (str_eqb (provider_of modelId) provider); reflexivity.
Qed.

Lemma modelsByProvider_fold (enumValues : list jsstring) :
  forall g,
    let g' := fold_left push_model enumValues g in
    OpenAI g' = OpenAI g ++ listed_under (u "OpenAI") enumValues
    /\ Anthropic g' = Anthropic g ++ listed_under (u "Anthropic") enumValues
    /\ Google g' = Google g ++ listed_under (u "Google") enumValues
    /\ Deepseek g' = Deepseek g ++ listed_under (u "Deepseek") enumValues
    /\ Ollama g' = Ollama g ++ listed_under (u "Ollama") enumValues.
Proof.
  induction enumValues as [|modelId l IH]; intros g; cbv zeta.
  - cbn. rewrite !app_nil_r. repeat split; reflexivity.
  - cbn [fold_left].
    destruct (IH (push_model g modelId)) as [H1 [H2 [H3 [H4 H5]]]].
    destruct (push_model_listed g modelId) as [P1 [P2 [P3 [P4 P5]]]].
    rewrite H1, H2, H3, H4, H5, P1, P2, P3, P4, P5.
    rewrite !(listed_under_cons _ modelId l), <- !app_assoc.
    repeat split; reflexivity.
Qed.

Lemma provider_of_cases (modelId : jsstring) :
  provider_of modelId = u "OpenAI" \/ provider_of modelId = u "Anthropic"
  \/ provider_of modelId = u "Google" \/ provider_of modelId = u "Deepseek"
  \/ provider_of modelId = u "Ollama".
Proof.
  unfold provider_of.
  destruct (startsWith (u "ollama/") modelId); [tauto|].
  destruct (startsWith (u "claude") modelId); [tauto|].
  destruct (startsWith (u "gemini") modelId); [tauto|].
  destruct (startsWith (u "deepseek") modelId); tauto.
Qed.

(** X15.  The model selector lists every model of the enumeration
    once, under one provider: each of the five groups holds, in the
    order of the enumeration, the models whose identifier has the
    prefix of the provider ([ollama/], [claude], [gemini],
    [deepseek], none of them for OpenAI); an Ollama model is shown
    without the prefix [ollama/], any other under its identifier.  A
    provider has a section exactly when the enumeration has a model of
    it, and the section holds the models of its group. *)
Theorem modelsByProvider_lists_each_model_once (enumValues : list jsstring) :
  let g := modelsByProvider enumValues in
  OpenAI g = listed_under (u "OpenAI") enumValues
  /\ Anthropic g = listed_under (u "Anthropic") enumValues
  /\ Google g = listed_under (u "Google") enumValues
  /\ Deepseek g = listed_under (u "Deepseek") enumValues
  /\ Ollama g = listed_under (u "Ollama") enumValues
  /\ (length (OpenAI g) + length (Anthropic g) + length (Google g)
      + length (Deepseek g) + length (Ollama g) = length enumValues)%nat
  /\ (forall modelId, In modelId enumValues ->
        exists provider models,
          In (provider, models) (provider_sections g)
          /\ provider = provider_of modelId /\ In (listed_as modelId) models)
  /\ (forall provider models,
        In (provider, models) (provider_sections g)
        <-> models = listed_under provider enumValues
            /\ exists modelId, In modelId enumValues /\ provider_of modelId = provider).
Proof.
  intros g.
  destruct (modelsByProvider_fold enumValues (mkModelsByProvider [] [] [] [] []))
    as [H1 [H2 [H3 [H4 H5]]]].
  cbn [OpenAI Anthropic Google Deepseek Ollama app] in H1, H2, H3, H4, H5.
  fold (modelsByProvider enumValues) in H1, H2, H3, H4, H5. fold g in H1, H2, H3, H4, H5.
  assert (Hsec : forall provider,
             (0 <? length (listed_under provider enumValues))%nat = true
             <-> exists modelId, In modelId enumValues /\ provider_of modelId = provider).
  { intros provider. unfold listed_under. rewrite length_map. split.
    - destruct (filter (fun modelId => str_eqb (provider_of modelId) provider) enumValues)
        as [|modelId r] eqn:E; [discriminate|]. intros _.
      assert (Hi : In modelId (modelId :: r)) by now left.
      rewrite <- E in Hi. apply filter_In in Hi as [Hi Hp].
      apply str_eqb_eq in Hp. now exists modelId.
    - intros [modelId [Hi Hp]].
      assert (Hf : In modelId
                     (filter (fun modelId => str_eqb (provider_of modelId) provider)
                        enumValues))
        by (apply filter_In; split; [exact Hi | now apply str_eqb_eq]).
      now destruct (filter _ enumValues). }
  split; [exact H1 | split; [exact H2 | split; [exact H3 | split; [exact H4 |
    split; [exact H5 | split; [|split]]]]]].
  - rewrite H1, H2, H3, H4, H5. unfold listed_under. rewrite !length_map.
    clear. induction enumValues as [|modelId l IH]; [reflexivity|].
    cbn [filter length].
    destruct (provider_of_cases modelId) as [E | [E | [E | [E | E]]]];
      rewrite E; compare_literals; cbn [length]; lia.
  - intros modelId Hi.
    assert (Hin : In (listed_as modelId) (listed_under (provider_of modelId) enumValues)).
    { unfold listed_under. apply in_map. apply filter_In. split; [exact Hi|].
      apply str_eqb_refl. }
    assert (Hpos : forall models : list ModelOption,
               In (listed_as modelId) models -> (0 <? length models)%nat = true).
    { intros [|o r] Hm; [destruct Hm | reflexivity]. }
    exists (provider_of modelId).
    unfold provider_sections.
    destruct (provider_of_cases modelId) as [E | [E | [E | [E | E]]]]; rewrite E in *.
    + exists (OpenAI g). rewrite <- H1 in Hin. split; [|split; [reflexivity | exact Hin]].
      apply filter_In. split; [cbn [In]; tauto|]. now apply Hpos.
    + exists (Anthropic g). rewrite <- H2 in Hin. split; [|split; [reflexivity | exact Hin]].
      apply filter_In. split; [cbn [In]; tauto|]. now apply Hpos.
    + exists (Google g). rewrite <- H3 in Hin. split; [|split; [reflexivity | exact Hin]].
      apply filter_In. split; [cbn [In]; tauto|]. now apply Hpos.
    + exists (Deepseek g). rewrite <- H4 in Hin. split; [|split; [reflexivity | exact Hin]].
      apply filter_In. split; [cbn [In]; tauto|]. now apply Hpos.
    + exists (Ollama g). rewrite <- H5 in Hin. split; [|split; [reflexivity | exact Hin]].
      apply filter_In. split; [cbn [In]; tauto|]. now apply Hpos.
  - intros provider models. unfold provider_sections.
    rewrite filter_In. cbn [In snd]. rewrite H1, H2, H3, H4, H5. split.
    + intros [Hin Hl].
      assert (E : models = listed_under provider enumValues).
      { destruct Hin as [E | [E | [E | [E | [E | []]]]]]; inversion E; reflexivity. }
      split; [exact E|]. apply Hsec. now rewrite <- E.
    + intros [-> Hex]. split; [|now apply Hsec].
      destruct Hex as [modelId [_ Hp]]. subst provider.
      destruct (provider_of_cases modelId) as [E | [E | [E | [E | E]]]]; rewrite E; tauto.
Qed.

Lemma ollama_is_no_other_provider (modelId : jsstring) :
  startsWith (u "ollama/") modelId = true ->
  startsWith (u "gemini") modelId = false /\ startsWith (u "claude") modelId = false.
Proof.
  destruct modelId as [|c r]; [discriminate|].
  change (startsWith (u "ollama/") (c :: r))
    with ((111 =? c) && startsWith (u "llama/") r).
  change (startsWith (u "gemini") (c :: r)) with ((103 =? c) && startsWith (u "emini") r).
  change (startsWith (u "claude") (c :: r)) with ((99 =? c) && startsWith (u "laude") r).
  intros H. apply andb_prop in H as [H _]. apply N.eqb_eq in H. subst c.
  split; reflexivity.
Qed.

Lemma gemini_is_not_claude (modelId : jsstring) :
  startsWith (u "gemini") modelId = true -> startsWith (u "claude") modelId = false.
Proof.
  destruct modelId as [|c r]; [discriminate|].
  change (startsWith (u "gemini") (c :: r)) with ((103 =? c) && startsWith (u "emini") r).
  change (startsWith (u "claude") (c :: r)) with ((99 =? c) && startsWith (u "laude") r).
  intros H. apply andb_prop in H as [H _]. apply N.eqb_eq in H. subst c. reflexivity.
Qed.

(** X16.  The fields that depend on the provider follow the grouping
    of the selector: the field [api_base] is rendered exactly when the
    model of the working copy is one the selector lists under Ollama,
    the file input exactly when it is one listed under Google, and
    never both; without a model neither is rendered. *)
Theorem provider_fields_follow_the_selector (s : Sidebar) :
  (shows_api_base s = true
   <-> exists model, current_model s = Some model /\ provider_of model = u "Ollama")
  /\ (shows_url_variables s = true
      <-> exists model, current_model s = Some model /\ provider_of model = u "Google")
  /\ shows_api_base s && shows_url_variables s = false
  /\ (current_model s = None ->
      shows_api_base s = false /\ shows_url_variables s = false).
Proof.
  unfold shows_api_base, shows_url_variables.
  destruct (current_model s) as [model|].
  - assert (Hsome : forall (P : jsstring -> Prop),
              (exists m, Some model = Some m /\ P m) <-> P model).
    { intros P. split; [|intros H; exists model; now split].
      intros [m [Em H]]. inversion Em; subst. exact H. }
    rewrite !Hsome. unfold provider_of.
    destruct (startsWith (u "ollama/") model) eqn:E1.
    + destruct (ollama_is_no_other_provider model E1) as [E3 E2]. rewrite E3.
      split; [|split; [|split]]; try reflexivity; try discriminate.
      * split; reflexivity.
      * split; discriminate.
    + destruct (startsWith (u "gemini") model) eqn:E3.
      * rewrite (gemini_is_not_claude model E3).
        split; [|split; [|split]]; try reflexivity; try discriminate.
        -- split; discriminate.
        -- split; reflexivity.
      * split; [|split; [|split]]; try reflexivity; try discriminate.
        -- split; [discriminate|].
           destruct (startsWith (u "claude") model); [discriminate|].
           destruct (startsWith (u "deepseek") model); discriminate.
        -- split; [discriminate|].
           destruct (startsWith (u "claude") model); [discriminate|].
           destruct (startsWith (u "deepseek") model); discriminate.
  - split; [|split; [|split]].
    + split; [discriminate | intros [m [Em _]]; discriminate Em].
    + split; [discriminate | intros [m [Em _]]; discriminate Em].
    + reflexivity.
    + now split.
Qed.

(* ================================================================== *)
(** ** The order of the rendered fields *)
(* ================================================================== *)





(* ================================================================== *)
(** ** Sliders *)
(* ================================================================== *)

Lemma above_false (v bound : number) : (v <= bound)%Q -> above (Some v) bound = false.
Proof. intros H. unfold above. now rewrite (proj2 (Qle_bool_iff v bound) H). Qed.

Lemma below_false (v bound : number) : (bound <= v)%Q -> below (Some v) bound = false.
Proof. intros H. unfold below. now rewrite (proj2 (Qle_bool_iff bound v) H). Qed.

Lemma temperature_slider (key path : jsstring) (fieldMetadata : option FieldMetadata.t)
    (mc : ModelConstraints.t) (v : number) :
  str_eqb key (u "temperature") || endsWith (u ".temperature") path = true ->
  (ModelConstraints.min_temperature mc <= ModelConstraints.max_temperature mc)%Q ->
  exists shown,
    slider_range key path fieldMetadata (Some mc) (Some v)
    = (ModelConstraints.min_temperature mc, ModelConstraints.max_temperature mc, Some shown)
    /\ (ModelConstraints.min_temperature mc <= shown <= ModelConstraints.max_temperature mc)%Q
    /\ ((ModelConstraints.min_temperature mc <= v <= ModelConstraints.max_temperature mc)%Q ->
        shown = v).
Proof.
  intros Hk Hmm. unfold slider_range. rewrite Hk. cbv zeta.
  unfold below.
  destruct (Qle_bool (ModelConstraints.min_temperature mc) v) eqn:E1; cbn [negb].
  - apply Qle_bool_iff in E1. unfold above.
    destruct (Qle_bool v (ModelConstraints.max_temperature mc)) eqn:E2; cbn [negb].
    + apply Qle_bool_iff in E2. exists v.
      split; [reflexivity|]. split; [split; assumption | intros _; reflexivity].
    + exists (ModelConstraints.max_temperature mc).
      split; [reflexivity|]. split; [split; [exact Hmm | apply Qle_refl]|].
      intros [_ H]. apply Qle_bool_iff in H. congruence.
  - rewrite (above_false _ _ Hmm).
    exists (ModelConstraints.min_temperature mc).
    split; [reflexivity|]. split; [split; [apply Qle_refl | exact Hmm]|].
    intros [H _]. apply Qle_bool_iff in H. congruence.
Qed.

Lemma max_tokens_slider (parentPath : jsstring) (fieldMetadata : option FieldMetadata.t)
    (mc : ModelConstraints.t) (v : number) :
  exists lowest shown,
    slider_range (u "max_tokens") (fullPath parentPath (u "max_tokens"))
      fieldMetadata (Some mc) (Some v)
    = (lowest, ModelConstraints.max_tokens mc, Some shown)
    /\ (shown <= ModelConstraints.max_tokens mc)%Q
    /\ ((v <= ModelConstraints.max_tokens mc)%Q -> shown = v).
Proof.
  assert (Ht : str_eqb (u "max_tokens") (u "temperature")
               || endsWith (u ".temperature") (fullPath parentPath (u "max_tokens"))
               = false).
  { unfold endsWith, fullPath. rewrite rev_app_distr. reflexivity. }
  unfold slider_range. rewrite Ht. cbv zeta.
  change (str_eqb (u "max_tokens") (u "max_tokens")) with true. cbn [orb].
  unfold above.
  destruct (Qle_bool v (ModelConstraints.max_tokens mc)) eqn:E; cbn [negb].
  - apply Qle_bool_iff in E. eexists. exists v.
    split; [reflexivity|]. split; [assumption | intros _; reflexivity].
  - eexists. exists (ModelConstraints.max_tokens mc).
    split; [reflexivity|]. split; [apply Qle_refl|].
    intros H. apply Qle_bool_iff in H. congruence.
Qed.

(** X18.  The value a temperature slider shows lies within the range
    of the model of the working copy, the bounds of the slider are
    those of the model whatever the metadata of the field says, and a
    stored value within the range, 0 included, is shown as it is; a
    value that is not set stays so.  A [max_tokens] slider shows at
    most the model's limit. *)
Theorem slider_shows_value_within_model_range
    (parentPath : jsstring) (fieldMetadata : option FieldMetadata.t)
    (mc : ModelConstraints.t) (v : number) :
  (ModelConstraints.min_temperature mc <= ModelConstraints.max_temperature mc)%Q ->
  (exists shown,
     slider_range (u "temperature") (fullPath parentPath (u "temperature"))
       fieldMetadata (Some mc) (Some v)
     = (ModelConstraints.min_temperature mc, ModelConstraints.max_temperature mc,
        Some shown)
     /\ (ModelConstraints.min_temperature mc <= shown
         <= ModelConstraints.max_temperature mc)%Q
     /\ ((ModelConstraints.min_temperature mc <= v
          <= ModelConstraints.max_temperature mc)%Q -> shown = v))
  /\ snd (slider_range (u "temperature") (fullPath parentPath (u "temperature"))
            fieldMetadata (Some mc) None) = None
  /\ (exists lowest shown,
        slider_range (u "max_tokens") (fullPath parentPath (u "max_tokens"))
          fieldMetadata (Some mc) (Some v)
        = (lowest, ModelConstraints.max_tokens mc, Some shown)
        /\ (shown <= ModelConstraints.max_tokens mc)%Q
        /\ ((v <= ModelConstraints.max_tokens mc)%Q -> shown = v)).
Proof.
  intros Hmm. split; [|split].
  - apply temperature_slider; [reflexivity | exact Hmm].
  - reflexivity.
  - apply max_tokens_slider.
Qed.

Lemma slider_shows_value_within_model_range_witness :
  slider_range (u "temperature") (fullPath (u "LLMNode.config.llm_info") (u "temperature"))
    (Some (FieldMetadata.mk None (Some (u "number")) (Some 0%Q) (Some 2%Q)))
    (Some sample_constraints) (Some 0%Q)
  = (0%Q, 1%Q, Some 0%Q).
Proof.
  destruct (slider_shows_value_within_model_range (u "LLMNode.config.llm_info")
              (Some (FieldMetadata.mk None (Some (u "number")) (Some 0%Q) (Some 2%Q)))
              sample_constraints 0%Q)
    as [[shown [E [_ Hv]]] _].
  - discriminate.
  - rewrite Hv in E by (split; discriminate). exact E.
Defined.

(** X19.  After a change to a model the node type declares
    constraints for, the sliders need not correct anything: the
    temperature and the [max_tokens] they show are the ones the
    change committed. *)
Theorem sliders_show_what_changeModel_committed
    (selectedModelId parentPath : jsstring) (s : Sidebar)
    (mc : ModelConstraints.t) (fieldMetadata : option FieldMetadata.t) :
  selectedModelId <> [] ->
  getModelConstraints (nodeSchema s) selectedModelId = Some mc ->
  (ModelConstraints.min_temperature mc <= ModelConstraints.max_temperature mc)%Q ->
  let s' := changeModel selectedModelId s in
  let i := LlmInfo.spread (llm_info (currentNodeConfig s')) in
  last_commit s' = Some (currentNodeConfig s')
  /\ current_constraints s' = Some mc
  /\ snd (slider_range (u "temperature") (fullPath parentPath (u "temperature"))
            fieldMetadata (current_constraints s') (LlmInfo.temperature i))
     = LlmInfo.temperature i
  /\ snd (slider_range (u "max_tokens") (fullPath parentPath (u "max_tokens"))
            fieldMetadata (current_constraints s') (LlmInfo.max_tokens i))
     = LlmInfo.max_tokens i.
Proof.
  intros Hne Hc Hmm s' i.
  destruct (changeModel_within_constraints selectedModelId s mc Hc Hmm)
    as [i' [t [k [Ei [Em [Et [Hr [Ek Hk]]]]]]]].
  assert (Hi : i = i') by (unfold i, s'; now rewrite Ei).
  assert (Ecc : current_constraints s' = Some mc).
  { unfold current_constraints, current_model. fold i. rewrite Hi, Em.
    destruct selectedModelId; [contradiction | exact Hc]. }
  split; [|split; [exact Ecc | split]].
  - unfold last_commit, s'. rewrite changeModel_commits_once, rev_app_distr. reflexivity.
  - rewrite Ecc, Hi, Et.
    destruct (temperature_slider (u "temperature")
                (fullPath parentPath (u "temperature")) fieldMetadata mc t eq_refl Hmm)
      as [shown [E [_ Hs]]].
    rewrite E, (Hs Hr). reflexivity.
  - rewrite Ecc, Hi, Ek.
    destruct (max_tokens_slider parentPath fieldMetadata mc k)
      as [lowest [shown [E [_ Hs]]]].
    rewrite E, (Hs Hk). reflexivity.
Qed.

Lemma sliders_show_what_changeModel_committed_witness :
  let s' := changeModel (u "claude-3-haiku")
              (sample_sidebar (config_with_llm (Some 8000%Q) (Some (3 # 2)%Q))) in
  current_constraints s' = Some sample_constraints
  /\ snd (slider_range (u "temperature")
            (fullPath (u "SingleLLMCallNode.config.llm_info") (u "temperature")) None
            (current_constraints s') (Some 1%Q))
     = Some 1%Q.
Proof.
  intros s'.
  destruct (sliders_show_what_changeModel_committed (u "claude-3-haiku")
              (u "SingleLLMCallNode.config.llm_info")
              (sample_sidebar (config_with_llm (Some 8000%Q) (Some (3 # 2)%Q)))
              sample_constraints None)
    as [_ [Ec [Et _]]].
  - discriminate.
  - reflexivity.
  - discriminate.
  - split; [exact Ec | exact Et].
Defined.

Lemma split_dot_nonempty (s : jsstring) : split_dot s <> [].
Proof.
  destruct s as [|c r]; cbn [split_dot]; [discriminate|].
  destruct (c =? 46); [discriminate|]. destruct (split_dot r); discriminate.
Qed.

Lemma split_dot_app (a b : jsstring) :
  split_dot (a ++ 46 :: b) = split_dot a ++ split_dot b.
Proof.
  induction a as [|c r IH]; [reflexivity|].
  cbn [app split_dot]. destruct (c =? 46); [now rewrite IH|].
  rewrite IH. destruct (split_dot r) eqn:E; [|reflexivity].
  now destruct (split_dot_nonempty r).
Qed.

Lemma split_dot_segment (s : jsstring) : includes [46] s = false -> split_dot s = [s].
Proof.
  induction s as [|c r IH]; [reflexivity|].
  cbn [includes startsWith split_dot]. intros H.
  apply orb_false_elim in H as [H1 H2].
  rewrite andb_true_r, N.eqb_sym in H1. rewrite H1, (IH H2). reflexivity.
Qed.

Lemma last_two_app {A} (l : list A) (x y : A) : last_two (l ++ [x; y]) = [x; y].
Proof.
  unfold last_two. rewrite length_app. cbn [length].
  replace (length l + 2 - 2)%nat with (length l + 0)%nat by lia.
  rewrite skipn_app, Nat.add_0_r, skipn_all, Nat.sub_diag. reflexivity.
Qed.

(** X20.  The path a slider hands to [handleInputChange] keeps the
    last two segments of the path of its field, and only the last when
    the one before it is [config]: a field of the configuration is
    addressed by its name and a field of an object of the
    configuration by [object.name], whereas for a field nested more
    deeply the segments before the last two are dropped. *)
Theorem finalPath_keeps_last_two_segments (ancestors parent key : jsstring) :
  includes [46] parent = false -> includes [46] key = false ->
  finalPath (ancestors ++ 46 :: parent) key
  = Some (if str_eqb parent (u "config") then key else parent ++ 46 :: key).
Proof.
  intros Hp Hk. unfold finalPath.
  assert (Et : str_truthy (ancestors ++ 46 :: parent) = true)
    by (destruct ancestors; reflexivity).
  rewrite Et. cbv beta iota zeta.
  rewrite (split_dot_app (ancestors ++ 46 :: parent) key), (split_dot_app ancestors parent).
  rewrite (split_dot_segment _ Hp), (split_dot_segment _ Hk).
  assert (E : (split_dot ancestors ++ [parent]) ++ [key]
              = split_dot ancestors ++ [parent; key])
    by (now rewrite <- app_assoc).
  rewrite E, last_two_app.
  destruct (str_eqb parent (u "config")); reflexivity.
Qed.

Lemma finalPath_keeps_last_two_segments_witness :
  finalPath (u "LLMNode.config") (u "temperature") = Some (u "temperature")
  /\ finalPath (u "LLMNode.config.llm_info") (u "temperature")
     = Some (edit_key (LlmTemperature 0%Q))
  /\ finalPath (u "LLMNode.config.retrieval.ranker") (u "top_k") = Some (u "ranker.top_k").
Proof.
  split; [|split].
  - apply (finalPath_keeps_last_two_segments (u "LLMNode") (u "config") (u "temperature"));
      reflexivity.
  - apply (finalPath_keeps_last_two_segments (u "LLMNode.config") (u "llm_info")
             (u "temperature")); reflexivity.
  - apply (finalPath_keeps_last_two_segments (u "LLMNode.config.retrieval") (u "ranker")
             (u "top_k")); reflexivity.
Defined.

(* ================================================================== *)
(** ** The width of the sidebar *)
(* ================================================================== *)

Lemma constrained_width (newWidth : number) :
  (300 <= Math_min (Math_max newWidth 300) 800 <= 800)%Q.
Proof.
  split; [|apply Math_min_le_r].
  unfold Math_min. destruct (Qle_bool (Math_max newWidth 300) 800).
  - apply Math_max_ge_r.
  - discriminate.
Qed.

(** X21.  Dragging the handle never takes the sidebar out of the
    range from 300 to 800 pixels: from a width within the range,
    whatever the pointer does, the width stays within it, and so does
    every width stored when the button is released; the pointer moves
    the sidebar only between a press and a release. *)
Theorem resize_keeps_width_within_bounds (evs : list Resize.event) (r : Resize.t) :
  (300 <= Resize.width r <= 800)%Q ->
  Forall (fun w => (300 <= w <= 800)%Q) (Resize.stored r) ->
  let r' := Resize.run evs r in
  (300 <= Resize.width r' <= 800)%Q
  /\ Forall (fun w => (300 <= w <= 800)%Q) (Resize.stored r')
  /\ (forall innerWidth clientX,
        Resize.isResizing r' = false ->
        Resize.handle (Resize.MouseMove innerWidth clientX) r' = r').
Proof.
  revert r. induction evs as [|ev evs IH]; intros r Hw Hs.
  - cbv zeta. cbn [Resize.run fold_left]. split; [exact Hw | split; [exact Hs|]].
    intros innerWidth clientX E. cbn [Resize.handle]. unfold Resize.handleMouseMove.
    now rewrite E.
  - change (Resize.run (ev :: evs) r) with (Resize.run evs (Resize.handle ev r)).
    apply IH.
    + destruct ev as [|innerWidth clientX|]; cbn [Resize.handle].
      * exact Hw.
      * unfold Resize.handleMouseMove. destruct (negb (Resize.isResizing r)); [exact Hw|].
        cbv zeta. destruct (Qeq_bool _ (Resize.width r)); [exact Hw|].
        apply constrained_width.
      * unfold Resize.handleMouseUp. destruct (Resize.isResizing r); exact Hw.
    + destruct ev as [|innerWidth clientX|]; cbn [Resize.handle].
      * exact Hs.
      * unfold Resize.handleMouseMove. destruct (negb (Resize.isResizing r)); [exact Hs|].
        cbv zeta. destruct (Qeq_bool _ (Resize.width r)); exact Hs.
      * unfold Resize.handleMouseUp. destruct (Resize.isResizing r); [|exact Hs].
        cbn [Resize.stored]. apply Forall_app. split; [exact Hs|].
        constructor; [exact Hw | constructor].
Qed.

Lemma resize_keeps_width_within_bounds_witness :
  let r' := Resize.run
              [Resize.MouseMove 1280 100; Resize.MouseDown; Resize.MouseMove 1280 100;
               Resize.MouseMove 1280 1200; Resize.MouseUp; Resize.MouseMove 1280 700]
              (Resize.mk 400 false []) in
  (300 <= Resize.width r' <= 800)%Q
  /\ Forall (fun w => (300 <= w <= 800)%Q) (Resize.stored r')
  /\ Resize.stored r' = [300%Q].
Proof.
  intros r'.
  destruct (resize_keeps_width_within_bounds
              [Resize.MouseMove 1280 100; Resize.MouseDown; Resize.MouseMove 1280 100;
               Resize.MouseMove 1280 1200; Resize.MouseUp; Resize.MouseMove 1280 700]
              (Resize.mk 400 false []))
    as [Hw [Hs _]].
  - split; discriminate.
  - constructor.
  - split; [exact Hw | split; [exact Hs | reflexivity]].
Defined.

(* ================================================================== *)
(** ** A created node, seen from the sidebar *)
(* ================================================================== *)

Lemma createNode_some (nodeTypes : FlowWorkflowNodeTypesByCategory) (type id : jsstring)
    (position : Position) (parentId : option jsstring) (dimensions : option Dimensions)
    (node : FlowWorkflowNode) (config' : FlowWorkflowNodeConfig) :
  createNode nodeTypes type id position parentId dimensions = Some (node, config') ->
  exists nodeType,
    find_node_type nodeTypes type = Some nodeType
    /\ name nodeType = type
    /\ Node.id node = id /\ Node.type node = type
    /\ Node.position node = position /\ Node.measured node = dimensions
    /\ Node.parentId node = parentId
    /\ NodeData.title (Node.data node) = id
    /\ config' = mkConfig (Some id) (output_schema (config nodeType))
                   (output_json_schema (config nodeType)) (llm_info (config nodeType))
                   (other_fields (config nodeType)).
Proof.
  unfold createNode. destruct (find_node_type nodeTypes type) as [nodeType|] eqn:E;
    [|discriminate].
  destruct (find_node_type_some nodeTypes type nodeType E) as [En _].
  cbv zeta. intros H. inversion H; subst node config'. clear H.
  exists nodeType. cbn. repeat split; try reflexivity; exact En.
Qed.

(** X22.  A node made by [createNode] is one the sidebar can show:
    selecting it resolves, in the same registry, the node type whose
    defaults the factory copied, and loads the configuration the
    factory returned (with the default model for the LLM types).  The
    node and its configuration carry the same identifier as title, and
    the node is confined to its parent exactly when it was given one. *)
Theorem created_node_resolves_to_its_type
    (nodeTypes : FlowWorkflowNodeTypesByCategory) (type id : jsstring)
    (position : Position) (parentId : option jsstring) (dimensions : option Dimensions)
    (node : FlowWorkflowNode) (config' : FlowWorkflowNodeConfig) (s : Sidebar) :
  type <> [] ->
  createNode nodeTypes type id position parentId dimensions = Some (node, config') ->
  let s' := selectNode (Some node) (Some nodeTypes) (Some config') s in
  exists nodeType,
    nodeSchema s' = Some nodeType
    /\ name nodeType = type
    /\ currentNodeConfig s' = initialConfig node (Some config')
    /\ title (currentNodeConfig s') = Some id
    /\ NodeData.title (Node.data node) = id
    /\ output_schema (currentNodeConfig s') = output_schema (config nodeType)
    /\ other_fields (currentNodeConfig s') = other_fields (config nodeType)
    /\ (Node.extent node = Some (u "parent")
        <-> exists p, parentId = Some p /\ p <> [])
    /\ (Node.expandParent node = Some true <-> Node.extent node = Some (u "parent"))
    /\ dispatched s' = dispatched s.
Proof.
  intros Hne H s'.
  destruct (createNode_some _ _ _ _ _ _ _ _ H)
    as [nodeType [Ef [En [Ei [Et [_ [_ [Ep [Ed Ec]]]]]]]]].
  exists nodeType.
  assert (Es : nodeSchema s' = Some nodeType).
  { unfold s', selectNode. cbn [nodeSchema setCurrentNodeConfig setNodeSchema].
    rewrite Et. unfold string_or. destruct type; [contradiction | exact Ef]. }
  assert (Eit : forall c, title (initialConfig node (Some c)) = title c
                          /\ output_schema (initialConfig node (Some c)) = output_schema c
                          /\ other_fields (initialConfig node (Some c)) = other_fields c).
  { intros c. unfold initialConfig.
    destruct (str_eqb (Node.type node) (u "LLMNode")
              || str_eqb (Node.type node) (u "SingleLLMCallNode"));
      repeat split; reflexivity. }
  destruct (Eit config') as [E1 [E2 E3]].
  assert (Ecur : currentNodeConfig s' = initialConfig node (Some config')) by reflexivity.
  split; [exact Es | split; [exact En | split; [exact Ecur|]]].
  rewrite Ecur, E1, E2, E3, Ec. cbn [title output_schema other_fields].
  split; [reflexivity | split; [exact Ed | split; [reflexivity | split; [reflexivity|]]]].
  unfold createNode in H. rewrite Ef in H. cbv zeta in H.
  inversion H; subst node. cbn [Node.extent Node.expandParent].
  destruct parentId as [[|c r]|]; cbn [str_truthy].
  - split; [split|split; [split; intros X; (reflexivity || discriminate X) | reflexivity]].
    + discriminate.
    + intros [p [Hp Hn]]. inversion Hp; subst. contradiction.
  - split; [split|split; [split; intros X; (reflexivity || discriminate X) | reflexivity]].
    + intros _. eexists. split; [reflexivity | discriminate].
    + reflexivity.
  - split; [split|split; [split; intros X; (reflexivity || discriminate X) | reflexivity]].
    + discriminate.
    + intros [p [Hp _]]. discriminate Hp.
Qed.

Lemma created_node_resolves_to_its_type_witness :
  exists node config',
    createNode sample_registry (u "SingleLLMCallNode") (u "llm_2") (mkPosition 10 20)
      (Some (u "group_1")) None = Some (node, config')
    /\ nodeSchema (selectNode (Some node) (Some sample_registry) (Some config')
                     (sample_sidebar empty_config))
       = Some sample_node_type
    /\ Node.extent node = Some (u "parent").
Proof.
  eexists. eexists. split; [reflexivity|].
  destruct (created_node_resolves_to_its_type sample_registry (u "SingleLLMCallNode")
              (u "llm_2") (mkPosition 10 20) (Some (u "group_1")) None _ _
              (sample_sidebar empty_config) ltac:(discriminate) eq_refl)
    as [nodeType [Es [_ [_ [_ [_ [_ [_ [Hx _]]]]]]]]].
  split; [reflexivity|].
  apply Hx. eexists. split; [reflexivity | discriminate].
Defined.

(* ================================================================== *)
(** ** Upstream fields, edge by edge *)
(* ================================================================== *)

Lemma collectIncomingSchema_flat_map (nodes : list FlowWorkflowNode) (edges : list Edge)
    (configs : list (jsstring * FlowWorkflowNodeConfig)) (nodeID : jsstring) :
  collectIncomingSchema nodes edges configs nodeID
  = flat_map (upstream_fields_of_edge nodes configs)
      (filter (fun edge => str_eqb (target edge) nodeID) edges).
Proof. unfold collectIncomingSchema. apply (collect_fold nodes configs _ []). Qed.

(** X23.  The upstream fields are collected edge by edge: the fields
    for a list of edges are those for its first part followed by those
    for its second part, an edge into another node contributes
    nothing, and so does an edge whose source is not among the nodes
    or has no committed configuration. *)
Theorem collectIncomingSchema_is_edge_wise
    (nodes : list FlowWorkflowNode) (configs : list (jsstring * FlowWorkflowNodeConfig))
    (nodeID : jsstring) :
  (forall edges1 edges2,
      collectIncomingSchema nodes (edges1 ++ edges2) configs nodeID
      = collectIncomingSchema nodes edges1 configs nodeID
          ++ collectIncomingSchema nodes edges2 configs nodeID)
  /\ (forall edge edges,
        target edge <> nodeID ->
        collectIncomingSchema nodes (edge :: edges) configs nodeID
        = collectIncomingSchema nodes edges configs nodeID)
  /\ (forall edge edges,
        (forall n, In n nodes -> Node.id n <> source edge) ->
        collectIncomingSchema nodes (edge :: edges) configs nodeID
        = collectIncomingSchema nodes edges configs nodeID)
  /\ (forall edge edges,
        assoc (source edge) configs = None ->
        collectIncomingSchema nodes (edge :: edges) configs nodeID
        = collectIncomingSchema nodes edges configs nodeID).
Proof.
  split; [|split; [|split]].
  - intros edges1 edges2. rewrite !collectIncomingSchema_flat_map.
    now rewrite filter_app, flat_map_app.
  - intros edge edges Ht. rewrite !collectIncomingSchema_flat_map. cbn [filter].
    apply str_eqb_neq in Ht. now rewrite Ht.
  - intros edge edges Hn. rewrite !collectIncomingSchema_flat_map. cbn [filter].
    destruct (str_eqb (target edge) nodeID); [|reflexivity].
    cbn [flat_map]. unfold upstream_fields_of_edge at 1.
    destruct (find (fun n => str_eqb (Node.id n) (source edge)) nodes) as [n|] eqn:E;
      [|reflexivity].
    apply find_some in E as [Hi E]. apply str_eqb_eq in E. now destruct (Hn n Hi).
  - intros edge edges Ha. rewrite !collectIncomingSchema_flat_map. cbn [filter].
    destruct (str_eqb (target edge) nodeID); [|reflexivity].
    cbn [flat_map]. unfold upstream_fields_of_edge at 1.
    destruct (find (fun n => str_eqb (Node.id n) (source edge)) nodes) as [n|] eqn:E;
      [|reflexivity].
    apply find_some in E as [_ E]. apply str_eqb_eq in E. rewrite E, Ha. reflexivity.
Qed.

(** X24.  The output fields of a node made by [createNode] are offered
    to the nodes it is connected to under its identifier: the title the
    factory puts into its configuration is the identifier, so each
    field [f] of the node type's output schema appears as [id.f], in
    the order of the schema. *)
Theorem created_node_offers_fields_under_its_id
    (nodeTypes : FlowWorkflowNodeTypesByCategory) (type id : jsstring)
    (position : Position) (parentId : option jsstring) (dimensions : option Dimensions)
    (node : FlowWorkflowNode) (config' : FlowWorkflowNodeConfig)
    (nodes : list FlowWorkflowNode) (configs : list (jsstring * FlowWorkflowNodeConfig))
    (schema : jsobj) (downstream : jsstring) :
  createNode nodeTypes type id position parentId dimensions = Some (node, config') ->
  output_schema config' = Some schema ->
  find (fun n => str_eqb (Node.id n) id) nodes = Some node ->
  assoc id configs = Some config' ->
  collectIncomingSchema nodes [mkEdge id downstream] configs downstream
  = map (fun key => id ++ 46 :: key) (Object_keys schema).
Proof.
  intros H Hs Hf Ha.
  destruct (createNode_some _ _ _ _ _ _ _ _ H) as [nodeType [_ [_ [Ei [_ [_ [_ [_ [_ Ec]]]]]]]]].
  rewrite collectIncomingSchema_flat_map. cbn [filter target].
  rewrite str_eqb_refl. cbn [flat_map]. rewrite app_nil_r.
  unfold upstream_fields_of_edge. cbn [source]. rewrite Hf, Ei, Ha, Hs.
  assert (Et : title config' = Some id) by (rewrite Ec; reflexivity).
  rewrite Et. destruct id; reflexivity.
Qed.

Lemma created_node_offers_fields_under_its_id_witness :
  let registry :=
    [(u "AI", [mkNodeType (u "LLMNode")
                 (mkConfig None (Some [(u "response", JStr (u "string"))]) None None [])
                 (mkVisualTag (u "LLM") (u "#C7CEEA")) None (Some (u "AI")) None])] in
  exists node config',
    createNode registry (u "LLMNode") (u "llm_2") (mkPosition 0 0) None None
    = Some (node, config')
    /\ collectIncomingSchema [plain_node (u "out"); node] [mkEdge (u "llm_2") (u "out")]
         [(u "llm_2", config')] (u "out")
       = [u "llm_2.response"].
Proof.
  intros registry. eexists. eexists. split; [reflexivity|].
  etransitivity;
    [eapply (created_node_offers_fields_under_its_id registry (u "LLMNode") (u "llm_2")
               (mkPosition 0 0) None None); reflexivity
    | reflexivity].
Defined.

(* ================================================================== *)
(** ** Schema translator: white space and escaped quotes *)
(* ================================================================== *)

Lemma space_is_no_backslash (c : code_unit) : is_js_space c = true -> (c =? BACKSLASH) = false.
Proof.
  intros H. destruct (c =? BACKSLASH) eqn:E; [|reflexivity].
  apply N.eqb_eq in E. subst c. discriminate H.
Qed.

Lemma replace_escaped_plain (x : code_unit) (by_ s : jsstring) :
  no_backslash s = true -> replace_escaped x by_ s = s.
Proof.
  induction s as [|c r IH]; [reflexivity|].
  intros H. cbn [no_backslash forallb] in H. apply andb_prop in H as [Hc Hr].
  apply negb_true_iff in Hc. cbn [replace_escaped].
  destruct r as [|d r']; [reflexivity|].
  rewrite Hc. cbn [andb]. f_equal. exact (IH Hr).
Qed.

Lemma blank_no_backslash (s : jsstring) : blank s = true -> no_backslash s = true.
Proof.
  induction s as [|c r IH]; [reflexivity|].
  cbn [blank no_backslash forallb]. intros H. apply andb_prop in H as [Hc Hr].
  rewrite (space_is_no_backslash c Hc). exact (IH Hr).
Qed.

Lemma replace_escaped_pair (x : code_unit) (by_ : jsstring) c d (r : jsstring) :
  replace_escaped x by_ (c :: d :: r)
  = if (c =? BACKSLASH) && (d =? x) then by_ ++ replace_escaped x by_ r
    else c :: replace_escaped x by_ (d :: r).
Proof. reflexivity. Qed.

Lemma replace_escaped_before_blank (x : code_unit) (by_ pad : jsstring) :
  is_js_space x = false -> blank pad = true ->
  forall n s, (length s <= n)%nat ->
    replace_escaped x by_ (s ++ pad) = replace_escaped x by_ s ++ pad.
Proof.
  intros Hx Hpad.
  assert (Hplain : replace_escaped x by_ pad = pad)
    by (apply replace_escaped_plain; now apply blank_no_backslash).
  induction n as [|n IH]; intros s Hn.
  - destruct s; [exact Hplain | cbn in Hn; lia].
  - destruct s as [|c [|d r]].
    + exact Hplain.
    + destruct pad as [|p pad']; [reflexivity|].
      change ([c] ++ p :: pad') with (c :: p :: pad').
      rewrite replace_escaped_pair, Hplain.
      cbn [blank forallb] in Hpad. apply andb_prop in Hpad as [Hp _].
      assert (E : (p =? x) = false).
      { destruct (p =? x) eqn:E; [|reflexivity]. apply N.eqb_eq in E. congruence. }
      rewrite E, andb_false_r. reflexivity.
    + change ((c :: d :: r) ++ pad) with (c :: d :: (r ++ pad)).
      rewrite !replace_escaped_pair. cbn [length] in Hn.
      destruct ((c =? BACKSLASH) && (d =? x)).
      * rewrite (IH r) by lia. now rewrite app_assoc.
      * change (d :: r ++ pad) with ((d :: r) ++ pad).
        rewrite (IH (d :: r)) by (cbn [length]; lia). reflexivity.
Qed.

Lemma replace_escaped_after_blank (x : code_unit) (by_ pad s : jsstring) :
  blank pad = true ->
  replace_escaped x by_ (pad ++ s) = pad ++ replace_escaped x by_ s.
Proof.
  induction pad as [|c r IH]; [reflexivity|].
  cbn [blank forallb]. intros H. apply andb_prop in H as [Hc Hr].
  change ((c :: r) ++ s) with (c :: (r ++ s)).
  change ((c :: r) ++ replace_escaped x by_ s)
    with (c :: (r ++ replace_escaped x by_ s)).
  rewrite <- (IH Hr).
  destruct (r ++ s) as [|d t]; [reflexivity|].
  rewrite replace_escaped_pair, (space_is_no_backslash c Hc). reflexivity.
Qed.

Lemma replace_escaped_padded (x : code_unit) (by_ before s after : jsstring) :
  is_js_space x = false -> blank before = true -> blank after = true ->
  replace_escaped x by_ (before ++ s ++ after)
  = before ++ replace_escaped x by_ s ++ after.
Proof.
  intros Hx Hb Ha. rewrite (replace_escaped_after_blank _ _ _ _ Hb).
  now rewrite (replace_escaped_before_blank x by_ after Hx Ha (length s) s (le_n _)).
Qed.

Lemma trimStart_blank (pad s : jsstring) :
  blank pad = true -> trimStart (pad ++ s) = trimStart s.
Proof.
  induction pad as [|c r IH]; [reflexivity|].
  cbn [blank forallb]. intros H. apply andb_prop in H as [Hc Hr].
  cbn [app trimStart]. rewrite Hc. exact (IH Hr).
Qed.

Lemma blank_rev (pad : jsstring) : blank (rev pad) = blank pad.
Proof.
  unfold blank. induction pad as [|c r IH]; [reflexivity|].
  cbn [rev forallb]. rewrite forallb_app, IH. cbn [forallb]. 
  now rewrite andb_true_r, andb_comm.
Qed.

Lemma trimStart_app_nonblank (s t : jsstring) :
  trimStart s <> [] -> trimStart (s ++ t) = trimStart s ++ t.
Proof.
  induction s as [|c r IH]; [contradiction|].
  cbn [app trimStart]. destruct (is_js_space c); [exact IH | reflexivity].
Qed.

Lemma trimStart_all_blank (s : jsstring) : trimStart s = [] -> blank s = true.
Proof.
  induction s as [|c r IH]; [reflexivity|].
  cbn [trimStart blank forallb]. destruct (is_js_space c); [exact IH | discriminate].
Qed.

Lemma trim_padded (before s after : jsstring) :
  blank before = true -> blank after = true ->
  trim (before ++ s ++ after) = trim s.
Proof.
  intros Hb Ha. unfold trim. rewrite (trimStart_blank _ _ Hb).
  destruct (trimStart s) as [|c r] eqn:E.
  - assert (Hs : blank (s ++ after) = true).
    { unfold blank. rewrite forallb_app. fold (blank s). fold (blank after).
      now rewrite (trimStart_all_blank s E), Ha. }
    rewrite <- (app_nil_r (s ++ after)), (trimStart_blank _ [] Hs). reflexivity.
  - rewrite trimStart_app_nonblank by (rewrite E; discriminate). rewrite E.
    unfold trimEnd. rewrite rev_app_distr, trimStart_blank by now rewrite blank_rev.
    reflexivity.
Qed.

Lemma remove_backslashes_app (a b : jsstring) :
  remove_backslashes (a ++ b) = remove_backslashes a ++ remove_backslashes b.
Proof. apply filter_app. Qed.

Lemma remove_backslashes_plain (s : jsstring) :
  no_backslash s = true -> remove_backslashes s = s.
Proof.
  induction s as [|c r IH]; [reflexivity|].
  cbn [no_backslash forallb]. intros H. apply andb_prop in H as [Hc Hr].
  unfold remove_backslashes. cbn [filter]. rewrite Hc. f_equal. exact (IH Hr).
Qed.

Lemma cleaned_padded (before s after : jsstring) :
  blank before = true -> blank after = true ->
  cleaned (before ++ s ++ after) = cleaned s.
Proof.
  intros Hb Ha. unfold cleaned.
  rewrite !(fun x by_ s Hx => replace_escaped_padded x by_ before s after Hx Hb Ha)
    by reflexivity.
  rewrite !remove_backslashes_app.
  rewrite (remove_backslashes_plain before (blank_no_backslash _ Hb)).
  rewrite (remove_backslashes_plain after (blank_no_backslash _ Ha)).
  now apply trim_padded.
Qed.

(** X25.  White space around the text makes no difference to
    [extractSchemaFromJsonSchema], neither to what it returns nor to
    what it logs; this holds for every character [trim] strips,
    including those that JSON itself does not accept as white space,
    such as the no-break space. *)
Theorem simplify_ignores_surrounding_space (before text after : jsstring) :
  blank before = true -> blank after = true ->
  extractSchemaFromJsonSchema (before ++ text ++ after) = extractSchemaFromJsonSchema text
  /\ simplify (before ++ text ++ after) = simplify text.
Proof.
  intros Hb Ha.
  assert (E : extractSchemaFromJsonSchema (before ++ text ++ after)
              = extractSchemaFromJsonSchema text).
  { unfold extractSchemaFromJsonSchema, extract_body, parse_schema_text.
    now rewrite (trim_padded _ _ _ Hb Ha), (cleaned_padded _ _ _ Hb Ha). }
  split; [exact E|]. unfold simplify. now rewrite E.
Qed.

Lemma simplify_ignores_surrounding_space_witness :
  simplify ([160; 10] ++ dq "{'properties':{'foo':{'type':'string'}}}" ++ [9; 65279])
  = Some [(u "foo", JStr (u "string"))]
  /\ JSON_parse ([160; 10] ++ dq "{'properties':{'foo':{'type':'string'}}}" ++ [9; 65279])
     = None.
Proof.
  split; [|reflexivity].
  destruct (simplify_ignores_surrounding_space [160; 10]
              (dq "{'properties':{'foo':{'type':'string'}}}") [9; 65279])
    as [_ E].
  - reflexivity.
  - reflexivity.
  - exact (eq_trans E eq_refl).
Defined.

Lemma no_backslash_app (a b : jsstring) :
  no_backslash (a ++ b) = no_backslash a && no_backslash b.
Proof. apply forallb_app. Qed.

Lemma ordinary_escape_unit (c : code_unit) : ordinary c = true -> escape_unit c = [c].
Proof.
  unfold ordinary. intros H.
  apply andb_prop in H as [H _]. apply andb_prop in H as [H _].
  apply andb_prop in H as [H Hb]. apply andb_prop in H as [Hc Hq].
  apply N.leb_le in Hc. apply negb_true_iff in Hq, Hb.
  unfold escape_unit. rewrite Hq, Hb.
  destruct (N.eqb_spec c 8); [lia|]. destruct (N.eqb_spec c 9); [lia|].
  destruct (N.eqb_spec c 10); [lia|]. destruct (N.eqb_spec c 12); [lia|].
  destruct (N.eqb_spec c 13); [lia|].
  destruct (N.ltb_spec c 32); [lia | reflexivity].
Qed.

Lemma ordinary_quote_chars (s : jsstring) :
  forallb ordinary s = true -> quote_chars s = s.
Proof.
  induction s as [|c r IH]; [reflexivity|].
  cbn [forallb]. intros H. apply andb_prop in H as [Hc Hr].
  pose proof (ordinary_escape_unit c Hc) as He.
  unfold ordinary in Hc.
  apply andb_prop in Hc as [Hc Hl]. apply andb_prop in Hc as [_ Hh].
  apply negb_true_iff in Hl, Hh.
  cbn [quote_chars]. rewrite Hh, Hl, He, (IH Hr). reflexivity.
Qed.

Lemma ordinary_no_backslash (s : jsstring) :
  forallb ordinary s = true -> no_backslash s = true.
Proof.
  induction s as [|c r IH]; [reflexivity|].
  cbn [forallb no_backslash]. intros H. apply andb_prop in H as [Hc Hr].
  fold (no_backslash r). rewrite (IH Hr), andb_true_r.
  unfold ordinary in Hc.
  apply andb_prop in Hc as [Hc _]. apply andb_prop in Hc as [Hc _].
  now apply andb_prop in Hc as [_ Hc].
Qed.

Lemma no_backslash_quoted (s : jsstring) :
  forallb ordinary s = true -> no_backslash (QuoteJSONString s) = true.
Proof.
  intros H. unfold QuoteJSONString. rewrite (ordinary_quote_chars s H).
  change (DQUOTE :: s ++ [DQUOTE]) with ([DQUOTE] ++ s ++ [DQUOTE]).
  rewrite !no_backslash_app, (ordinary_no_backslash s H). reflexivity.
Qed.

Lemma no_backslash_spaces (n : nat) : no_backslash (spaces n) = true.
Proof. induction n as [|n IH]; [reflexivity | exact IH]. Qed.

Lemma no_backslash_join (sep : jsstring) (parts : list jsstring) :
  no_backslash sep = true -> forallb no_backslash parts = true ->
  no_backslash (join_with sep parts) = true.
Proof.
  intros Hs. induction parts as [|p r IH]; [reflexivity|].
  cbn [forallb join_with]. intros H. apply andb_prop in H as [Hp Hr].
  destruct r as [|q r']; [exact Hp|].
  rewrite !no_backslash_app, Hp, Hs. exact (IH Hr).
Qed.

Lemma no_backslash_wrap (opening closing : code_unit) gap indent (parts : list jsstring) :
  (opening =? BACKSLASH) = false -> (closing =? BACKSLASH) = false ->
  forallb no_backslash parts = true ->
  no_backslash (wrap opening closing gap indent parts) = true.
Proof.
  intros Ho Hc Hp.
  assert (H1 : no_backslash [opening] = true) by (cbn; now rewrite Ho).
  assert (H2 : no_backslash [closing] = true) by (cbn; now rewrite Hc).
  unfold wrap. destruct parts as [|p r].
  - change [opening; closing] with ([opening] ++ [closing]).
    now rewrite no_backslash_app, H1, H2.
  - destruct gap as [|g].
    + change (opening :: join_with [44] (p :: r) ++ [closing])
        with ([opening] ++ join_with [44] (p :: r) ++ [closing]).
      rewrite !no_backslash_app, H1, H2, no_backslash_join; reflexivity || exact Hp.
    + change (opening :: NEWLINE :: spaces (indent + S g)
                ++ join_with (44 :: NEWLINE :: spaces (indent + S g)) (p :: r)
                ++ NEWLINE :: spaces indent ++ [closing])
        with ([opening] ++ [NEWLINE] ++ spaces (indent + S g)
                ++ join_with ([44; NEWLINE] ++ spaces (indent + S g)) (p :: r)
                ++ [NEWLINE] ++ spaces indent ++ [closing]).
      rewrite !no_backslash_app, H1, H2, !no_backslash_spaces, no_backslash_join;
        try reflexivity; try exact Hp.
      now rewrite no_backslash_app, no_backslash_spaces.
Qed.

(** The text [JSON.stringify] writes for a value made of ordinary
    characters has no backslash. *)
Lemma no_backslash_serialize :
  forall v, ordinary_value v = true ->
  forall gap indent, no_backslash (serialize gap indent v) = true.
Proof.
  induction v as [| b | m e | s | l IH | o IH] using json_induction;
    intros H gap indent.
  - reflexivity.
  - destruct b; reflexivity.
  - discriminate H.
  - now apply no_backslash_quoted.
  - cbn [serialize]. apply no_backslash_wrap; try reflexivity.
    cbn [ordinary_value] in H. revert H.
    induction IH as [|x r Hx _ IHr]; [reflexivity|].
    cbn [forallb map]. intros H. apply andb_prop in H as [H1 H2].
    rewrite (Hx H1), (IHr H2). reflexivity.
  - cbn [serialize]. apply no_backslash_wrap; try reflexivity.
    cbn [ordinary_value] in H. revert H.
    induction IH as [|[k x] r Hx _ IHr]; [reflexivity|].
    cbn [forallb map fst snd]. intros H. apply andb_prop in H as [H1 H2].
    apply andb_prop in H1 as [Hk H1]. cbn [snd] in Hx.
    rewrite !no_backslash_app, (no_backslash_quoted k Hk), (Hx H1), (IHr H2).
    destruct gap; reflexivity.
Qed.

Lemma escape_quotes_app (a b : jsstring) :
  escape_quotes (a ++ b) = escape_quotes a ++ escape_quotes b.
Proof. apply flat_map_app. Qed.

Lemma escape_quotes_nil (s : jsstring) : escape_quotes s = [] -> s = [].
Proof.
  destruct s as [|c r]; [reflexivity|].
  cbn [escape_quotes flat_map]. destruct (c =? DQUOTE); discriminate.
Qed.

(** Unescaping the quotes gives back a text that had no backslash. *)
Lemma unescape_quotes (s : jsstring) :
  no_backslash s = true ->
  replace_escaped DQUOTE [DQUOTE] (escape_quotes s) = s.
Proof.
  induction s as [|c r IH]; [reflexivity|].
  cbn [no_backslash forallb]. intros H. apply andb_prop in H as [Hc Hr].
  apply negb_true_iff in Hc. specialize (IH Hr).
  change (escape_quotes (c :: r))
    with ((if c =? DQUOTE then [BACKSLASH; DQUOTE] else [c]) ++ escape_quotes r).
  destruct (N.eqb_spec c DQUOTE) as [-> | Hq].
  - change ([BACKSLASH; DQUOTE] ++ escape_quotes r)
      with (BACKSLASH :: DQUOTE :: escape_quotes r).
    rewrite replace_escaped_pair, IH. reflexivity.
  - change ([c] ++ escape_quotes r) with (c :: escape_quotes r).
    destruct (escape_quotes r) as [|d t] eqn:E.
    + apply escape_quotes_nil in E. now subst r.
    + rewrite replace_escaped_pair, Hc, IH. reflexivity.
Qed.

Lemma cleaned_escaped (s : jsstring) :
  no_backslash s = true -> cleaned (escape_quotes s) = trim s.
Proof.
  intros H. unfold cleaned.
  rewrite (unescape_quotes s H), !(replace_escaped_plain _ _ s H).
  now rewrite (remove_backslashes_plain s H).
Qed.

(** A text that opens an object and goes on with a backslash is not
    JSON. *)
Lemma JSON_parse_escaped_member (s r r' : jsstring) :
  skip_ws s = 123 :: r -> skip_ws r = BACKSLASH :: r' -> JSON_parse s = None.
Proof.
  intros H1 H2. unfold JSON_parse.
  rewrite (parse_value_object _ s r BACKSLASH r' H1 H2 eq_refl).
  destruct (length s + length s)%nat as [|n]; [reflexivity|].
  cbn [parse_members]. rewrite H2. reflexivity.
Qed.

Lemma generated_text_opening (keys : list jsstring) (properties : jsobj) :
  keys <> [] ->
  exists A, JSON_stringify (schema_document keys properties) 2
            = 123 :: 10 :: 32 :: 32 :: 34 :: A ++ [125].
Proof.
  intros Hk. rewrite (schema_document_layout keys properties Hk).
  match goal with
  | |- context [join_with ?sep (?p :: ?ps)] =>
      destruct (join_with_head sep p ps) as [Z EZ]; rewrite EZ
  end.
  exists (u "type" ++ dq "': 'object'" ++ Z ++ [NEWLINE]).
  change (dq "'type': 'object'") with (34 :: u "type" ++ dq "': 'object'").
  cbn [NEWLINE_after spaces repeat app]. unfold NEWLINE, SPACE.
  do 5 f_equal. rewrite <- !app_assoc. reflexivity.
Qed.

Lemma ordinary_schema_document (m : jsobj) :
  (forall k v, In (k, v) m ->
     forallb ordinary k = true /\ exists s, v = JStr s /\ forallb ordinary s = true) ->
  ordinary_value (schema_document (Object_keys m) (described m)) = true.
Proof.
  intros H. unfold schema_document. cbn [ordinary_value forallb fst snd].
  change (forallb ordinary (u "type")) with true.
  change (forallb ordinary (u "object")) with true.
  change (forallb ordinary (u "required")) with true.
  change (forallb ordinary (u "properties")) with true.
  cbn [andb]. rewrite andb_true_r.
  induction m as [|[k v] r IH]; [reflexivity|].
  destruct (H k v (or_introl eq_refl)) as [Hk [s [-> Hs]]].
  assert (Hr : forall k v, In (k, v) r ->
             forallb ordinary k = true
             /\ exists s, v = JStr s /\ forallb ordinary s = true)
    by (intros k' v' Hi; apply H; now right).
  specialize (IH Hr). apply andb_prop in IH as [IH1 IH2].
  cbn [Object_keys described map forallb ordinary_value fst snd].
  change (forallb ordinary (u "type")) with true.
  fold (Object_keys r). fold (described r).
  rewrite Hk, Hs, IH1, IH2. reflexivity.
Qed.

(** X26.  The cleanup pass does what it is there for: the text
    [generateJsonSchemaFromSchema] writes for a mapping, with every
    double quote escaped by a backslash, is rejected by the first
    [JSON.parse] and nevertheless read by
    [extractSchemaFromJsonSchema] as the mapping, provided the names
    and types hold none of the characters JSON escapes. *)
Theorem simplify_reads_text_with_escaped_quotes (m : jsobj) (text : jsstring) :
  schema_mapping m ->
  (forall k v, In (k, v) m ->
     forallb ordinary k = true /\ exists s, v = JStr s /\ forallb ordinary s = true) ->
  generateJsonSchemaFromSchema (Some m) = Some text ->
  JSON_parse (trim (escape_quotes text)) = None
  /\ extractSchemaFromJsonSchema (escape_quotes text) = mkOutcome (Normal (Some m)) [].
Proof.
  intros Hm Ho Hg.
  destruct (simplify_generated m Hm) as [Eg Es]. rewrite Eg in Hg.
  inversion Hg as [Et]. clear Hg.
  set (doc := schema_document (Object_keys m) (described m)) in *.
  destruct Hm as [Hne [Hord [_ Hstr]]].
  assert (Hkeys : Object_keys m <> []) by (destruct m; [contradiction | discriminate]).
  assert (Hnb : no_backslash (JSON_stringify doc 2) = true)
    by (apply no_backslash_serialize; now apply ordinary_schema_document).
  assert (Etrim : trim (JSON_stringify doc 2) = JSON_stringify doc 2)
    by apply trim_object_text.
  assert (Hplain : plain doc = true).
  { apply plain_schema_document; [exact Hord|].
    intros k v Hi. destruct (Hstr k v Hi) as [_ [s [-> _]]]. now exists s. }
  assert (Hdirect : JSON_parse (trim (escape_quotes (JSON_stringify doc 2))) = None).
  { destruct (generated_text_opening (Object_keys m) (described m) Hkeys) as [A EA].
    fold doc in EA. rewrite EA.
    change (escape_quotes (123 :: 10 :: 32 :: 32 :: 34 :: A ++ [125]))
      with (123 :: (10 :: 32 :: 32 :: BACKSLASH :: DQUOTE :: escape_quotes (A ++ [125]))).
    rewrite escape_quotes_app.
    change (escape_quotes [125]) with [125].
    change (123 :: 10 :: 32 :: 32 :: BACKSLASH :: DQUOTE :: escape_quotes A ++ [125])
      with (123 :: (10 :: 32 :: 32 :: BACKSLASH :: DQUOTE :: escape_quotes A) ++ [125]).
    rewrite trim_bracketed by reflexivity.
    apply (JSON_parse_escaped_member _
             ((10 :: 32 :: 32 :: BACKSLASH :: DQUOTE :: escape_quotes A) ++ [125])
             (DQUOTE :: escape_quotes A ++ [125])); reflexivity. }
  split; [exact Hdirect|].
  assert (Ep : parse_schema_text (escape_quotes (JSON_stringify doc 2))
               = parse_schema_text (JSON_stringify doc 2)).
  { unfold parse_schema_text.
    rewrite Hdirect, (cleaned_escaped _ Hnb), !Etrim, (JSON_parse_stringify doc 2 Hplain).
    reflexivity. }
  assert (Ex : extractSchemaFromJsonSchema (escape_quotes (JSON_stringify doc 2))
               = extractSchemaFromJsonSchema (JSON_stringify doc 2)).
  { unfold extractSchemaFromJsonSchema, extract_body. now rewrite Ep. }
  rewrite Ex. clear Ex Ep Hdirect.
  unfold simplify, returned in Es.
  unfold extractSchemaFromJsonSchema in *.
  destruct (extract_body (JSON_stringify doc 2)) as [r|e]; cbn [result] in Es.
  - now rewrite Es.
  - discriminate Es.
Qed.

Lemma simplify_reads_text_with_escaped_quotes_witness :
  exists text,
    generateJsonSchemaFromSchema (Some [(u "foo", JStr (u "string"))]) = Some text
    /\ JSON_parse (trim (escape_quotes text)) = None
    /\ extractSchemaFromJsonSchema (escape_quotes text)
       = mkOutcome (Normal (Some [(u "foo", JStr (u "string"))])) [].
Proof.
  eexists. split; [reflexivity|].
  apply (simplify_reads_text_with_escaped_quotes [(u "foo", JStr (u "string"))]).
  - split; [discriminate | split; [reflexivity | split; [reflexivity|]]].
    intros k v [E | []]; inversion E; subst.
    split; [discriminate | eexists; split; [reflexivity | discriminate]].
  - intros k v [E | []]; inversion E; subst.
    split; [reflexivity | eexists; split; reflexivity].
  - reflexivity.
Defined.
